(** * EcoJAX gridworld: a shallow embedding of [ecojax/environment/gridworld.py]

    The environment is a pure state-transition system: [reset] builds a
    state, [step] maps a state, one action per slot and a random key to a
    new state.  Arrays indexed by the agent slot are lists, the H x W map
    channels are total functions on cells (only cells in range are ever
    read, because positions are reduced modulo the grid shape), floats are
    exact rationals, and the outcomes of the random draws are explicit
    inputs. *)

From Stdlib Require Import ZArith QArith Qround Qminmax Lqa Lia.
From stdpp Require Import base tactics option list sorting strings.

Close Scope Q_scope.
Open Scope Z_scope.

(** ** Arrays *)

Definition Pos : Type := Z * Z.

(** A dense [H x W] array.  *)
Definition grid (A : Type) : Type := Z → Z → A.

Definition grid_zeros : grid Q := λ _ _, 0%Q.

(** [g.at[r, c].add(v)] *)
Definition grid_add (g : grid Q) (p : Pos) (v : Q) : grid Q :=
  λ r c, if bool_decide (p = (r, c)) then (g r c + v)%Q else g r c.

(** [g.at[r, c].set(v)] *)
Definition grid_set {A} (g : grid A) (p : Pos) (v : A) : grid A :=
  λ r c, if bool_decide (p = (r, c)) then v else g r c.

(** [g.at[ps[:, 0], ps[:, 1]].add(vs)]: the updates are accumulated. *)
Definition scatter_add (g : grid Q) (ps : list Pos) (vs : list Q) : grid Q :=
  foldl (λ acc pv, grid_add acc pv.1 pv.2) g (zip ps vs).

(** [g.at[ps[:, 0], ps[:, 1]].set(vs)]: updates are applied in array order,
    so for a cell written twice the last update is the one that stays. *)
Definition scatter_set {A} (g : grid A) (ps : list Pos) (vs : list A) : grid A :=
  foldl (λ acc pv, grid_set acc pv.1 pv.2) g (zip ps vs).

Definition grid_at {A} (g : grid A) (p : Pos) : A := g p.1 p.2.

(** [l[i]] for an index array: JAX clamps an index past the end. *)
Definition gather {A} `{Inhabited A} (l : list A) (i : nat) : A :=
  l !!! Nat.min i (length l - 1).

(** [l.at[idx].set(vs)] on a vector: an index past the end is dropped
    (which is what stdpp's list insert does). *)
Definition vec_scatter_set {A} (l : list A) (idx : list nat) (vs : list A) : list A :=
  foldl (λ acc iv, <[iv.1 := iv.2]> acc) l (zip idx vs).

Definition arange (n : nat) : list Z := Z.of_nat <$> seq 0 n.

Definition b2q (b : bool) : Q := if b then 1%Q else 0%Q.

Definition count_true (l : list bool) : nat := length (filter (λ b, b = true) l).

(** [jnp.cumsum] of a 0/1 mask. *)
Definition cumsum_mask (l : list bool) : list nat :=
  imap (λ i _, count_true (take (S i) l)) l.

(** [jnp.where(mask, size=n, fill_value=fill)[0]]: the indices at which the
    mask holds, in increasing order, padded with [fill] up to length [n]. *)
Fixpoint where_from (k : nat) (mask : list bool) : list nat :=
  match mask with
  | [] => []
  | b :: m => if b then k :: where_from (S k) m else where_from (S k) m
  end.

Definition where_filled (mask : list bool) (n fill : nat) : list nat :=
  take n (where_from 0 mask ++ replicate n fill).

(** [jnp.clip(x, lo, hi) = minimum(maximum(x, lo), hi)] *)
Definition clip (x lo hi : Q) : Q := Qmin (Qmax x lo) hi.

Definition Qltb (x y : Q) : bool := negb (Qle_bool y x).

(** [jnp.round]: round half to even. *)
Definition round_half_even (q : Q) : Z :=
  let f := Qfloor q in
  let r := (q - inject_Z f)%Q in
  if Qltb r (1 # 2) then f
  else if Qltb (1 # 2) r then f + 1
  else if Z.even f then f else f + 1.

(** [.astype(jnp.int32)] on an integer: two's complement wrap-around. *)
Definition astype_int32 (x : Z) : Z := (x + 2 ^ 31) mod 2 ^ 32 - 2 ^ 31.

(** ** Stable index sorts

    [jnp.lexsort] and [jnp.argsort] return the permutation of positions
    that sorts the keys, ties being left in position order. *)

Section stable_argsort.
Context {K : Type} (le : relation K) `{!∀ x y, Decision (le x y)}.

Definition keyed_le (x y : K * nat) : Prop :=
  le x.1 y.1 ∧ (le y.1 x.1 → (x.2 ≤ y.2)%nat).

#[local] Instance keyed_le_dec x y : Decision (keyed_le x y).
Proof. unfold keyed_le. apply _. Defined.

Definition sort_keyed (keys : list K) : list (K * nat) :=
  merge_sort keyed_le (zip keys (seq 0 (length keys))).

Definition stable_argsort (keys : list K) : list nat :=
  snd <$> sort_keyed keys.
End stable_argsort.

(** Order of [jnp.lexsort((secondary, primary))]: the last key is the
    primary one. *)
Definition pair_le (x y : Z * Z) : Prop := x.1 < y.1 ∨ (x.1 = y.1 ∧ x.2 ≤ y.2).

#[local] Instance pair_le_dec x y : Decision (pair_le x y).
Proof. unfold pair_le. apply _. Defined.

Definition lexsort (secondary primary : list Z) : list nat :=
  stable_argsort pair_le (zip primary secondary).

Definition argsort (keys : list nat) : list nat :=
  stable_argsort Nat.le keys.

(** ** Configuration (the attributes set by [GridworldEnv.__init__]) *)

Inductive MethodSun : Type :=
  | SunNone | SunFixed | SunRandom | SunBrownian | SunSine | SunLinear.

Definition RGB : Type := Q * Q * Q.

Record Config : Type := {
  n_agents_max : nat;
  n_agents_initial : nat;
  width : Z;
  height : Z;
  is_terminal : bool;
  allow_multiple_agents_per_tile : bool;
  dim_appearance : nat;
  list_actions : list string;
  list_observations : list string;
  (* [self.list_indexes_channels_visual_field] *)
  list_indexes_channels_visual_field : list nat;
  (* video *)
  n_steps_per_video : Z;
  color_background : RGB;
  (* the channels that carry a colour tag, in channel order, with the RGB
     value [DICT_COLOR_TAG_TO_RGB] gives to the tag *)
  channel_colors : list (nat * RGB);
  (* sun *)
  period_sun : Z;
  method_sun : MethodSun;
  radius_sun_effect : Q;
  (* agents *)
  vision_range_agent : Z;
  age_max : Z;
  energy_max : Q;
  energy_initial : Q;
  energy_loss_idle : Q;
  energy_loss_action : Q;
  energy_food : Q;
  energy_thr_death : Q;
  energy_req_reprod : Q;
  energy_cost_reprod : Q;
  energy_transfer_loss : Q;
  energy_transfer_gain : Q;
  infancy_duration : Z;
  infant_move_prob : Q;
  infant_eat_prob : Q;
  infant_food_energy_mult : Q;
}.

(** [self.fill_value = self.n_agents_max] *)
Definition fill_value (cfg : Config) : nat := n_agents_max cfg.

(** [self.action_to_idx = {action: idx for idx, action in enumerate(list_actions)}]:
    a name listed twice keeps its last index; a lookup of a name that is
    not listed raises [KeyError], here [None]. *)
Fixpoint index_last (name : string) (l : list string) (k : Z) : option Z :=
  match l with
  | [] => None
  | a :: l' =>
      match index_last name l' (k + 1) with
      | Some j => Some j
      | None => if String.eqb a name then Some k else None
      end
  end.

Definition action_to_idx (cfg : Config) (name : string) : option Z :=
  index_last name (list_actions cfg) 0.

Definition in_list_actions (cfg : Config) (name : string) : bool :=
  bool_decide (name ∈ list_actions cfg).

(** [self.dict_name_channel_to_idx]: sun, plants, agents, agent_ages, then
    one channel per appearance dimension. *)
Definition idx_sun : nat := 0.
Definition idx_plants : nat := 1.
Definition idx_agents : nat := 2.
Definition idx_agent_ages : nat := 3.

(** ** State *)

Record AgentGridworld : Type := {
  positions_agents : list Pos;
  orientation_agents : list Z;
  are_existing_agents : list bool;
  energy_agents : list Q;
  age_agents : list Z;
  appearance_agents : list (list Q);
  parent_agents : list nat;
}.

Definition Frame : Type := grid RGB.

Record StateEnvGridworld : Type := {
  timestep : Z;
  (* the [(H, W, C)] map, one grid per channel *)
  map : list (grid Q);
  latitude_sun : option Z;
  agents : AgentGridworld;
  video : list Frame;
}.

#[local] Instance grid_inhabited : Inhabited (grid Q) := populate grid_zeros.
#[local] Instance Q_inhabited : Inhabited Q := populate 0%Q.

Definition channel (m : list (grid Q)) (idx : nat) : grid Q := m !!! idx.

(** The outcomes of the random draws of one [step], in the order the keys
    are consumed.  [jax.random.bernoulli(key, p)] is [uniform(key) < p];
    [step_action_agents] hands the same key to the movement and to the
    eating draw, so both compare the same uniform sample. *)
Record Draws : Type := {
  uniform_action : list Q;
  (* [random]: the sampled row; [brownian]: the Gaussian step
     [normal * H / 2 / sqrt(period)]; [sine]: the value of the sine *)
  sun_randint : Z;
  sun_brownian_step : Q;
  sun_sine : Q;
  (* the sampled plant grid of [step_grow_plants] *)
  plants_sample : grid Q;
  noise_appearances : list (list Q);
}.

(** ** Movement *)

(** [d_pos = [cos(o * pi / 2), -sin(o * pi / 2)].astype(int32)]: the cast
    truncates the float residue of the trigonometric functions, leaving
    the four unit steps. *)
Definition d_pos (orientation : Z) : Pos :=
  match orientation mod 4 with
  | 0 => (1, 0)
  | 1 => (0, -1)
  | 2 => (-1, 0)
  | _ => (0, 1)
  end.

Definition get_facing_pos (cfg : Config) (position : Pos) (orientation : Z) : Pos :=
  let d := d_pos orientation in
  ((position.1 + d.1) mod height cfg, (position.2 + d.2) mod width cfg).

Definition is_infant_of (cfg : Config) (ages : list Z) : list bool :=
  (λ a, bool_decide (a < infancy_duration cfg)) <$> ages.

Definition bernoulli (u : list Q) (p : list Q) : list bool := zip_with Qltb u p.

Definition compute_new_positions (cfg : Config) (key_random : list Q)
    (curr_positions facing_positions : list Pos) (is_moving : list bool)
    (ages : list Z) : list Pos :=
  let is_infant := is_infant_of cfg ages in
  let success_probs :=
    (λ b : bool, if b then infant_move_prob cfg else 1%Q) <$> is_infant in
  let is_moving := zip_with andb is_moving (bernoulli key_random success_probs) in
  zip_with (λ (m : bool) fc, if m then fc.1 else fc.2)
    is_moving (zip facing_positions curr_positions).

Definition compute_new_orientations (cfg : Config) (curr_orientations actions : list Z)
    : option (list Z) :=
  left ← action_to_idx cfg "left";
  right ← action_to_idx cfg "right";
  let turning_left := (λ a, if bool_decide (a = left) then 1 else 0) <$> actions in
  let turning_right := (λ a, if bool_decide (a = right) then 1 else 0) <$> actions in
  let d_ori := zip_with (λ l r, l + 3 * r) turning_left turning_right in
  Some (zip_with (λ o d, (o + d) mod 4) curr_orientations d_ori).

Definition facing_positions_of (cfg : Config) (a : AgentGridworld) : list Pos :=
  zip_with (get_facing_pos cfg) (positions_agents a) (orientation_agents a).

Definition move_agents_allow_multiple_occupancy (cfg : Config) (key_random : list Q)
    (state : StateEnvGridworld) (actions : list Z)
    : option (list Pos * list Z * list Pos) :=
  forward ← action_to_idx cfg "forward";
  let is_moving := (λ a, bool_decide (a = forward)) <$> actions in
  let facing_positions := facing_positions_of cfg (agents state) in
  let new_positions :=
    compute_new_positions cfg key_random (positions_agents (agents state))
      facing_positions is_moving (age_agents (agents state)) in
  new_orientations ←
    compute_new_orientations cfg (orientation_agents (agents state)) actions;
  Some (new_positions, new_orientations, facing_positions).

(** The block shared by movement and reproduction: sort the slots by
    facing tile, then slot index; drop every slot whose predecessor in the
    sorted order faces the same tile; undo the sort. *)
Definition keep_first_per_tile (n : nat) (facing_tiles : list Z) (flags : list bool)
    : list bool :=
  let indices := lexsort (arange n) facing_tiles in
  let sorted_flags := gather flags <$> indices in
  let sorted_facing := gather facing_tiles <$> indices in
  let same_as_prev :=
    false :: zip_with Z.eqb (drop 1 sorted_facing)
               (take (length sorted_facing - 1) sorted_facing) in
  gather (zip_with (λ (s m : bool), if s then false else m) same_as_prev sorted_flags)
    <$> argsort indices.

Definition facing_tiles_of (cfg : Config) (facing_positions : list Pos) : list Z :=
  (λ p : Pos, p.1 * width cfg + p.2) <$> facing_positions.

Definition move_agents_enforce_single_occupancy (cfg : Config) (key_random : list Q)
    (state : StateEnvGridworld) (actions : list Z)
    : option (list Pos * list Z * list Pos) :=
  let agent_map := channel (map state) idx_agents in
  forward ← action_to_idx cfg "forward";
  let is_attempting_move := (λ a, bool_decide (a = forward)) <$> actions in
  let facing_positions := facing_positions_of cfg (agents state) in
  let is_moving :=
    zip_with (λ (a : bool) p, a && Qeq_bool (grid_at agent_map p) 0)
      is_attempting_move facing_positions in
  let facing_tiles := facing_tiles_of cfg facing_positions in
  let is_moving := keep_first_per_tile (n_agents_max cfg) facing_tiles is_moving in
  let new_positions :=
    compute_new_positions cfg key_random (positions_agents (agents state))
      facing_positions is_moving (age_agents (agents state)) in
  new_orientations ←
    compute_new_orientations cfg (orientation_agents (agents state)) actions;
  Some (new_positions, new_orientations, facing_positions).

(** ** Sun and plants *)

(** [jnp.roll(g, shift, axis=0)] on a grid with [H] rows. *)
Definition roll_rows (H : Z) (g : grid Q) (shift : Z) : grid Q :=
  λ r c, g ((r - shift) mod H) c.

Definition set_channel (m : list (grid Q)) (idx : nat) (g : grid Q) : list (grid Q) :=
  <[idx := g]> m.

Definition step_update_sun (cfg : Config) (state : StateEnvGridworld) (draws : Draws)
    : option StateEnvGridworld :=
  let H := height cfg in
  let new_latitude (latitude : Q) : option StateEnvGridworld :=
    let latitude := astype_int32 (round_half_even latitude) in
    let latitude := latitude mod H in
    old ← latitude_sun state;
    let shift := latitude - old in
    Some {| timestep := timestep state;
            map := set_channel (map state) idx_sun
                     (roll_rows H (channel (map state) idx_sun) shift);
            latitude_sun := Some latitude;
            agents := agents state;
            video := video state |} in
  match method_sun cfg with
  | SunNone => Some state
  | SunFixed => Some state
  | SunRandom => new_latitude (inject_Z (sun_randint draws))
  | SunBrownian =>
      old ← latitude_sun state;
      new_latitude (inject_Z old + sun_brownian_step draws)%Q
  | SunSine =>
      new_latitude (inject_Z (H / 2) + inject_Z (H / 2) * sun_sine draws)%Q
  | SunLinear =>
      (* [//] by a zero period raises *)
      if bool_decide (period_sun cfg = 0) then None
      else new_latitude (inject_Z (H / 2 + H * timestep state / period_sun cfg))
  end.

(** [step_grow_plants] replaces the plant channel by a Bernoulli sample
    whose probabilities come from a logistic transform of the clipped
    logits; the sample itself is the input [plants_sample]. *)
Definition step_grow_plants (state : StateEnvGridworld) (draws : Draws)
    : StateEnvGridworld :=
  {| timestep := timestep state;
     map := set_channel (map state) idx_plants (plants_sample draws);
     latitude_sun := latitude_sun state;
     agents := agents state;
     video := video state |}.

(** ** Actions *)

Definition Qsum (l : list Q) : Q := foldr Qplus 0%Q l.

Definition count_q (l : list bool) : Q := Qsum (b2q <$> l).

(** [are_agents_eating]: existing, chose "eat", and drew a success. *)
Definition eating_agents (cfg : Config) (key_random : list Q) (a : AgentGridworld)
    (actions : list Z) (eat : Z) : list bool :=
  let are_agents_eating :=
    zip_with (λ (e : bool) act, e && bool_decide (act = eat))
      (are_existing_agents a) actions in
  let is_infant := is_infant_of cfg (age_agents a) in
  let success_probs :=
    (λ b : bool, if b then infant_eat_prob cfg else 1%Q) <$> is_infant in
  zip_with andb are_agents_eating (bernoulli key_random success_probs).

Definition map_agents_try_eating (positions_agents_new : list Pos)
    (are_agents_eating : list bool) : grid Q :=
  scatter_add grid_zeros positions_agents_new (b2q <$> are_agents_eating).

Definition food_energy_bonus (cfg : Config) (map_plants : grid Q)
    (positions_agents_new : list Pos) (are_agents_eating : list bool)
    (ages : list Z) : list Q :=
  let try_eating := map_agents_try_eating positions_agents_new are_agents_eating in
  let map_food_energy_bonus_available_per_agent : grid Q :=
    λ r c, (energy_food cfg * map_plants r c / Qmax 1 (try_eating r c))%Q in
  let bonus :=
    zip_with (λ p (e : bool),
                (grid_at map_food_energy_bonus_available_per_agent p * b2q e)%Q)
      positions_agents_new are_agents_eating in
  zip_with (λ b (i : bool),
              (b * (if i then infant_food_energy_mult cfg else 1))%Q)
    bonus (is_infant_of cfg ages).

(** The plant channel once the eaten plants are removed. *)
Definition map_plants_eaten (map_plants : grid Q) (positions_agents_new : list Pos)
    (are_agents_eating : list bool) : grid Q :=
  let try_eating := map_agents_try_eating positions_agents_new are_agents_eating in
  λ r c, clip (map_plants r c - try_eating r c * map_plants r c)%Q 0 1.

Definition transferring_agents (a : AgentGridworld) (actions : list Z) (transfer : Z)
    : list bool :=
  zip_with (λ (e : bool) act, e && bool_decide (act = transfer))
    (are_existing_agents a) actions.

Definition are_receiving_from (cfg : Config) (a : AgentGridworld) (i : nat) : list bool :=
  let target_pos :=
    get_facing_pos cfg (gather (positions_agents a) i) (gather (orientation_agents a) i) in
  zip_with (λ (e : bool) p, e && bool_decide (p = target_pos))
    (are_existing_agents a) (positions_agents a).

(** [per_agent_helper_fn(i)]: the energy change donor [i] causes in every
    slot, and whether [i] transfers at all. *)
Definition per_agent_helper_fn (cfg : Config) (a : AgentGridworld)
    (are_agents_transferring : list bool) (i : nat) : list Q * bool :=
  let are_receiving := are_receiving_from cfg a i in
  let is_transfer := gather are_agents_transferring i && existsb id are_receiving in
  let loss := (b2q is_transfer * energy_transfer_loss cfg)%Q in
  let gain :=
    (b2q is_transfer * energy_transfer_gain cfg / Qmax 1 (count_q are_receiving))%Q in
  let delta_energy :=
    zip_with Qplus
      (alter (λ x, x + - loss)%Q i (replicate (length (energy_agents a)) 0%Q))
      ((λ r, gain * b2q r)%Q <$> are_receiving) in
  (delta_energy, is_transfer).

(** [transfer_delta_energy.sum(axis=0)] *)
Definition transfer_delta_energy_sum (cfg : Config) (a : AgentGridworld)
    (are_agents_transferring : list bool) : list Q :=
  foldr (λ i acc, zip_with Qplus (per_agent_helper_fn cfg a are_agents_transferring i).1 acc)
    (replicate (n_agents_max cfg) 0%Q) (seq 0 (n_agents_max cfg)).

(** The energy of every slot once food, transfers and the flat costs are
    applied, before the clamp. *)
Definition energy_after_costs (cfg : Config) (a : AgentGridworld) (actions : list Z)
    (energy_agents_new : list Q) (idle : Z) (are_agents_transferring : option (list bool))
    : list Q :=
  let idle_agents :=
    zip_with (λ (e : bool) act, e && bool_decide (act = idle))
      (are_existing_agents a) actions in
  let not_idle_agents :=
    zip_with (λ (e i : bool), e && negb i) (are_existing_agents a) idle_agents in
  let not_idle_agents :=
    match are_agents_transferring with
    | Some tr => zip_with (λ (ni t : bool), ni && negb t) not_idle_agents tr
    | None => not_idle_agents
    end in
  zip_with (λ e (f : bool * bool),
              (e - energy_loss_idle cfg * b2q f.1 - energy_loss_action cfg * b2q f.2)%Q)
    energy_agents_new (zip idle_agents not_idle_agents).

Definition step_action_agents (cfg : Config) (state : StateEnvGridworld)
    (actions : list Z) (draws : Draws) : option StateEnvGridworld :=
  let a := agents state in
  let key_random := uniform_action draws in
  let map_plants := channel (map state) idx_plants in
  let move_func :=
    if allow_multiple_agents_per_tile cfg
    then move_agents_allow_multiple_occupancy
    else move_agents_enforce_single_occupancy in
  '(positions_agents_new, orientation_agents_new, facing_positions) ←
    move_func cfg key_random state actions;
  (* without "eat" the name [energy_agents_new] is unbound further down *)
  guard (in_list_actions cfg "eat" = true);;
  eat ← action_to_idx cfg "eat";
  let are_agents_eating := eating_agents cfg key_random a actions eat in
  let energy_agents_new :=
    zip_with Qplus (energy_agents a)
      (food_energy_bonus cfg map_plants positions_agents_new are_agents_eating
         (age_agents a)) in
  let map_plants := map_plants_eaten map_plants positions_agents_new are_agents_eating in
  are_agents_transferring ←
    (if in_list_actions cfg "transfer"
     then transfer ← action_to_idx cfg "transfer";
          Some (Some (transferring_agents a actions transfer))
     else Some None);
  let energy_agents_new :=
    match are_agents_transferring with
    | Some tr => zip_with Qplus energy_agents_new (transfer_delta_energy_sum cfg a tr)
    | None => energy_agents_new
    end in
  idle ← action_to_idx cfg "idle";
  let energy_agents_new :=
    energy_after_costs cfg a actions energy_agents_new idle are_agents_transferring in
  let energy_agents_new := (λ e, clip e 0 (energy_max cfg)) <$> energy_agents_new in
  let are_existing_agents_new :=
    zip_with (λ e (x : bool * Z),
                Qltb (energy_thr_death cfg) e && x.1 && bool_decide (x.2 < age_max cfg))
      energy_agents_new (zip (are_existing_agents a) (age_agents a)) in
  let appearance_agents_new :=
    zip_with (λ app (e : bool), (λ x, x * b2q e)%Q <$> app)
      (appearance_agents a) are_existing_agents_new in
  let agents_new :=
    {| positions_agents := positions_agents_new;
       orientation_agents := orientation_agents_new;
       are_existing_agents := are_existing_agents_new;
       energy_agents := energy_agents_new;
       age_agents := age_agents a;
       appearance_agents := appearance_agents_new;
       parent_agents := parent_agents a |} in
  let state :=
    {| timestep := timestep state;
       map := set_channel (map state) idx_plants map_plants;
       latitude_sun := latitude_sun state;
       agents := agents_new;
       video := video state |} in
  state ← step_update_sun cfg state draws;
  Some (step_grow_plants state draws).

(** ** Reproduction *)

(** [update_agent_map], the helper local to [step]: the occupancy channel
    is rebuilt from the positions of the existing agents. *)
Definition update_agent_map (state : StateEnvGridworld) : StateEnvGridworld :=
  let map_agents_new :=
    scatter_add grid_zeros (positions_agents (agents state))
      (b2q <$> are_existing_agents (agents state)) in
  {| timestep := timestep state;
     map := set_channel (map state) idx_agents map_agents_new;
     latitude_sun := latitude_sun state;
     agents := agents state;
     video := video state |}.

(** [agents_reprod] as it stands before the capacity cut: energy and age
    test, empty facing tile, one reproducer per tile, and the "reproduce"
    action when the action set has one. *)
Definition agents_trying_reprod (cfg : Config) (state : StateEnvGridworld)
    (actions : list Z) : option (list bool) :=
  let a := agents state in
  let agents_reprod :=
    zip_with (λ e (x : Z * bool),
                Qltb (energy_req_reprod cfg) e
                && bool_decide (infancy_duration cfg ≤ x.1) && x.2)
      (energy_agents a) (zip (age_agents a) (are_existing_agents a)) in
  let facing_positions := facing_positions_of cfg a in
  let agent_map := channel (map state) idx_agents in
  let agents_reprod :=
    zip_with (λ (r : bool) p, r && Qeq_bool (grid_at agent_map p) 0)
      agents_reprod facing_positions in
  let facing_tiles := facing_tiles_of cfg facing_positions in
  let agents_reprod := keep_first_per_tile (n_agents_max cfg) facing_tiles agents_reprod in
  if in_list_actions cfg "reproduce"
  then reproduce ← action_to_idx cfg "reproduce";
       Some (zip_with (λ (r : bool) act, r && bool_decide (act = reproduce))
               agents_reprod actions)
  else Some agents_reprod.

Definition n_newborns_of (agents_reprod are_existing_agents : list bool) : nat :=
  let n_agents_trying_reprod := count_true agents_reprod in
  let n_ghost_agents := count_true (negb <$> are_existing_agents) in
  Nat.min n_agents_trying_reprod n_ghost_agents.

(** [(cumsum_repro_attempts <= n_newborns) & agents_reprod] *)
Definition agents_allowed_reprod (agents_reprod : list bool) (n_newborns : nat)
    : list bool :=
  zip_with (λ (c : nat) (r : bool), bool_decide (c ≤ n_newborns)%nat && r)
    (cumsum_mask agents_reprod) agents_reprod.

Definition indices_newborn_agents_FILLED (cfg : Config) (are_existing_agents : list bool)
    (n_newborns : nat) : list nat :=
  let indices_ghost_agents_FILLED :=
    where_filled (negb <$> are_existing_agents) (n_agents_max cfg) (fill_value cfg) in
  zip_with (λ (k g : nat), if bool_decide (k < n_newborns)%nat then g else n_agents_max cfg)
    (seq 0 (n_agents_max cfg)) indices_ghost_agents_FILLED.

Record ReproduceResult : Type := {
  repr_state : StateEnvGridworld;
  repr_agents_reprod : list bool;
  repr_are_newborns_agents : list bool;
  repr_agents_parents : list nat;
}.

#[local] Instance Pos_inhabited : Inhabited Pos := populate (0, 0).

Definition step_reproduce_agents (cfg : Config) (state : StateEnvGridworld)
    (actions : list Z) (noise : list (list Q)) : option ReproduceResult :=
  let a := agents state in
  let N := n_agents_max cfg in
  let are_existing_agents := are_existing_agents a in
  agents_reprod ← agents_trying_reprod cfg state actions;
  let facing_positions := facing_positions_of cfg a in
  let n_newborns := n_newborns_of agents_reprod are_existing_agents in
  let agents_reprod := agents_allowed_reprod agents_reprod n_newborns in
  let indices_newborn := indices_newborn_agents_FILLED cfg are_existing_agents n_newborns in
  let are_newborns_agents :=
    vec_scatter_set (replicate N false) indices_newborn (replicate N true) in
  let indices_had_reproduced_FILLED := where_filled agents_reprod N (fill_value cfg) in
  let agents_parents :=
    vec_scatter_set (replicate N (fill_value cfg)) indices_newborn
      indices_had_reproduced_FILLED in
  let parent_agents_new :=
    vec_scatter_set (parent_agents a) indices_newborn indices_had_reproduced_FILLED in
  let energy_agents_new :=
    zip_with (λ e (r : bool), (e - b2q r * energy_cost_reprod cfg)%Q)
      (energy_agents a) agents_reprod in
  let are_existing_agents_new := zip_with orb are_existing_agents are_newborns_agents in
  let energy_agents_new :=
    vec_scatter_set energy_agents_new indices_newborn (replicate N (energy_initial cfg)) in
  let age_agents_new := vec_scatter_set (age_agents a) indices_newborn (replicate N 0) in
  let newborn_positions := gather facing_positions <$> indices_had_reproduced_FILLED in
  let positions_agents_new :=
    vec_scatter_set (positions_agents a) indices_newborn newborn_positions in
  let appearance_agents_new :=
    vec_scatter_set (appearance_agents a) indices_newborn
      (zip_with (zip_with Qplus)
         (gather (appearance_agents a) <$> indices_had_reproduced_FILLED) noise) in
  let agents_new :=
    {| positions_agents := positions_agents_new;
       orientation_agents := orientation_agents a;
       are_existing_agents := are_existing_agents_new;
       energy_agents := energy_agents_new;
       age_agents := age_agents_new;
       appearance_agents := appearance_agents_new;
       parent_agents := parent_agents_new |} in
  Some {| repr_state :=
            {| timestep := timestep state;
               map := map state;
               latitude_sun := latitude_sun state;
               agents := agents_new;
               video := video state |};
          repr_agents_reprod := agents_reprod;
          repr_are_newborns_agents := are_newborns_agents;
          repr_agents_parents := agents_parents |}.

(** ** Rendering *)

Definition rgb_map2 (f : Q → Q → Q) (x y : RGB) : RGB :=
  (f x.1.1 y.1.1, f x.1.2 y.1.2, f x.2 y.2).

Definition get_RGB_map (cfg : Config) (images : list (grid Q)) : Frame :=
  λ r c,
    let channel_sum := (channel images 1 r c + channel images 2 r c)%Q in
    let blended_image :=
      foldl (λ blended (cc : nat * RGB),
               let delta := rgb_map2 Qminus cc.2 blended in
               let intensity := b2q (Qltb 0 (channel images cc.1 r c)) in
               rgb_map2 (λ b d, b + d * (intensity / Qmax channel_sum 1))%Q
                 blended delta)
        (color_background cfg) (channel_colors cfg) in
    rgb_map2 (λ x _, clip x 0 1) blended_image blended_image.

Definition zero_frame : Frame := λ _ _, (0%Q, 0%Q, 0%Q).

(** ** Observations *)

Definition transpose {A} (m : list (list A)) : list (list A) :=
  (λ j, omap (λ row : list A, row !! j) m)
    <$> seq 0 (length (default [] (head m))).

(** [jnp.rot90(m, k, axes=(0, 1))] *)
Definition rot90 {A} (k : nat) (m : list (list A)) : list (list A) :=
  match k with
  | 0%nat => m
  | 1%nat => transpose (reverse <$> m)
  | 2%nat => reverse (reverse <$> m)
  | _ => reverse <$> transpose m
  end.

(** The scatter of the slot indices over the cells they stand on, written
    in reverse slot order. *)
Definition agent_index_map (cfg : Config) (a : AgentGridworld) : grid nat :=
  let poses := reverse (positions_agents a) in
  scatter_set (λ _ _, fill_value cfg) poses (reverse (seq 0 (n_agents_max cfg))).

Definition agent_parent_map (cfg : Config) (a : AgentGridworld) : grid nat :=
  λ r c, gather (parent_agents a) (agent_index_map cfg a r c).

Definition is_infant_map (cfg : Config) (a : AgentGridworld) : grid Q :=
  let poses := reverse (positions_agents a) in
  scatter_set grid_zeros poses (reverse (b2q <$> is_infant_of cfg (age_agents a))).

(** The rows and columns a slot at [x] sees: [(x + d) % H] for [d] in
    [-v .. v]. *)
Definition vision_indexes (cfg : Config) (x extent : Z) : list Z :=
  (λ d, (x + d) mod extent)
    <$> seqZ (- vision_range_agent cfg) (2 * vision_range_agent cfg + 1).

(** [is_offspring_vis_field] of [get_single_agent_visual_field], before
    the rotation. *)
Definition is_offspring_vis_field (cfg : Config) (a : AgentGridworld)
    (position : Pos) (agent_idx : nat) : list (list Q) :=
  (λ r, (λ c, b2q (bool_decide (agent_parent_map cfg a r c = agent_idx)))
          <$> vision_indexes cfg position.2 (width cfg))
    <$> vision_indexes cfg position.1 (height cfg).

Definition get_single_agent_visual_field (cfg : Config) (map_vis_field : list (grid Q))
    (a : AgentGridworld) (position : Pos) (orientation : Z) (agent_idx : nat)
    : list (list (list Q)) :=
  let rows := vision_indexes cfg position.1 (height cfg) in
  let cols := vision_indexes cfg position.2 (width cfg) in
  let vis_field :=
    (λ r, (λ c, (λ g : grid Q, g r c) <$> map_vis_field) <$> cols) <$> rows in
  let vis_field :=
    zip_with (zip_with (λ chans o, chans ++ [o]))
      vis_field (is_offspring_vis_field cfg a position agent_idx) in
  if bool_decide (orientation = 0) then vis_field
  else if bool_decide (orientation = 1) then rot90 3 vis_field
  else if bool_decide (orientation = 2) then rot90 2 vis_field
  else if bool_decide (orientation = 3) then rot90 1 vis_field
  else (λ row : list (list Q),
          (λ chans : list Q, (λ _ : Q, 0%Q) <$> chans) <$> row) <$> vis_field.

Record Observations : Type := {
  obs_energy : option (list Q);
  obs_age : option (list Q);
  obs_just_reproduced : option (list Q);
  obs_visual_field : option (list (list (list (list Q))));
}.

Definition get_observations_agents (cfg : Config) (state : StateEnvGridworld)
    (agents_reproduced : option (list bool)) : Observations :=
  let a := agents state in
  let has name := bool_decide (name ∈ list_observations cfg) in
  let map_vis_field :=
    (λ i, channel (map state) i) <$> list_indexes_channels_visual_field cfg in
  let map_vis_field := set_channel map_vis_field idx_agent_ages (is_infant_map cfg a) in
  {| obs_energy :=
       if has "energy"
       then Some ((λ e, e / energy_max cfg)%Q <$> energy_agents a) else None;
     obs_age :=
       if has "age"
       then Some ((λ x, inject_Z x / inject_Z (age_max cfg))%Q <$> age_agents a)
       else None;
     obs_just_reproduced :=
       if has "just_reproduced"
       then Some (match agents_reproduced with
                  | Some r => b2q <$> r
                  | None => (λ _, 0%Q) <$> energy_agents a
                  end)
       else None;
     obs_visual_field :=
       if has "visual_field"
       then Some (zip_with (λ (po : Pos * Z) i,
                              get_single_agent_visual_field cfg map_vis_field a po.1 po.2 i)
                    (zip (positions_agents a) (orientation_agents a))
                    (seq 0 (n_agents_max cfg)))
       else None |}.

(** ** The step *)

Record EcoInformation : Type := {
  are_newborns_agents : list bool;
  indexes_parents : list nat;
  are_just_dead_agents : list bool;
}.

Record StepResult : Type := {
  step_state : StateEnvGridworld;
  step_observations : Observations;
  step_eco_information : EcoInformation;
  step_done : bool;
}.

(** Part (1) of [step]: the actions, then the refresh of the occupancy
    channel. *)
Definition step_agents_interaction (cfg : Config) (state : StateEnvGridworld)
    (actions : list Z) (draws : Draws) : option StateEnvGridworld :=
  state_new ← step_action_agents cfg state actions draws;
  Some (update_agent_map state_new).

(** The scatter of a per-slot quantity of the existing agents, divided by
    the occupancy count floored to 1. *)
Definition map_mean_over_agents (state : StateEnvGridworld) (values : list Q) : grid Q :=
  let norm_factor : grid Q := λ r c, Qmax 1 (channel (map state) idx_agents r c) in
  let a := agents state in
  let summed :=
    scatter_add grid_zeros (positions_agents a)
      (zip_with (λ v (e : bool), v * b2q e)%Q values (are_existing_agents a)) in
  λ r c, (summed r c / norm_factor r c)%Q.

Definition step (cfg : Config) (state : StateEnvGridworld) (actions : list Z)
    (draws : Draws) : option StepResult :=
  let t := timestep state in
  (* (1) agents interaction with the environment *)
  state_new ← step_agents_interaction cfg state actions draws;
  (* (2) agents reproduce *)
  r ← step_reproduce_agents cfg state_new actions (noise_appearances draws);
  let agents_reprod := repr_agents_reprod r in
  let state_new := update_agent_map (repr_state r) in
  (* (3) the age and appearance channels, read off the state at tick start *)
  let a := agents state in
  let map_ages_new := map_mean_over_agents state (inject_Z <$> age_agents a) in
  let map_appearances_new :=
    (λ d, map_mean_over_agents state ((λ app, gather app d) <$> appearance_agents a))
      <$> seq 0 (dim_appearance cfg) in
  let map_new := set_channel (map state_new) (idx_agents + 1) map_ages_new in
  let map_new := take (idx_agents + 2) map_new ++ map_appearances_new in
  let agents_new :=
    {| positions_agents := positions_agents (agents state_new);
       orientation_agents := orientation_agents (agents state_new);
       are_existing_agents := are_existing_agents (agents state_new);
       energy_agents := energy_agents (agents state_new);
       age_agents := (λ x, x + 1) <$> age_agents (agents state_new);
       appearance_agents := appearance_agents (agents state_new);
       parent_agents := parent_agents (agents state_new) |} in
  let state_new :=
    {| timestep := t + 1;
       map := map_new;
       latitude_sun := latitude_sun state_new;
       agents := agents_new;
       video := video state_new |} in
  let observations_agents := get_observations_agents cfg state_new (Some agents_reprod) in
  (* (4) ecological information *)
  let are_just_dead_agents :=
    zip_with (λ (e : bool) (x : bool * Z), e && (negb x.1 || bool_decide (x.2 < x.2)))
      (are_existing_agents a)
      (zip (are_existing_agents (agents state_new)) (age_agents (agents state_new))) in
  let eco_information :=
    {| are_newborns_agents := repr_are_newborns_agents r;
       indexes_parents := repr_agents_parents r;
       are_just_dead_agents := are_just_dead_agents |} in
  (* (5) done *)
  let done :=
    if is_terminal cfg then negb (existsb id (are_existing_agents (agents state_new)))
    else false in
  (* (7) video; [%] by zero raises *)
  guard (n_steps_per_video cfg ≠ 0);;
  let n := Z.to_nat (n_steps_per_video cfg) in
  let video_reset :=
    if bool_decide (t mod n_steps_per_video cfg = 0)
    then replicate n zero_frame
    else video state_new in
  let rgb_map := get_RGB_map cfg (map state_new) in
  (* the frame is set in [state_new.video], not in the buffer just reset *)
  let video_new := <[Z.to_nat (t mod n_steps_per_video cfg) := rgb_map]> (video state_new) in
  let state_new :=
    {| timestep := timestep state_new;
       map := map state_new;
       latitude_sun := latitude_sun state_new;
       agents := agents state_new;
       video := video_new |} in
  Some {| step_state := state_new;
          step_observations := observations_agents;
          step_eco_information := eco_information;
          step_done := done |}.

(** ** Reset *)

(** The random draws of [reset]. [jax.random.choice(key, a, shape=(n,),
    replace=False)] raises when [n > a] and otherwise returns the first [n]
    entries of a random permutation of [0 .. a-1]; the permutation is the
    input [cells_permutation]. *)
Record ResetDraws : Type := {
  plants_initial : grid Q;
  cells_permutation : list Z;
  orientations_initial : list Z;
}.

Definition random_choice_no_replace (permutation : list Z) (a : Z) (n : nat)
    : option (list Z) :=
  guard (Z.of_nat n ≤ a);; Some (take n permutation).

Definition reset (cfg : Config) (draws : ResetDraws)
    : option (StateEnvGridworld * Observations * EcoInformation * bool) :=
  let H := height cfg in
  let W := width cfg in
  let N := n_agents_max cfg in
  let map := replicate (4 + dim_appearance cfg) grid_zeros in
  let '(map, latitude) :=
    match method_sun cfg with
    | SunNone => (map, None)
    | _ =>
        let latitude := H / 2 in
        let effect_map : grid Q := λ r _,
          let distance_from_sun := Z.min (Z.abs (r - latitude)) (H - Z.abs (r - latitude)) in
          clip (1 - inject_Z distance_from_sun / radius_sun_effect cfg)%Q 0 1 in
        (set_channel map idx_sun effect_map, Some latitude)
    end in
  let map := set_channel map idx_plants (plants_initial draws) in
  let are_existing_agents := (λ i, bool_decide (i < n_agents_initial cfg)%nat) <$> seq 0 N in
  pos_indices ← random_choice_no_replace (cells_permutation draws) (H * W) N;
  let positions_agents := (λ i, (i / W, i mod W)) <$> pos_indices in
  let map :=
    set_channel map idx_agents
      (scatter_add (channel map idx_agents) positions_agents (b2q <$> are_existing_agents)) in
  let agents :=
    {| positions_agents := positions_agents;
       orientation_agents := take N (orientations_initial draws);
       are_existing_agents := are_existing_agents;
       energy_agents := replicate N (energy_initial cfg);
       age_agents := replicate N 0;
       appearance_agents :=
         (λ e : bool, replicate (dim_appearance cfg) (b2q e)) <$> are_existing_agents;
       parent_agents := replicate N (fill_value cfg) |} in
  let eco_information :=
    {| are_newborns_agents := replicate N false;
       indexes_parents := replicate N (fill_value cfg);
       are_just_dead_agents := replicate N false |} in
  let state :=
    {| timestep := 0;
       map := map;
       latitude_sun := latitude;
       agents := agents;
       video := replicate (Z.to_nat (n_steps_per_video cfg)) zero_frame |} in
  let observations_agents := get_observations_agents cfg state None in
  (* [observations_agents['visual_field']] is read for a log line *)
  guard (is_Some (obs_visual_field observations_agents));;
  Some (state, observations_agents, eco_information, false).

(** ** Predicates the statements are written with *)

(** The number of slots flagged in [es] that stand on cell [p]. *)
Definition count_at (ps : list Pos) (es : list bool) (p : Pos) : nat :=
  count_true (zip_with (λ (e : bool) q, e && bool_decide (q = p)) es ps).

(** The per-cell count of existing agents. *)
Definition occupancy (a : AgentGridworld) (p : Pos) : nat :=
  count_at (positions_agents a) (are_existing_agents a) p.

Definition in_grid (cfg : Config) (p : Pos) : Prop :=
  0 ≤ p.1 < height cfg ∧ 0 ≤ p.2 < width cfg.

(** The occupancy channel of a state agrees with the agents it holds. *)
Definition occupancy_channel_ok (cfg : Config) (state : StateEnvGridworld) : Prop :=
  ∀ p, in_grid cfg p →
    (grid_at (channel (map state) idx_agents) p
     == inject_Z (Z.of_nat (occupancy (agents state) p)))%Q.

(** No two slots flagged in [es] stand on the same cell. *)
Definition single_occupancy (ps : list Pos) (es : list bool) : Prop :=
  ∀ i j p, i ≠ j →
    es !! i = Some true → es !! j = Some true →
    ps !! i = Some p → ps !! j = Some p → False.

(** The lengths the per-slot arrays of a state have. *)
Definition wf_agents (cfg : Config) (a : AgentGridworld) : Prop :=
  length (positions_agents a) = n_agents_max cfg ∧
  length (orientation_agents a) = n_agents_max cfg ∧
  length (are_existing_agents a) = n_agents_max cfg ∧
  length (energy_agents a) = n_agents_max cfg ∧
  length (age_agents a) = n_agents_max cfg ∧
  length (appearance_agents a) = n_agents_max cfg ∧
  length (parent_agents a) = n_agents_max cfg.

(** What allows slot [i] to step onto its facing cell [f]: it chose
    "forward", [f] is empty in the occupancy channel of the state, and no
    slot of lower index faces [f]. *)
Definition may_move (cfg : Config) (state : StateEnvGridworld) (actions : list Z)
    (forward : Z) (i : nat) (f : Pos) : Prop :=
  actions !! i = Some forward ∧
  (grid_at (channel (map state) idx_agents) f == 0)%Q ∧
  ∀ j f', (j < i)%nat → facing_positions_of cfg (agents state) !! j = Some f' → f' ≠ f.

(** The energies the action phase computes before the clamp. *)
Definition energy_before_clamp (cfg : Config) (state : StateEnvGridworld)
    (actions : list Z) (draws : Draws) (positions_agents_new : list Pos)
    (eat idle : Z) (are_agents_transferring : option (list bool)) : list Q :=
  let a := agents state in
  let are_agents_eating := eating_agents cfg (uniform_action draws) a actions eat in
  let energy_agents_new :=
    zip_with Qplus (energy_agents a)
      (food_energy_bonus cfg (channel (map state) idx_plants) positions_agents_new
         are_agents_eating (age_agents a)) in
  let energy_agents_new :=
    match are_agents_transferring with
    | Some tr => zip_with Qplus energy_agents_new (transfer_delta_energy_sum cfg a tr)
    | None => energy_agents_new
    end in
  energy_after_costs cfg a actions energy_agents_new idle are_agents_transferring.

Definition move_func (cfg : Config) :=
  if allow_multiple_agents_per_tile cfg
  then move_agents_allow_multiple_occupancy
  else move_agents_enforce_single_occupancy.

(** ** Concrete inputs *)

Definition example_config (n : nat) (h w : Z) (multi : bool) (acts : list string)
    (thr req cost : Q) : Config :=
  {| n_agents_max := n;
     n_agents_initial := n;
     width := w;
     height := h;
     is_terminal := false;
     allow_multiple_agents_per_tile := multi;
     dim_appearance := 1;
     list_actions := acts;
     list_observations := ["visual_field"; "energy"; "age"];
     list_indexes_channels_visual_field := [0; 1; 2]%nat;
     n_steps_per_video := 2;
     color_background := (1, 1, 1)%Q;
     channel_colors := [(1%nat, (0, 1, 0)%Q); (2%nat, (1, 0, 0)%Q)];
     period_sun := 10;
     method_sun := SunLinear;
     radius_sun_effect := 2;
     vision_range_agent := 1;
     age_max := 100;
     energy_max := 100;
     energy_initial := 10;
     energy_loss_idle := 1;
     energy_loss_action := 2;
     energy_food := 5;
     energy_thr_death := thr;
     energy_req_reprod := req;
     energy_cost_reprod := cost;
     energy_transfer_loss := 5;
     energy_transfer_gain := 5;
     infancy_duration := 3;
     infant_move_prob := 1 # 2;
     infant_eat_prob := 1 # 2;
     infant_food_energy_mult := 1 # 2 |}.

Definition example_actions : list string :=
  ["forward"; "left"; "right"; "eat"; "transfer"; "idle"].

Definition example_draws : Draws :=
  {| uniform_action := [1 # 4; 3 # 4; 1 # 4]%Q;
     sun_randint := 0;
     sun_brownian_step := 0;
     sun_sine := 0;
     plants_sample := grid_zeros;
     noise_appearances := [[0]; [0]; [0]]%Q |}.

Definition example_state (a : AgentGridworld) (t : Z) : StateEnvGridworld :=
  update_agent_map
    {| timestep := t;
       map := replicate 5 grid_zeros;
       latitude_sun := Some 1;
       agents := a;
       video := replicate 2 zero_frame |}.

(** Two adults that both face the empty cell (1, 1), and a ghost. *)
Definition agents_facing_same_cell : AgentGridworld :=
  {| positions_agents := [(0, 1); (1, 0); (2, 2)];
     orientation_agents := [0; 3; 0];
     are_existing_agents := [true; true; false];
     energy_agents := [10; 10; 0]%Q;
     age_agents := [5; 5; 0];
     appearance_agents := [[1]; [1]; [0]]%Q;
     parent_agents := [3; 3; 3]%nat |}.

Definition cfg_single : Config := example_config 3 3 3 false example_actions 0 50 20.


(** Slot 0 holds exactly the death threshold plus the idle cost; slot 1
    faces it from the cell below. *)
Definition agents_with_donor : AgentGridworld :=
  {| positions_agents := [(0, 0); (1, 0); (2, 2)];
     orientation_agents := [0; 2; 0];
     are_existing_agents := [true; true; false];
     energy_agents := [1; 10; 0]%Q;
     age_agents := [5; 5; 0];
     appearance_agents := [[1]; [1]; [0]]%Q;
     parent_agents := [3; 3; 3]%nat |}.

(** The same slot 0 with nobody facing it. *)
Definition agents_idle_at_threshold : AgentGridworld :=
  {| positions_agents := [(0, 0); (1, 1); (2, 2)];
     orientation_agents := [0; 2; 0];
     are_existing_agents := [true; true; false];
     energy_agents := [1; 10; 0]%Q;
     age_agents := [5; 5; 0];
     appearance_agents := [[1]; [1]; [0]]%Q;
     parent_agents := [3; 3; 3]%nat |}.



(** Every slot is taken; slot 0 is about to starve and slot 1 can afford
    a child. *)
Definition agents_full_house : AgentGridworld :=
  {| positions_agents := [(0, 0); (1, 1); (2, 2)];
     orientation_agents := [0; 0; 0];
     are_existing_agents := [true; true; true];
     energy_agents := [1; 60; 10]%Q;
     age_agents := [5; 5; 5];
     appearance_agents := [[1]; [1]; [1]]%Q;
     parent_agents := [3; 3; 3]%nat |}.

(** Slot 0 can afford a child and faces the cell slot 1 stands on; slot 1
    is about to step away. *)
Definition agents_parent_behind_mover : AgentGridworld :=
  {| positions_agents := [(0, 0); (1, 0); (2, 2)];
     orientation_agents := [0; 0; 0];
     are_existing_agents := [true; true; false];
     energy_agents := [60; 10; 0]%Q;
     age_agents := [5; 5; 0];
     appearance_agents := [[1]; [1]; [0]]%Q;
     parent_agents := [3; 3; 3]%nat |}.

(** A parent whose energy is just above the reproduction threshold. *)
Definition agents_poor_parent : AgentGridworld :=
  {| positions_agents := [(0, 0); (1, 1); (2, 2)];
     orientation_agents := [0; 0; 0];
     are_existing_agents := [true; false; false];
     energy_agents := [8; 0; 0]%Q;
     age_agents := [5; 0; 0];
     appearance_agents := [[1]; [0]; [0]]%Q;
     parent_agents := [3; 3; 3]%nat |}.

(** A configuration whose reproduction cost exceeds the reproduction
    threshold. *)
Definition cfg_costly : Config := example_config 3 3 3 false example_actions 0 5 10.

(** The same configuration with several agents allowed per tile. *)
Definition cfg_multi : Config := example_config 3 3 3 true example_actions 0 50 20.

(** * Properties *)

(** ** Stable index sorts *)

Lemma StronglySorted_lookup_lt {A} (R : relation A) (l : list A) (a b : nat) x y :
  StronglySorted R l → l !! a = Some x → l !! b = Some y → (a < b)%nat → R x y.
Proof.
  intros Hs. revert a b. induction Hs as [|z l Hs IH Hall]; intros a b Ha Hb Hab.
  - done.
  - destruct b as [|b]; [lia|]. destruct a as [|a]; simpl in *.
    + simplify_eq. rewrite Forall_forall in Hall. apply Hall.
      eapply list_elem_of_lookup_2; eauto.
    + eapply IH; eauto. lia.
Qed.

Section stable_argsort_props.
Context {K : Type} (le : relation K) `{!∀ x y, Decision (le x y)}.
Context `{!Total le} `{!Transitive le}.

#[local] Instance keyed_le_total : Total (keyed_le le).
Proof.
  intros [k1 i1] [k2 i2]. unfold keyed_le; simpl.
  destruct (decide (le k1 k2)) as [H12|H12], (decide (le k2 k1)) as [H21|H21].
  - destruct (decide (i1 ≤ i2)%nat); [left|right]; split; auto; intros; lia.
  - left; split; [done|]. intros; done.
  - right; split; [done|]. intros; done.
  - destruct (total le k1 k2); done.
Qed.

#[local] Instance keyed_le_trans : Transitive (keyed_le le).
Proof.
  intros x y z [Hxy Hxy'] [Hyz Hyz']. split; [by etrans|].
  intros Hzx.
  assert (le y.1 x.1) by (by etrans).
  assert (le z.1 y.1) by (by etrans).
  specialize (Hxy' ltac:(done)). specialize (Hyz' ltac:(done)). lia.
Qed.

Lemma sort_keyed_Permutation (keys : list K) :
  sort_keyed le keys ≡ₚ zip keys (seq 0 (length keys)).
Proof. apply merge_sort_Permutation. Qed.

Lemma sort_keyed_StronglySorted (keys : list K) :
  StronglySorted (keyed_le le) (sort_keyed le keys).
Proof. apply Sorted_StronglySorted; [apply _|]. apply Sorted_merge_sort. apply _. Qed.

Lemma stable_argsort_Permutation (keys : list K) :
  stable_argsort le keys ≡ₚ seq 0 (length keys).
Proof.
  unfold stable_argsort. rewrite sort_keyed_Permutation.
  rewrite snd_zip; [done|]. rewrite length_seq. done.
Qed.

Lemma length_sort_keyed (keys : list K) : length (sort_keyed le keys) = length keys.
Proof.
  rewrite sort_keyed_Permutation, length_zip, length_seq. lia.
Qed.

Lemma length_stable_argsort (keys : list K) :
  length (stable_argsort le keys) = length keys.
Proof. unfold stable_argsort. by rewrite length_fmap, length_sort_keyed. Qed.

Lemma elem_of_sort_keyed (keys : list K) k i :
  (k, i) ∈ sort_keyed le keys ↔ keys !! i = Some k.
Proof.
  rewrite sort_keyed_Permutation. rewrite elem_of_lookup_zip_with.
  split.
  - intros (j & x & y & Heq & Hx & Hy). simplify_eq.
    apply lookup_seq in Hy as [-> _]. done.
  - intros Hk. exists i, k, i. split_and!; [done..|].
    apply lookup_seq. split; [done|]. by eapply lookup_lt_Some.
Qed.

Lemma sort_keyed_lookup (keys : list K) a k i :
  sort_keyed le keys !! a = Some (k, i) → keys !! i = Some k.
Proof. intros Hl. apply elem_of_sort_keyed. by eapply list_elem_of_lookup_2. Qed.
End stable_argsort_props.

#[local] Instance pair_le_total : Total pair_le.
Proof. intros [a b] [c d]. unfold pair_le; simpl. lia. Qed.

#[local] Instance pair_le_trans : Transitive pair_le.
Proof. intros [a b] [c d] [e f]. unfold pair_le; simpl. lia. Qed.

#[local] Instance nat_le_total' : Total Nat.le.
Proof. intros a b. unfold Nat.le. lia. Qed.

Lemma NoDup_lookup_inj {A} (l : list A) i j x :
  NoDup l → l !! i = Some x → l !! j = Some x → i = j.
Proof. intros. by eapply NoDup_lookup. Qed.

(** [argsort] inverts a permutation of [0 .. n-1]. *)
Lemma argsort_inverse (indices : list nat) (k i : nat) :
  indices ≡ₚ seq 0 (length indices) →
  indices !! k = Some i →
  argsort indices !! i = Some k.
Proof.
  intros Hperm Hk. unfold argsort, stable_argsort.
  set (S' := sort_keyed Nat.le indices).
  assert (Hfst : fst <$> S' = seq 0 (length indices)).
  { apply (StronglySorted_unique Nat.le).
    - eapply (StronglySorted_fmap fst (keyed_le Nat.le) Nat.le);
        [|apply sort_keyed_StronglySorted; apply _].
      intros x y [H _]. done.
    - clear. generalize 0%nat. induction (length indices) as [|n IH]; intros s; simpl.
      + constructor.
      + constructor; [apply IH|]. apply Forall_forall. intros x Hx.
        apply elem_of_seq in Hx. unfold Nat.le. lia.
    - unfold S'. rewrite sort_keyed_Permutation, fst_zip; [done|].
      rewrite length_seq. done. }
  assert (Hi : (i < length indices)%nat).
  { assert (i ∈ seq 0 (length indices)) as Hin.
    { rewrite <- Hperm. by eapply list_elem_of_lookup_2. }
    apply elem_of_seq in Hin. lia. }
  assert (is_Some (S' !! i)) as [[i' k'] HS].
  { apply lookup_lt_is_Some. unfold S'. by rewrite length_sort_keyed. }
  assert (i' = i) as ->.
  { assert ((fst <$> S') !! i = Some i') as H by (by rewrite list_lookup_fmap, HS).
    rewrite Hfst in H. apply lookup_seq in H. lia. }
  rewrite list_lookup_fmap, HS. simpl. f_equal.
  apply sort_keyed_lookup in HS.
  eapply NoDup_lookup; [|exact HS|exact Hk].
  rewrite Hperm. apply NoDup_seq.
Qed.

(** ** [keep_first_per_tile] *)

Lemma gather_lookup {A} `{Inhabited A} (l : list A) i x :
  l !! i = Some x → gather l i = x.
Proof.
  intros Hl. unfold gather. pose proof (lookup_lt_Some _ _ _ Hl).
  rewrite Nat.min_l by lia. by apply list_lookup_total_correct.
Qed.

Lemma lookup_arange n i : (i < n)%nat → arange n !! i = Some (Z.of_nat i).
Proof.
  intros. unfold arange. rewrite list_lookup_fmap, lookup_seq_lt by done. done.
Qed.

Lemma length_arange n : length (arange n) = n.
Proof. unfold arange. by rewrite length_fmap, length_seq. Qed.

Section keep_first.
Context (n : nat) (tiles : list Z) (flags : list bool).
Context (Htiles : length tiles = n) (Hflags : length flags = n).

Let keys := zip tiles (arange n).
Let S := sort_keyed pair_le keys.
Let indices := lexsort (arange n) tiles.

Local Lemma length_keys : length keys = n.
Proof. unfold keys. rewrite length_zip, length_arange. lia. Qed.

Local Lemma indices_Permutation : indices ≡ₚ seq 0 (length indices).
Proof.
  unfold indices, lexsort. rewrite length_stable_argsort.
  apply stable_argsort_Permutation.
Qed.

Local Lemma length_indices : length indices = n.
Proof. unfold indices, lexsort. rewrite length_stable_argsort. apply length_keys. Qed.

Local Lemma S_lookup a k i :
  S !! a = Some (k, i) → tiles !! i = Some k.1 ∧ k.2 = Z.of_nat i.
Proof.
  intros Ha. apply sort_keyed_lookup in Ha. unfold keys in Ha.
  apply lookup_zip_with_Some in Ha as (t & z & -> & Ht & Hz).
  split; [done|]. simpl.
  rewrite lookup_arange in Hz; [by simplify_eq|].
  apply lookup_lt_Some in Ht. lia.
Qed.

Local Lemma indices_lookup a k i : S !! a = Some (k, i) → indices !! a = Some i.
Proof.
  intros Ha. change indices with (snd <$> S). by rewrite list_lookup_fmap, Ha.
Qed.

Local Lemma S_sorted a b ka ia kb ib :
  S !! a = Some (ka, ia) → S !! b = Some (kb, ib) → (a < b)%nat →
  ka.1 < kb.1 ∨ (ka.1 = kb.1 ∧ (ia < ib)%nat).
Proof.
  intros Ha Hb Hab.
  pose proof (StronglySorted_lookup_lt _ _ _ _ _ _
                (sort_keyed_StronglySorted pair_le keys) Ha Hb Hab) as [Hle _].
  apply S_lookup in Ha as Ha'. apply S_lookup in Hb as Hb'.
  destruct Ha' as [_ Ha'], Hb' as [_ Hb'].
  unfold pair_le in Hle. simpl in Hle.
  destruct Hle as [|[? ?]]; [by left|]. right. split; [done|].
  assert (ia ≠ ib); [|lia].
  intros ->.
  pose proof (indices_lookup _ _ _ Ha) as Hia.
  pose proof (indices_lookup _ _ _ Hb) as Hib.
  assert (a = b); [|lia].
  eapply NoDup_lookup; [|exact Hia|exact Hib].
  rewrite indices_Permutation. apply NoDup_seq.
Qed.

Local Lemma S_position i t :
  tiles !! i = Some t → ∃ a, S !! a = Some ((t, Z.of_nat i), i).
Proof.
  intros Ht. apply list_elem_of_lookup_1. apply elem_of_sort_keyed.
  unfold keys. apply lookup_zip_with_Some. exists t, (Z.of_nat i).
  split_and!; [done..|]. apply lookup_arange. apply lookup_lt_Some in Ht. lia.
Qed.

Lemma length_keep_first_per_tile : length (keep_first_per_tile n tiles flags) = n.
Proof.
  unfold keep_first_per_tile. rewrite length_fmap. unfold argsort.
  rewrite length_stable_argsort. apply length_indices.
Qed.

(** A slot keeps its flag exactly when no slot of lower index faces the
    same tile. *)
Lemma keep_first_per_tile_lookup i b t :
  flags !! i = Some b → tiles !! i = Some t →
  keep_first_per_tile n tiles flags !! i
  = Some (b && bool_decide (t ∉ take i tiles)).
Proof.
  intros Hb Ht.
  destruct (S_position i t Ht) as [k Hk].
  pose proof (indices_lookup _ _ _ Hk) as Hik.
  pose proof (argsort_inverse indices k i indices_Permutation Hik) as Hinv.
  assert (Hkn : (k < n)%nat).
  { rewrite <- length_indices. by eapply lookup_lt_Some. }
  unfold keep_first_per_tile. fold indices.
  set (sorted_flags := gather flags <$> indices).
  set (sorted_facing := gather tiles <$> indices).
  set (deduped := zip_with _ _ sorted_flags).
  rewrite list_lookup_fmap, Hinv. simpl. f_equal.
  assert (Hsf : ∀ a ka ia, S !! a = Some (ka, ia) → sorted_facing !! a = Some ka.1).
  { intros a ka ia Ha. unfold sorted_facing.
    rewrite list_lookup_fmap, (indices_lookup _ _ _ Ha). simpl.
    apply S_lookup in Ha as [Ha _]. f_equal. by apply gather_lookup. }
  assert (Hflag : sorted_flags !! k = Some b).
  { unfold sorted_flags. rewrite list_lookup_fmap, Hik. simpl. f_equal.
    by apply gather_lookup. }
  assert (Hlsf : length sorted_facing = n).
  { unfold sorted_facing. rewrite length_fmap. apply length_indices. }
  (* an earlier slot on the same tile sits at an earlier sorted position *)
  assert (Hearlier : ∀ j, (j < i)%nat → tiles !! j = Some t →
            ∃ m, (m < k)%nat ∧ S !! m = Some ((t, Z.of_nat j), j)).
  { intros j Hji Hj. destruct (S_position j t Hj) as [m Hm].
    exists m. split; [|done].
    destruct (decide (m < k)%nat) as [|Hmk]; [done|].
    destruct (decide (m = k)) as [->|]; [simplify_eq; lia|].
    pose proof (S_sorted _ _ _ _ _ _ Hk Hm ltac:(lia)) as Hs. simpl in Hs. lia. }
  apply gather_lookup. unfold deduped. rewrite lookup_zip_with.
  destruct k as [|k'].
  - (* first in sorted order *)
    rewrite Hflag. simpl.
    f_equal. rewrite bool_decide_true; [by rewrite andb_true_r|].
    intros (j & Hj)%list_elem_of_lookup_1.
    apply lookup_take_Some in Hj as [Hj Hji].
    destruct (Hearlier j Hji Hj) as (m & ? & _). lia.
  - assert (is_Some (S !! k')) as [[kp ip] Hp].
    { apply lookup_lt_is_Some. unfold S. rewrite length_sort_keyed, length_keys. lia. }
    pose proof (Hsf _ _ _ Hp) as Hp'. pose proof (Hsf _ _ _ Hk) as Hk'. simpl in Hk'.
    rewrite Hflag.
    change ((false :: ?X) !! Datatypes.S k') with (X !! k').
    rewrite lookup_zip_with, lookup_drop. simpl.
    rewrite Hk'. simpl. rewrite lookup_take_lt by lia. rewrite Hp'. simpl.
    f_equal.
    pose proof (S_sorted _ _ _ _ _ _ Hp Hk ltac:(lia)) as Hs. simpl in Hs.
    destruct (Z.eqb_spec t kp.1) as [->|Hne].
    + rewrite bool_decide_false; [by rewrite andb_false_r|].
      intros Hnot. apply Hnot.
      apply S_lookup in Hp as [Hp _].
      apply list_elem_of_lookup_2 with ip. apply lookup_take_Some. split; [done|]. lia.
    + rewrite bool_decide_true; [by rewrite andb_true_r|].
      intros (j & Hj)%list_elem_of_lookup_1.
      apply lookup_take_Some in Hj as [Hj Hji].
      destruct (Hearlier j Hji Hj) as (m & Hmk & Hm).
      destruct (decide (m = k')) as [->|].
      * simplify_eq.
      * pose proof (S_sorted _ _ _ _ _ _ Hm Hp ltac:(lia)) as Hs2. simpl in Hs2. lia.
Qed.
End keep_first.

(** ** Counting the agents on a cell *)

Lemma count_true_cons b l :
  count_true (b :: l) = ((if b then 1 else 0) + count_true l)%nat.
Proof.
  unfold count_true. rewrite filter_cons.
  destruct b; destruct (decide _); simpl; congruence.
Qed.

Lemma count_true_nil : count_true [] = 0%nat.
Proof. done. Qed.

Lemma count_true_lookup l i : l !! i = Some true → (0 < count_true l)%nat.
Proof.
  revert i. induction l as [|b l IH]; intros i Hi; [done|].
  rewrite count_true_cons. destruct i as [|i]; simpl in Hi.
  - simplify_eq. lia.
  - specialize (IH _ Hi). lia.
Qed.

Lemma count_true_zero l : count_true l = 0%nat → ∀ i, l !! i ≠ Some true.
Proof. intros H0 i Hi. apply count_true_lookup in Hi. lia. Qed.

Lemma count_at_pos ps es p j :
  es !! j = Some true → ps !! j = Some p → (0 < count_at ps es p)%nat.
Proof.
  intros He Hp. unfold count_at. apply count_true_lookup with j.
  rewrite lookup_zip_with, He. simpl. rewrite Hp. simpl.
  by rewrite bool_decide_true.
Qed.

Lemma scatter_add_count ps es g r c :
  (scatter_add g ps (b2q <$> es) r c
   == g r c + inject_Z (Z.of_nat (count_at ps es (r, c))))%Q.
Proof.
  unfold scatter_add, count_at. revert es g.
  induction ps as [|p ps IH]; intros es g.
  - destruct es; simpl; unfold count_true; simpl; ring.
  - destruct es as [|e es]; [simpl; unfold count_true; simpl; ring|].
    simpl. rewrite IH. rewrite count_true_cons. unfold grid_add. simpl.
    rewrite Nat2Z.inj_add, inject_Z_plus.
    destruct e; simpl; case_bool_decide; simpl; ring.
Qed.

Lemma update_agent_map_channel state :
  channel (map (update_agent_map state)) idx_agents
  = if decide (idx_agents < length (map state))%nat
    then scatter_add grid_zeros (positions_agents (agents state))
           (b2q <$> are_existing_agents (agents state))
    else grid_zeros.
Proof.
  unfold update_agent_map, channel, set_channel. simpl.
  case_decide.
  - apply list_lookup_total_correct. by rewrite list_lookup_insert_eq.
  - rewrite list_insert_ge by lia.
    rewrite list_lookup_total_alt, lookup_ge_None_2 by lia. done.
Qed.

(** ** Facing cells *)

Lemma get_facing_pos_in_grid cfg p o :
  0 < height cfg → 0 < width cfg → in_grid cfg (get_facing_pos cfg p o).
Proof.
  intros. unfold in_grid, get_facing_pos. simpl.
  split; apply Z.mod_pos_bound; lia.
Qed.

Lemma facing_positions_lookup cfg a i f :
  facing_positions_of cfg a !! i = Some f ↔
  ∃ p o, positions_agents a !! i = Some p ∧ orientation_agents a !! i = Some o ∧
         f = get_facing_pos cfg p o.
Proof.
  unfold facing_positions_of. rewrite lookup_zip_with_Some.
  split; intros (p & o & H1 & H2 & H3); exists p, o; auto.
Qed.

Lemma length_facing_positions cfg a :
  length (facing_positions_of cfg a)
  = Nat.min (length (positions_agents a)) (length (orientation_agents a)).
Proof. unfold facing_positions_of. by rewrite length_zip_with. Qed.

Lemma facing_tiles_inj cfg p q :
  in_grid cfg p → in_grid cfg q →
  p.1 * width cfg + p.2 = q.1 * width cfg + q.2 → p = q.
Proof.
  intros [Hp1 Hp2] [Hq1 Hq2] Heq. destruct p as [a b], q as [c d]; simpl in *.
  assert (a = c) by nia. subst. f_equal. lia.
Qed.

(** A slot ends on its facing cell only if it was allowed to move. *)
Lemma compute_new_positions_lookup cfg key curr facing is_moving ages i q :
  compute_new_positions cfg key curr facing is_moving ages !! i = Some q →
  ∃ p f, curr !! i = Some p ∧ facing !! i = Some f ∧
         (q = p ∨ (q = f ∧ is_moving !! i = Some true)).
Proof.
  unfold compute_new_positions. intros Hq.
  apply lookup_zip_with_Some in Hq as (m & [f p] & -> & Hm & Hfp).
  apply lookup_zip_with_Some in Hfp as (f' & p' & [= <- <-] & Hf & Hp).
  exists p, f. split_and!; [done..|].
  apply lookup_zip_with_Some in Hm as (m1 & m2 & -> & Hm1 & _).
  destruct m1, m2; simpl; auto.
Qed.

(** ** Movement in single-occupancy mode *)

Lemma move_agents_enforce_single_occupancy_spec cfg key state actions np no fp :
  0 < height cfg → 0 < width cfg →
  wf_agents cfg (agents state) →
  length actions = n_agents_max cfg →
  move_agents_enforce_single_occupancy cfg key state actions = Some (np, no, fp) →
  fp = facing_positions_of cfg (agents state) ∧
  ∃ forward, action_to_idx cfg "forward" = Some forward ∧
  ∀ i q, np !! i = Some q →
    ∃ p f, positions_agents (agents state) !! i = Some p ∧ fp !! i = Some f ∧
           (q = p ∨ (q = f ∧ may_move cfg state actions forward i f)).
Proof.
  intros HH HW (Hlp & Hlo & _) Hla Hmove.
  unfold move_agents_enforce_single_occupancy in Hmove.
  destruct (action_to_idx cfg "forward") as [forward|] eqn:Hfwd; [|done].
  simpl in Hmove.
  destruct (compute_new_orientations _ _ _) as [no'|]; [|done].
  simpl in Hmove. injection Hmove as <- <- <-.
  split; [done|]. exists forward. split; [done|].
  intros i q Hq.
  apply compute_new_positions_lookup in Hq as (p & f & Hp & Hf & Hcase).
  exists p, f. split_and!; [done..|].
  destruct Hcase as [->|[-> Hmv]]; [by left|right]. split; [done|].
  set (tiles := facing_tiles_of cfg (facing_positions_of cfg (agents state))) in *.
  set (pre := zip_with _ _ (facing_positions_of cfg (agents state))) in *.
  assert (Hlf : length (facing_positions_of cfg (agents state)) = n_agents_max cfg).
  { rewrite length_facing_positions. lia. }
  assert (Hlt : length tiles = n_agents_max cfg).
  { unfold tiles, facing_tiles_of. by rewrite length_fmap. }
  assert (Hlpre : length pre = n_agents_max cfg).
  { unfold pre. rewrite length_zip_with, length_fmap. lia. }
  assert (Hi : (i < n_agents_max cfg)%nat).
  { rewrite <- Hlp. by eapply lookup_lt_Some. }
  assert (tiles !! i = Some (f.1 * width cfg + f.2)) as Ht.
  { unfold tiles, facing_tiles_of. by rewrite list_lookup_fmap, Hf. }
  assert (is_Some (pre !! i)) as [b Hb] by (apply lookup_lt_is_Some; lia).
  rewrite (keep_first_per_tile_lookup _ _ _ Hlt Hlpre _ _ _ Hb Ht) in Hmv.
  injection Hmv as Hmv. apply andb_true_iff in Hmv as [-> Hfirst].
  apply bool_decide_eq_true in Hfirst.
  unfold pre in Hb. apply lookup_zip_with_Some in Hb as (att & f2 & Hatt & Hatt' & Hf2).
  rewrite Hf in Hf2. injection Hf2 as <-.
  symmetry in Hatt. apply andb_true_iff in Hatt as [-> Hempty].
  rewrite list_lookup_fmap in Hatt'.
  destruct (actions !! i) as [act|] eqn:Hact; [|done]. simpl in Hatt'.
  injection Hatt' as Hatt'. apply bool_decide_eq_true in Hatt'. subst act.
  unfold may_move. split_and!; [done| by apply Qeq_bool_iff |].
  intros j f' Hji Hf' ->. apply Hfirst.
  apply list_elem_of_lookup_2 with j. apply lookup_take_Some. split; [|done].
  unfold tiles, facing_tiles_of. by rewrite list_lookup_fmap, Hf'.
Qed.

Lemma single_occupancy_move cfg state actions forward np :
  0 < height cfg → 0 < width cfg →
  single_occupancy (positions_agents (agents state)) (are_existing_agents (agents state)) →
  occupancy_channel_ok cfg state →
  (∀ i q, np !! i = Some q →
    ∃ p f, positions_agents (agents state) !! i = Some p ∧
           facing_positions_of cfg (agents state) !! i = Some f ∧
           (q = p ∨ (q = f ∧ may_move cfg state actions forward i f))) →
  single_occupancy np (are_existing_agents (agents state)).
Proof.
  intros HH HW Hsingle Hocc Hnp.
  assert (Hstay : ∀ i j f p,
    are_existing_agents (agents state) !! j = Some true →
    positions_agents (agents state) !! j = Some p →
    facing_positions_of cfg (agents state) !! i = Some f →
    may_move cfg state actions forward i f → f ≠ p).
  { intros i j f p Hej Hpj Hf (_ & Hempty & _) ->.
    assert (in_grid cfg p) as Hin.
    { apply facing_positions_lookup in Hf as (? & ? & _ & _ & ->).
      by apply get_facing_pos_in_grid. }
    specialize (Hocc p Hin). rewrite Hempty in Hocc.
    pose proof (count_at_pos _ _ _ _ Hej Hpj) as Hpos.
    assert (inject_Z (Z.of_nat (occupancy (agents state) p)) == inject_Z 0)%Q as Hz
      by (by rewrite <- Hocc).
    apply (proj1 (inject_Z_injective _ _)) in Hz. unfold occupancy in Hz. lia. }
  assert (Hmove2 : ∀ i j f,
    (i < j)%nat →
    facing_positions_of cfg (agents state) !! i = Some f →
    may_move cfg state actions forward j f → False).
  { intros i j f Hij Hfi (_ & _ & Hfirst). by eapply Hfirst. }
  intros i j q Hij Hei Hej Hqi Hqj.
  destruct (Hnp _ _ Hqi) as (pi & fi & Hpi & Hfi & Hci).
  destruct (Hnp _ _ Hqj) as (pj & fj & Hpj & Hfj & Hcj).
  destruct Hci as [->|[-> Hmi]], Hcj as [Heq|[Heq Hmj]].
  - subst. by eapply Hsingle.
  - subst. by eapply (Hstay j i).
  - subst. by eapply (Hstay i j).
  - subst. destruct (decide (i < j)%nat).
    + by eapply (Hmove2 i j).
    + eapply (Hmove2 j i); [lia|done..].
Qed.

(** ** The action phase, component by component *)

Lemma step_update_sun_agents cfg state draws state' :
  step_update_sun cfg state draws = Some state' →
  agents state' = agents state ∧ video state' = video state ∧
  timestep state' = timestep state ∧
  (∀ i, i ≠ idx_sun → map state' !! i = map state !! i) ∧
  length (map state') = length (map state).
Proof.
  unfold step_update_sun. intros Hs.
  destruct (method_sun cfg); try case_bool_decide;
    destruct (latitude_sun state) as [old|]; simpl in Hs; try done;
    injection Hs as <-; simpl; split_and!; try done;
    try (intros i Hi; unfold set_channel; by rewrite list_lookup_insert_ne);
    unfold set_channel; by rewrite length_insert.
Qed.

Lemma step_action_agents_inv cfg state actions draws state' :
  step_action_agents cfg state actions draws = Some state' →
  ∃ np no fp eat idle tr,
    move_func cfg cfg (uniform_action draws) state actions = Some (np, no, fp) ∧
    action_to_idx cfg "eat" = Some eat ∧
    action_to_idx cfg "idle" = Some idle ∧
    (if in_list_actions cfg "transfer"
     then ∃ transfer, action_to_idx cfg "transfer" = Some transfer ∧
                      tr = Some (transferring_agents (agents state) actions transfer)
     else tr = None) ∧
    let energy_agents_new :=
      (λ e, clip e 0 (energy_max cfg))
        <$> energy_before_clamp cfg state actions draws np eat idle tr in
    positions_agents (agents state') = np ∧
    orientation_agents (agents state') = no ∧
    energy_agents (agents state') = energy_agents_new ∧
    are_existing_agents (agents state') =
      zip_with (λ e (x : bool * Z),
                  Qltb (energy_thr_death cfg) e && x.1 && bool_decide (x.2 < age_max cfg))
        energy_agents_new
        (zip (are_existing_agents (agents state)) (age_agents (agents state))) ∧
    age_agents (agents state') = age_agents (agents state) ∧
    parent_agents (agents state') = parent_agents (agents state) ∧
    timestep state' = timestep state ∧
    video state' = video state ∧
    appearance_agents (agents state') =
      zip_with (λ app (e : bool), (λ x, x * b2q e)%Q <$> app)
        (appearance_agents (agents state)) (are_existing_agents (agents state')).
Proof.
  unfold step_action_agents. fold (move_func cfg). intros Hs.
  destruct (move_func cfg cfg _ state actions) as [[[np no] fp]|] eqn:Hmove; [|done].
  simpl in Hs.
  case_guard; [|done]. simpl in Hs.
  destruct (action_to_idx cfg "eat") as [eat|] eqn:Heat; [|done]. simpl in Hs.
  set (trdef := if in_list_actions cfg "transfer" then _ else _) in Hs.
  destruct trdef as [tr|] eqn:Htr; [|done]. simpl in Hs.
  destruct (action_to_idx cfg "idle") as [idle|] eqn:Hidle; [|done]. simpl in Hs.
  match type of Hs with
  | step_update_sun cfg ?s draws ≫= _ = _ =>
      destruct (step_update_sun cfg s draws) as [s1|] eqn:Hsun; [|done]
  end.
  simpl in Hs. injection Hs as <-.
  apply step_update_sun_agents in Hsun as (Hag & Hvid & Hts & _).
  exists np, no, fp, eat, idle, tr.
  do 3 (split; [done|]). split.
  - subst trdef. destruct (in_list_actions cfg "transfer"); [|by simplify_eq].
    destruct (action_to_idx cfg "transfer") as [transfer|]; [|done].
    simpl in Htr. exists transfer. split; [done|]. by simplify_eq.
  - simpl. rewrite Hag, Hts, Hvid. simpl. done.
Qed.

Lemma single_occupancy_mono ps es es' :
  (∀ i, es' !! i = Some true → es !! i = Some true) →
  single_occupancy ps es → single_occupancy ps es'.
Proof. intros Hsub Hs i j p Hij Hi Hj. eapply Hs; eauto. Qed.

(** The death test only ever clears existence flags. *)
Lemma existing_after_actions_sub cfg (energies : list Q) (es : list bool) (ages : list Z) i :
  zip_with (λ e (x : bool * Z),
              Qltb (energy_thr_death cfg) e && x.1 && bool_decide (x.2 < age_max cfg))
    energies (zip es ages) !! i = Some true →
  es !! i = Some true.
Proof.
  intros (e & [b a] & Heq & _ & Hz)%lookup_zip_with_Some.
  apply lookup_zip_with_Some in Hz as (b' & a' & [= <- <-] & Hb & _).
  simpl in Heq. destruct b; [done|]. by rewrite andb_false_r in Heq.
Qed.

(** C1. In single-occupancy mode, from a state in which no two existing
    agents share a cell and the occupancy channel counts the existing
    agents, the movement phase leaves no two existing agents on one cell,
    whatever the Bernoulli draws are: a slot ends on its facing cell only
    if it chose "forward", that cell was empty in the occupancy channel of
    the incoming state, and no slot of lower index faces the same cell.
    The same then holds of the state the action phase returns. *)
Theorem movement_keeps_single_occupancy cfg state actions draws :
  0 < height cfg → 0 < width cfg →
  allow_multiple_agents_per_tile cfg = false →
  wf_agents cfg (agents state) →
  length actions = n_agents_max cfg →
  single_occupancy (positions_agents (agents state)) (are_existing_agents (agents state)) →
  occupancy_channel_ok cfg state →
  (∀ np no fp,
     move_agents_enforce_single_occupancy cfg (uniform_action draws) state actions
       = Some (np, no, fp) →
     single_occupancy np (are_existing_agents (agents state)) ∧
     ∃ forward, action_to_idx cfg "forward" = Some forward ∧
       ∀ i q, np !! i = Some q →
         ∃ p f, positions_agents (agents state) !! i = Some p ∧
                facing_positions_of cfg (agents state) !! i = Some f ∧
                (q = p ∨ (q = f ∧ may_move cfg state actions forward i f))) ∧
  (∀ state', step_action_agents cfg state actions draws = Some state' →
     single_occupancy (positions_agents (agents state'))
       (are_existing_agents (agents state'))).
Proof.
  intros HH HW Hmode Hwf Hla Hsingle Hocc.
  assert (Hmove : ∀ np no fp,
     move_agents_enforce_single_occupancy cfg (uniform_action draws) state actions
       = Some (np, no, fp) →
     single_occupancy np (are_existing_agents (agents state)) ∧
     ∃ forward, action_to_idx cfg "forward" = Some forward ∧
       ∀ i q, np !! i = Some q →
         ∃ p f, positions_agents (agents state) !! i = Some p ∧
                facing_positions_of cfg (agents state) !! i = Some f ∧
                (q = p ∨ (q = f ∧ may_move cfg state actions forward i f))).
  { intros np no fp Hm.
    destruct (move_agents_enforce_single_occupancy_spec _ _ _ _ _ _ _ HH HW Hwf Hla Hm)
      as (-> & forward & Hfwd & Hnp).
    split; [by eapply single_occupancy_move|]. by exists forward. }
  split; [exact Hmove|].
  intros state' Hstep.
  apply step_action_agents_inv in Hstep
    as (np & no & fp & eat & idle & tr & Hm & _ & _ & _ & Hpos & _ & _ & Hex & _).
  unfold move_func in Hm. rewrite Hmode in Hm.
  rewrite Hpos, Hex. eapply single_occupancy_mono.
  - intros i. apply existing_after_actions_sub.
  - by apply (Hmove np no fp).
Qed.

Lemma update_agent_map_occupancy_ok cfg state :
  (idx_agents < length (map state))%nat →
  occupancy_channel_ok cfg (update_agent_map state).
Proof.
  intros Hlen [r c] _. unfold grid_at. cbn [fst snd].
  rewrite update_agent_map_channel. rewrite decide_True by done.
  rewrite scatter_add_count. unfold grid_zeros, occupancy. simpl. ring.
Qed.

(** On the example, slot 0 takes the contested cell and slot 1 stays. *)
Example movement_example :
  (positions_agents ∘ agents)
    <$> step_action_agents cfg_single (example_state agents_facing_same_cell 0)
          [0; 0; 5] example_draws
  = Some [(1, 1); (1, 0); (2, 2)].
Proof. vm_compute. reflexivity. Qed.

Lemma movement_keeps_single_occupancy_witness :
  let state := example_state agents_facing_same_cell 0 in
  (∀ np no fp,
     move_agents_enforce_single_occupancy cfg_single (uniform_action example_draws)
       state [0; 0; 5] = Some (np, no, fp) →
     single_occupancy np (are_existing_agents (agents state)) ∧
     ∃ forward, action_to_idx cfg_single "forward" = Some forward ∧
       ∀ i q, np !! i = Some q →
         ∃ p f, positions_agents (agents state) !! i = Some p ∧
                facing_positions_of cfg_single (agents state) !! i = Some f ∧
                (q = p ∨ (q = f ∧ may_move cfg_single state [0; 0; 5] forward i f))) ∧
  (∀ state',
     step_action_agents cfg_single state [0; 0; 5] example_draws = Some state' →
     single_occupancy (positions_agents (agents state'))
       (are_existing_agents (agents state'))).
Proof.
  apply (movement_keeps_single_occupancy cfg_single
           (example_state agents_facing_same_cell 0) [0; 0; 5] example_draws).
  - reflexivity.
  - reflexivity.
  - reflexivity.
  - repeat split.
  - reflexivity.
  - intros i j p Hij Hi Hj Hpi Hpj.
    destruct i as [|[|[|i]]], j as [|[|[|j]]];
      cbv in Hi, Hj, Hpi, Hpj; congruence.
  - apply update_agent_map_occupancy_ok. cbv. lia.
Defined.

(** ** Action indices *)

Lemma index_last_Some name l k j :
  index_last name l k = Some j →
  k ≤ j ∧ l !! Z.to_nat (j - k) = Some name.
Proof.
  revert k. induction l as [|a l IH]; intros k Hj; [done|].
  simpl in Hj. destruct (index_last name l (k + 1)) as [j'|] eqn:Hrec.
  - simplify_eq. apply IH in Hrec as [Hle Hl]. split; [lia|].
    replace (Z.to_nat (j - k)) with (S (Z.to_nat (j - (k + 1)))) by lia. done.
  - destruct (String.eqb_spec a name) as [->|]; [|done]. simplify_eq.
    split; [lia|]. by rewrite Z.sub_diag.
Qed.

Lemma action_to_idx_inj cfg name1 name2 j :
  action_to_idx cfg name1 = Some j → action_to_idx cfg name2 = Some j → name1 = name2.
Proof.
  unfold action_to_idx. intros [_ H1]%index_last_Some [_ H2]%index_last_Some.
  congruence.
Qed.

(** ** Lengths *)

Lemma length_is_infant_of cfg ages : length (is_infant_of cfg ages) = length ages.
Proof. unfold is_infant_of. by rewrite length_fmap. Qed.

Lemma length_compute_new_positions cfg key curr facing is_moving ages n :
  length key = n → length curr = n → length facing = n →
  length is_moving = n → length ages = n →
  length (compute_new_positions cfg key curr facing is_moving ages) = n.
Proof.
  intros. unfold compute_new_positions, bernoulli.
  rewrite !length_zip_with, length_fmap, length_is_infant_of. lia.
Qed.

Lemma move_func_length cfg key state actions np no fp :
  wf_agents cfg (agents state) →
  length actions = n_agents_max cfg →
  length key = n_agents_max cfg →
  move_func cfg cfg key state actions = Some (np, no, fp) →
  length np = n_agents_max cfg.
Proof.
  intros (Hlp & Hlo & Hle & Hlen & Hla & _) Hact Hkey Hm.
  assert (Hlf : length (facing_positions_of cfg (agents state)) = n_agents_max cfg).
  { rewrite length_facing_positions. lia. }
  unfold move_func in Hm. destruct (allow_multiple_agents_per_tile cfg).
  - unfold move_agents_allow_multiple_occupancy in Hm.
    destruct (action_to_idx cfg "forward"); [|done]. simpl in Hm.
    destruct (compute_new_orientations _ _ _); [|done]. simpl in Hm.
    injection Hm as <- _ _. apply length_compute_new_positions; try done.
    by rewrite length_fmap.
  - unfold move_agents_enforce_single_occupancy in Hm.
    destruct (action_to_idx cfg "forward"); [|done]. simpl in Hm.
    destruct (compute_new_orientations _ _ _); [|done]. simpl in Hm.
    injection Hm as <- _ _. apply length_compute_new_positions; try done.
    apply length_keep_first_per_tile.
    + unfold facing_tiles_of. by rewrite length_fmap.
    + rewrite length_zip_with, length_fmap. lia.
Qed.

Lemma length_eating_agents cfg key a actions eat n :
  length key = n → length (are_existing_agents a) = n → length actions = n →
  length (age_agents a) = n →
  length (eating_agents cfg key a actions eat) = n.
Proof.
  intros. unfold eating_agents, bernoulli.
  rewrite !length_zip_with, length_fmap, length_is_infant_of. lia.
Qed.

Lemma length_food_energy_bonus cfg plants np eating ages n :
  length np = n → length eating = n → length ages = n →
  length (food_energy_bonus cfg plants np eating ages) = n.
Proof.
  intros. unfold food_energy_bonus.
  rewrite !length_zip_with, length_is_infant_of. lia.
Qed.

Lemma length_per_agent_helper_fn cfg a tr i n :
  length (positions_agents a) = n → length (are_existing_agents a) = n →
  length (energy_agents a) = n →
  length (per_agent_helper_fn cfg a tr i).1 = n.
Proof.
  intros. unfold per_agent_helper_fn, are_receiving_from. simpl.
  rewrite length_zip_with, length_alter, length_replicate, length_fmap, length_zip_with. lia.
Qed.

Lemma length_transfer_delta_energy_sum cfg a tr :
  length (positions_agents a) = n_agents_max cfg →
  length (are_existing_agents a) = n_agents_max cfg →
  length (energy_agents a) = n_agents_max cfg →
  length (transfer_delta_energy_sum cfg a tr) = n_agents_max cfg.
Proof.
  intros. unfold transfer_delta_energy_sum.
  induction (seq 0 (n_agents_max cfg)) as [|j js IH]; cbn [foldr].
  - by rewrite length_replicate.
  - rewrite length_zip_with, IH.
    rewrite (length_per_agent_helper_fn _ _ _ _ (n_agents_max cfg)) by done. lia.
Qed.

Lemma length_energy_after_costs cfg a actions energies idle tr n :
  length (are_existing_agents a) = n → length actions = n → length energies = n →
  (∀ t, tr = Some t → length t = n) →
  length (energy_after_costs cfg a actions energies idle tr) = n.
Proof.
  intros ??? Htr. unfold energy_after_costs.
  destruct tr as [t|]; [specialize (Htr t eq_refl)|];
    rewrite !length_zip_with, ?length_zip_with; lia.
Qed.

Lemma length_transferring_agents a actions transfer n :
  length (are_existing_agents a) = n → length actions = n →
  length (transferring_agents a actions transfer) = n.
Proof. intros. unfold transferring_agents. rewrite length_zip_with. lia. Qed.

(** ** Energy transfers received by a slot *)

Lemma per_agent_delta_zero cfg a tr i j :
  length (positions_agents a) = n_agents_max cfg →
  length (are_existing_agents a) = n_agents_max cfg →
  length (energy_agents a) = n_agents_max cfg →
  (i < n_agents_max cfg)%nat →
  tr !! i = Some false →
  (tr !! j = Some true → are_receiving_from cfg a j !! i = Some false) →
  (j < length tr)%nat →
  ∃ x, (per_agent_helper_fn cfg a tr j).1 !! i = Some x ∧ (x == 0)%Q.
Proof.
  intros Hlp Hle Hlen Hi Htri Hrecv Hj.
  assert (is_Some (are_receiving_from cfg a j !! i)) as [r Hr].
  { apply lookup_lt_is_Some. unfold are_receiving_from. rewrite length_zip_with. lia. }
  destruct (lookup_lt_is_Some_2 tr j Hj) as [t Ht].
  unfold per_agent_helper_fn. cbn [fst].
  rewrite lookup_zip_with, list_lookup_fmap, Hr.
  rewrite (gather_lookup _ _ _ Ht).
  destruct t.
  - specialize (Hrecv Ht). rewrite Hr in Hrecv. injection Hrecv as ->.
    assert (i ≠ j) by (intros ->; congruence).
    rewrite list_lookup_alter_ne by done.
    rewrite lookup_replicate_2 by lia. simpl. eexists; split; [reflexivity|].
    unfold Qdiv. ring.
  - destruct (decide (i = j)) as [->|].
    + rewrite list_lookup_alter, decide_True, lookup_replicate_2 by (done || lia). simpl.
      eexists; split; [reflexivity|]. unfold Qdiv. ring.
    + rewrite list_lookup_alter_ne by done.
      rewrite lookup_replicate_2 by lia. simpl. eexists; split; [reflexivity|].
      unfold Qdiv. ring.
Qed.

Lemma transfer_delta_energy_sum_zero cfg a tr i :
  length (positions_agents a) = n_agents_max cfg →
  length (are_existing_agents a) = n_agents_max cfg →
  length (energy_agents a) = n_agents_max cfg →
  length tr = n_agents_max cfg →
  (i < n_agents_max cfg)%nat →
  tr !! i = Some false →
  (∀ j, tr !! j = Some true → are_receiving_from cfg a j !! i = Some false) →
  ∃ s, transfer_delta_energy_sum cfg a tr !! i = Some s ∧ (s == 0)%Q.
Proof.
  intros Hlp Hle Hlen Hltr Hi Htri Hrecv. unfold transfer_delta_energy_sum.
  assert (Hjs : ∀ j, j ∈ seq 0 (n_agents_max cfg) → (j < length tr)%nat).
  { intros j Hj%elem_of_seq. lia. }
  induction (seq 0 (n_agents_max cfg)) as [|j js IH]; cbn [foldr].
  - rewrite lookup_replicate_2 by lia. by eexists.
  - destruct IH as (s & Hs & Hs0).
    { intros j' Hj'. apply Hjs. by right. }
    destruct (per_agent_delta_zero cfg a tr i j) as (x & Hx & Hx0); try done.
    { by apply Hrecv. }
    { apply Hjs. by left. }
    rewrite lookup_zip_with, Hx, Hs. simpl. eexists; split; [reflexivity|].
    rewrite Hx0, Hs0. ring.
Qed.

(** ** The death test *)

Lemma clip_bounds x hi : (0 <= hi)%Q → (0 <= clip x 0 hi)%Q ∧ (clip x 0 hi <= hi)%Q.
Proof.
  intros Hhi. unfold clip. split.
  - apply Q.min_glb; [apply Q.le_max_r|done].
  - apply Q.le_min_r.
Qed.


Lemma Qltb_lt x y : Qltb x y = true ↔ (x < y)%Q.
Proof.
  unfold Qltb. rewrite negb_true_iff. split.
  - intros Hb. apply Qnot_le_lt. intros Hle%Qle_bool_iff. congruence.
  - intros Hlt. destruct (Qle_bool y x) eqn:Hb; [|done].
    apply Qle_bool_iff in Hb. by apply Qlt_not_le in Hlt.
Qed.







(** ** Eating *)

Lemma map_agents_try_eating_count np eating r c :
  (map_agents_try_eating np eating r c
   == inject_Z (Z.of_nat (count_at np eating (r, c))))%Q.
Proof.
  unfold map_agents_try_eating. rewrite scatter_add_count. unfold grid_zeros. ring.
Qed.




(** ** Reproduction: who may try *)

Lemma agents_trying_reprod_true cfg state actions trying i :
  0 < width cfg → 0 < height cfg →
  wf_agents cfg (agents state) →
  agents_trying_reprod cfg state actions = Some trying →
  trying !! i = Some true →
  ∃ e a f,
    energy_agents (agents state) !! i = Some e ∧ (energy_req_reprod cfg < e)%Q ∧
    age_agents (agents state) !! i = Some a ∧ infancy_duration cfg ≤ a ∧
    are_existing_agents (agents state) !! i = Some true ∧
    facing_positions_of cfg (agents state) !! i = Some f ∧
    (grid_at (channel (map state) idx_agents) f == 0)%Q ∧
    (∀ j f', (j < i)%nat →
       facing_positions_of cfg (agents state) !! j = Some f' → f' ≠ f) ∧
    (∀ reproduce, in_list_actions cfg "reproduce" = true →
       action_to_idx cfg "reproduce" = Some reproduce → actions !! i = Some reproduce).
Proof.
  intros HW HH (Hlp & Hlo & Hle & Hlen & Hla & _) Htry Hi.
  unfold agents_trying_reprod in Htry.
  set (a := agents state) in *.
  set (base := zip_with _ (energy_agents a) (zip (age_agents a) (are_existing_agents a))) in Htry.
  set (free := zip_with _ base (facing_positions_of cfg a)) in Htry.
  set (tiles := facing_tiles_of cfg (facing_positions_of cfg a)) in Htry.
  set (kept := keep_first_per_tile (n_agents_max cfg) tiles free) in Htry.
  assert (Hlf : length (facing_positions_of cfg a) = n_agents_max cfg).
  { rewrite length_facing_positions. lia. }
  assert (Hlt : length tiles = n_agents_max cfg).
  { unfold tiles, facing_tiles_of. by rewrite length_fmap. }
  assert (Hlbase : length base = n_agents_max cfg).
  { unfold base. rewrite length_zip_with, length_zip. lia. }
  assert (Hlfree : length free = n_agents_max cfg).
  { unfold free. rewrite length_zip_with. lia. }
  assert (Hkept : kept !! i = Some true ∧
     ∀ reproduce, in_list_actions cfg "reproduce" = true →
       action_to_idx cfg "reproduce" = Some reproduce → actions !! i = Some reproduce).
  { destruct (in_list_actions cfg "reproduce").
    - destruct (action_to_idx cfg "reproduce") as [reproduce|]; [|done].
      simpl in Htry. injection Htry as <-.
      apply lookup_zip_with_Some in Hi as (k & act & Heq & Hk & Hact).
      symmetry in Heq. apply andb_true_iff in Heq as [-> Hdec].
      apply bool_decide_eq_true in Hdec. subst act.
      split; [done|]. intros r _ [= <-]. done.
    - injection Htry as <-. split; [done|]. intros r Hr. done. }
  destruct Hkept as [Hkept Hrep].
  assert (Hin : (i < n_agents_max cfg)%nat).
  { rewrite <- (length_keep_first_per_tile _ tiles free Hlt Hlfree).
    by eapply lookup_lt_Some. }
  assert (is_Some (facing_positions_of cfg a !! i)) as [f Hf]
    by (apply lookup_lt_is_Some; lia).
  assert (tiles !! i = Some (f.1 * width cfg + f.2)) as Ht.
  { unfold tiles, facing_tiles_of. by rewrite list_lookup_fmap, Hf. }
  assert (is_Some (free !! i)) as [b Hb] by (apply lookup_lt_is_Some; lia).
  unfold kept in Hkept.
  rewrite (keep_first_per_tile_lookup _ _ _ Hlt Hlfree _ _ _ Hb Ht) in Hkept.
  injection Hkept as Hkept. apply andb_true_iff in Hkept as [-> Hfirst].
  apply bool_decide_eq_true in Hfirst.
  unfold free in Hb. apply lookup_zip_with_Some in Hb as (bs & f2 & Heq & Hbs & Hf2).
  rewrite Hf in Hf2. injection Hf2 as <-.
  symmetry in Heq. apply andb_true_iff in Heq as [-> Hempty].
  unfold base in Hbs. apply lookup_zip_with_Some in Hbs as (e & [ag ex] & Heq & He & Hz).
  apply lookup_zip_Some in Hz as [Hag Hex]. simpl in Heq.
  symmetry in Heq. apply andb_true_iff in Heq as [Heq ->].
  apply andb_true_iff in Heq as [Hreq Hage].
  exists e, ag, f. split_and!; try done.
  - by apply Qltb_lt.
  - by apply bool_decide_eq_true in Hage.
  - by apply Qeq_bool_iff.
  - intros j f' Hji Hf' ->. apply Hfirst.
    apply list_elem_of_lookup_2 with j. apply lookup_take_Some. split; [|done].
    unfold tiles, facing_tiles_of. by rewrite list_lookup_fmap, Hf'.
Qed.

Lemma length_agents_trying_reprod cfg state actions trying :
  wf_agents cfg (agents state) →
  length actions = n_agents_max cfg →
  agents_trying_reprod cfg state actions = Some trying →
  length trying = n_agents_max cfg.
Proof.
  intros (Hlp & Hlo & Hle & Hlen & Hla & _) Hact Htry.
  unfold agents_trying_reprod in Htry.
  set (kept := keep_first_per_tile _ _ _) in Htry.
  assert (length kept = n_agents_max cfg) as Hk.
  { apply length_keep_first_per_tile.
    - unfold facing_tiles_of. rewrite length_fmap, length_facing_positions. lia.
    - rewrite !length_zip_with, length_facing_positions. lia. }
  destruct (in_list_actions cfg "reproduce").
  - destruct (action_to_idx cfg "reproduce"); [|done]. simpl in Htry.
    injection Htry as <-. rewrite length_zip_with. lia.
  - by injection Htry as <-.
Qed.

(** ** Reproduction: the capacity cut *)

Lemma count_true_app l1 l2 : count_true (l1 ++ l2) = (count_true l1 + count_true l2)%nat.
Proof. unfold count_true. by rewrite filter_app, length_app. Qed.

Lemma count_true_le_length l : (count_true l ≤ length l)%nat.
Proof.
  induction l as [|b l IH]; [done|]. rewrite count_true_cons. destruct b; simpl; lia.
Qed.

Lemma cumsum_mask_snoc l b :
  cumsum_mask (l ++ [b]) = cumsum_mask l ++ [count_true (l ++ [b])].
Proof.
  unfold cumsum_mask. rewrite imap_app. simpl. f_equal.
  - apply imap_ext. intros i x Hi. simpl.
    rewrite take_app_le; [done|]. apply lookup_lt_Some in Hi. exact Hi.
  - rewrite Nat.add_0_r. f_equal.
    rewrite take_ge; [done|]. rewrite length_app. simpl. lia.
Qed.

Lemma length_cumsum_mask l : length (cumsum_mask l) = length l.
Proof. unfold cumsum_mask. by rewrite length_imap. Qed.

(** The mask [cumsum <= n] cuts a 0/1 mask down to its first [n] set
    entries. *)
Lemma count_true_agents_allowed_reprod l n :
  count_true (agents_allowed_reprod l n) = Nat.min n (count_true l).
Proof.
  unfold agents_allowed_reprod.
  induction l as [|b l IH] using rev_ind; [by rewrite Nat.min_0_r|].
  rewrite cumsum_mask_snoc, zip_with_app by (by rewrite length_cumsum_mask).
  rewrite !count_true_app, IH.
  assert (Hone : ∀ c : bool, count_true [c] = if c then 1%nat else 0%nat).
  { by intros []. }
  cbn [zip_with]. rewrite !Hone. destruct b.
  - rewrite andb_true_r. case_bool_decide as Hc; lia.
  - rewrite andb_false_r. lia.
Qed.

Lemma agents_allowed_reprod_lookup l n i b :
  l !! i = Some b →
  agents_allowed_reprod l n !! i
  = Some (bool_decide (count_true (take (S i) l) ≤ n)%nat && b).
Proof.
  intros Hb. unfold agents_allowed_reprod, cumsum_mask.
  rewrite lookup_zip_with, list_lookup_imap, Hb. done.
Qed.

Lemma length_agents_allowed_reprod l n : length (agents_allowed_reprod l n) = length l.
Proof.
  unfold agents_allowed_reprod. rewrite length_zip_with, length_cumsum_mask. lia.
Qed.

(** [where_from]: the first [n] indices of the mask, by cumulative count. *)
Lemma elem_of_take_where_from mask k n i :
  i ∈ take n (where_from k mask) ↔
  ∃ j, i = (k + j)%nat ∧ mask !! j = Some true ∧ (count_true (take (S j) mask) ≤ n)%nat.
Proof.
  revert k n. induction mask as [|b m IH]; intros k n.
  - simpl. rewrite take_nil. split; [by intros ?%elem_of_nil|by intros (j & _ & ? & _)].
  - destruct b; simpl.
    + destruct n as [|n].
      * simpl. split; [by intros ?%elem_of_nil|].
        intros (j & _ & _ & Hc). rewrite count_true_cons in Hc. lia.
      * simpl. rewrite elem_of_cons, IH. split.
        -- intros [->|(j & -> & Hj & Hc)].
           ++ exists 0%nat. split_and!; [lia|done|].
              rewrite take_0, count_true_cons, count_true_nil. lia.
           ++ exists (S j). split_and!; [lia|done|].
              rewrite count_true_cons. lia.
        -- intros (j & -> & Hj & Hc). destruct j as [|j]; [left; lia|right].
           exists j. split_and!; [lia|done|].
           rewrite count_true_cons in Hc. lia.
    + rewrite IH. split.
      * intros (j & -> & Hj & Hc). exists (S j). split_and!; [lia|done|].
        by rewrite count_true_cons.
      * intros (j & -> & Hj & Hc). destruct j as [|j]; [done|].
        exists j. split_and!; [lia|done|]. by rewrite count_true_cons in Hc.
Qed.

Lemma length_where_from mask k : length (where_from k mask) = count_true mask.
Proof.
  revert k. induction mask as [|b m IH]; intros k; [done|].
  rewrite count_true_cons. destruct b; simpl; rewrite IH; lia.
Qed.

Lemma where_from_lt mask k i : i ∈ where_from k mask → (i < k + length mask)%nat.
Proof.
  intros Hi. rewrite <- (take_ge (where_from k mask) (length mask)) in Hi.
  - apply elem_of_take_where_from in Hi as (j & -> & Hj%lookup_lt_Some & _). lia.
  - rewrite length_where_from. apply count_true_le_length.
Qed.

Lemma length_where_filled mask n fill : length (where_filled mask n fill) = n.
Proof.
  unfold where_filled. rewrite length_take, length_app, length_replicate. lia.
Qed.

(** Scattering one value over a list of indices. *)
Lemma vec_scatter_set_const {A} (l : list A) (idx : list nat) (vs : list A) v i x :
  (length idx ≤ length vs)%nat →
  Forall (λ y, y = v) vs →
  l !! i = Some x →
  vec_scatter_set l idx vs !! i = Some (if bool_decide (i ∈ idx) then v else x).
Proof.
  unfold vec_scatter_set. revert l vs x.
  induction idx as [|k idx IH]; intros l vs x Hlen Hvs Hx.
  - cbn [zip_with foldl]. rewrite bool_decide_false by apply not_elem_of_nil. done.
  - destruct vs as [|y vs]; [simpl in Hlen; lia|].
    apply Forall_cons in Hvs as [-> Hvs]. cbn [zip_with foldl fst snd].
    destruct (decide (i = k)) as [->|Hne].
    + rewrite (IH (<[k:=v]> l) vs v); [| simpl in Hlen; lia | done |].
      * rewrite (bool_decide_true (k ∈ k :: idx)) by left.
        by destruct (bool_decide (k ∈ idx)).
      * apply list_lookup_insert_eq. by eapply lookup_lt_Some.
    + rewrite (IH (<[k:=v]> l) vs x); [| simpl in Hlen; lia | done |].
      * f_equal. rewrite (bool_decide_ext (i ∈ k :: idx) (i ∈ idx)); [done|].
        rewrite elem_of_cons. split; [by intros [?|?]|by right].
      * by rewrite list_lookup_insert_ne.
Qed.

Lemma length_vec_scatter_set {A} (l : list A) idx vs :
  length (vec_scatter_set l idx vs) = length l.
Proof.
  unfold vec_scatter_set. revert l vs. induction idx as [|k idx IH]; intros l vs; [done|].
  destruct vs as [|y vs]; [done|]. simpl. by rewrite IH, length_insert.
Qed.

Lemma elem_of_indices_newborn cfg (existing : list bool) n i :
  length existing = n_agents_max cfg →
  (n ≤ count_true (negb <$> existing))%nat →
  (i < n_agents_max cfg)%nat →
  i ∈ indices_newborn_agents_FILLED cfg existing n ↔
  i ∈ take n (where_from 0 (negb <$> existing)).
Proof.
  intros Hlen Hn Hi. unfold indices_newborn_agents_FILLED, where_filled.
  set (ghosts := negb <$> existing) in *.
  pose proof (length_where_from ghosts 0) as Hlw.
  pose proof (count_true_le_length ghosts) as Hcl.
  assert (length ghosts = n_agents_max cfg) as Hlg by (unfold ghosts; by rewrite length_fmap).
  rewrite elem_of_lookup_zip_with. split.
  - intros (k & x & y & -> & Hx & Hy). apply lookup_seq in Hx as [-> Hk]. simpl in *.
    case_bool_decide as Hkn; [|lia].
    rewrite lookup_take_lt, lookup_app_l in Hy by lia.
    apply list_elem_of_lookup_2 with k. by rewrite lookup_take_lt.
  - intros (k & Hk)%list_elem_of_lookup_1. apply lookup_take_Some in Hk as [Hk Hkn].
    exists k, k, i. split_and!.
    + by rewrite bool_decide_true.
    + apply lookup_seq. split; [done|]. lia.
    + rewrite lookup_take_lt, lookup_app_l by lia. done.
Qed.

Lemma length_indices_newborn cfg (existing : list bool) n :
  length (indices_newborn_agents_FILLED cfg existing n) = n_agents_max cfg.
Proof.
  unfold indices_newborn_agents_FILLED.
  rewrite length_zip_with, length_seq, length_where_filled. lia.
Qed.

(** The newborn slots are the first [n] ghost slots. *)
Lemma are_newborns_agents_eq cfg (existing : list bool) n :
  length existing = n_agents_max cfg →
  (n ≤ count_true (negb <$> existing))%nat →
  vec_scatter_set (replicate (n_agents_max cfg) false)
    (indices_newborn_agents_FILLED cfg existing n)
    (replicate (n_agents_max cfg) true)
  = agents_allowed_reprod (negb <$> existing) n.
Proof.
  intros Hlen Hn. apply list_eq. intros i.
  destruct (decide (i < n_agents_max cfg)%nat) as [Hi|Hi].
  - assert (is_Some ((negb <$> existing) !! i)) as [g Hg].
    { apply lookup_lt_is_Some. rewrite length_fmap. lia. }
    rewrite (agents_allowed_reprod_lookup _ _ _ _ Hg).
    rewrite (vec_scatter_set_const _ _ _ true i false).
    + f_equal.
      rewrite (bool_decide_ext _ _ (elem_of_indices_newborn cfg existing n i Hlen Hn Hi)).
      destruct (bool_decide (i ∈ take n _)) eqn:Hd.
      * apply bool_decide_eq_true in Hd.
        apply elem_of_take_where_from in Hd as (j & -> & Hj & Hc). simpl in *.
        rewrite Hg in Hj. injection Hj as ->. by rewrite bool_decide_true.
      * apply bool_decide_eq_false in Hd. destruct g; [|by rewrite andb_false_r].
        rewrite andb_true_r. symmetry. apply bool_decide_eq_false. intros Hc.
        apply Hd. apply elem_of_take_where_from. exists i. done.
    + rewrite length_indices_newborn, length_replicate. lia.
    + apply Forall_forall. by intros y [-> _]%elem_of_replicate.
    + by apply lookup_replicate_2.
  - rewrite !lookup_ge_None_2; [done| |].
    + rewrite length_agents_allowed_reprod, length_fmap. lia.
    + rewrite length_vec_scatter_set, length_replicate. lia.
Qed.

Lemma count_true_are_newborns cfg (trying existing : list bool) :
  length existing = n_agents_max cfg →
  let n := n_newborns_of trying existing in
  count_true (vec_scatter_set (replicate (n_agents_max cfg) false)
                (indices_newborn_agents_FILLED cfg existing n)
                (replicate (n_agents_max cfg) true)) = n.
Proof.
  intros Hlen n.
  assert (n ≤ count_true (negb <$> existing))%nat as Hn.
  { unfold n, n_newborns_of. lia. }
  rewrite are_newborns_agents_eq by done.
  rewrite count_true_agents_allowed_reprod. lia.
Qed.

(** ** Reproduction, component by component *)

Lemma step_reproduce_agents_inv cfg state actions noise r :
  step_reproduce_agents cfg state actions noise = Some r →
  ∃ trying,
    agents_trying_reprod cfg state actions = Some trying ∧
    let a := agents state in
    let n := n_newborns_of trying (are_existing_agents a) in
    let idx := indices_newborn_agents_FILLED cfg (are_existing_agents a) n in
    repr_agents_reprod r = agents_allowed_reprod trying n ∧
    repr_are_newborns_agents r
    = vec_scatter_set (replicate (n_agents_max cfg) false) idx
        (replicate (n_agents_max cfg) true) ∧
    are_existing_agents (agents (repr_state r))
    = zip_with orb (are_existing_agents a) (repr_are_newborns_agents r) ∧
    energy_agents (agents (repr_state r))
    = vec_scatter_set
        (zip_with (λ e (x : bool), (e - b2q x * energy_cost_reprod cfg)%Q)
           (energy_agents a) (repr_agents_reprod r))
        idx (replicate (n_agents_max cfg) (energy_initial cfg)) ∧
    map (repr_state r) = map state ∧
    video (repr_state r) = video state ∧
    timestep (repr_state r) = timestep state ∧
    latitude_sun (repr_state r) = latitude_sun state.
Proof.
  unfold step_reproduce_agents. intros Hr.
  destruct (agents_trying_reprod cfg state actions) as [trying|]; [|done].
  simpl in Hr. injection Hr as <-. exists trying. split; [done|]. simpl.
  split_and!; reflexivity.
Qed.

(** ** The state between the two phases of a step *)

Lemma length_compute_new_orientations cfg curr actions no n :
  length curr = n → length actions = n →
  compute_new_orientations cfg curr actions = Some no → length no = n.
Proof.
  intros Hc Ha Hno. unfold compute_new_orientations in Hno.
  destruct (action_to_idx cfg "left"); [|done]. simpl in Hno.
  destruct (action_to_idx cfg "right"); [|done]. simpl in Hno.
  injection Hno as <-. rewrite !length_zip_with, !length_fmap. lia.
Qed.

Lemma move_func_orientations_length cfg key state actions np no fp :
  wf_agents cfg (agents state) →
  length actions = n_agents_max cfg →
  move_func cfg cfg key state actions = Some (np, no, fp) →
  length no = n_agents_max cfg.
Proof.
  intros (Hlp & Hlo & _) Hact Hm.
  unfold move_func in Hm. destruct (allow_multiple_agents_per_tile cfg).
  - unfold move_agents_allow_multiple_occupancy in Hm.
    destruct (action_to_idx cfg "forward"); [|done]. simpl in Hm.
    destruct (compute_new_orientations _ _ _) as [no'|] eqn:Hno; [|done]. simpl in Hm.
    injection Hm as _ <- _.
    exact (length_compute_new_orientations cfg _ actions no' _ Hlo Hact Hno).
  - unfold move_agents_enforce_single_occupancy in Hm.
    destruct (action_to_idx cfg "forward"); [|done]. simpl in Hm.
    destruct (compute_new_orientations _ _ _) as [no'|] eqn:Hno; [|done]. simpl in Hm.
    injection Hm as _ <- _.
    exact (length_compute_new_orientations cfg _ actions no' _ Hlo Hact Hno).
Qed.

Lemma length_energy_before_clamp cfg state actions draws np eat idle tr :
  wf_agents cfg (agents state) →
  length actions = n_agents_max cfg →
  length (uniform_action draws) = n_agents_max cfg →
  length np = n_agents_max cfg →
  (∀ t, tr = Some t → length t = n_agents_max cfg) →
  length (energy_before_clamp cfg state actions draws np eat idle tr) = n_agents_max cfg.
Proof.
  intros (Hlp & Hlo & Hle & Hlen & Hla & _) Hact Hkey Hnp Htr.
  unfold energy_before_clamp.
  apply length_energy_after_costs; try done.
  assert (length (zip_with Qplus (energy_agents (agents state))
            (food_energy_bonus cfg (channel (map state) idx_plants) np
               (eating_agents cfg (uniform_action draws) (agents state) actions eat)
               (age_agents (agents state)))) = n_agents_max cfg) as Hl1.
  { rewrite length_zip_with.
    rewrite (length_food_energy_bonus _ _ _ _ _ (n_agents_max cfg)); [lia|done| |done].
    by apply length_eating_agents. }
  destruct tr as [t|]; [|done].
  rewrite length_zip_with, Hl1, length_transfer_delta_energy_sum by done. lia.
Qed.

Lemma step_action_agents_wf cfg state actions draws state' :
  wf_agents cfg (agents state) →
  length actions = n_agents_max cfg →
  length (uniform_action draws) = n_agents_max cfg →
  step_action_agents cfg state actions draws = Some state' →
  wf_agents cfg (agents state') ∧
  ((0 <= energy_max cfg)%Q →
   ∀ i e, energy_agents (agents state') !! i = Some e →
          (0 <= e)%Q ∧ (e <= energy_max cfg)%Q).
Proof.
  intros Hwf Hact Hkey Hstep.
  pose proof Hwf as (Hlp & Hlo & Hle & Hlen & Hla & Hlapp & Hlpar).
  apply step_action_agents_inv in Hstep
    as (np & no & fp & eat & idle & tr & Hm & Heat & Hidle & Htr & Hpos & Hor & Hen & Hex
        & Hage & Hpar & _ & _ & Happ).
  pose proof (move_func_length _ _ _ _ _ _ _ Hwf Hact Hkey Hm) as Hnp.
  pose proof (move_func_orientations_length _ _ _ _ _ _ _ Hwf Hact Hm) as Hno.
  assert (Hltr : ∀ t, tr = Some t → length t = n_agents_max cfg).
  { intros t ->. destruct (in_list_actions cfg "transfer"); [|done].
    destruct Htr as (transfer & _ & [= ->]). by apply length_transferring_agents. }
  pose proof (length_energy_before_clamp cfg state actions draws np eat idle tr
                Hwf Hact Hkey Hnp Hltr) as Hebc.
  assert (Hlen' : length (energy_agents (agents state')) = n_agents_max cfg).
  { by rewrite Hen, length_fmap. }
  assert (Hlex' : length (are_existing_agents (agents state')) = n_agents_max cfg).
  { rewrite Hex, length_zip_with, length_fmap, length_zip. lia. }
  split.
  - unfold wf_agents. rewrite Hpos, Hor, Hage, Hpar. split_and!; try done.
    rewrite Happ, length_zip_with. lia.
  - intros Hmax i e He. rewrite Hen, list_lookup_fmap in He.
    destruct (energy_before_clamp _ _ _ _ _ _ _ _ !! i) as [e0|]; [|done].
    injection He as <-. by apply clip_bounds.
Qed.

Lemma step_agents_interaction_inv cfg state actions draws s1 :
  step_agents_interaction cfg state actions draws = Some s1 →
  ∃ s0, step_action_agents cfg state actions draws = Some s0 ∧
        s1 = update_agent_map s0.
Proof.
  unfold step_agents_interaction. intros Hs.
  destruct (step_action_agents cfg state actions draws) as [s0|]; [|done].
  simpl in Hs. injection Hs as <-. by exists s0.
Qed.

Lemma step_action_agents_map_length cfg state actions draws s0 :
  step_action_agents cfg state actions draws = Some s0 →
  length (map s0) = length (map state).
Proof.
  unfold step_action_agents. intros Hs.
  destruct (_ cfg (uniform_action draws) state actions) as [[[np no] fp]|]; [|done].
  simpl in Hs. case_guard; [|done]. simpl in Hs.
  destruct (action_to_idx cfg "eat"); [|done]. simpl in Hs.
  destruct (if in_list_actions cfg "transfer" then _ else _); [|done]. simpl in Hs.
  destruct (action_to_idx cfg "idle"); [|done]. simpl in Hs.
  match type of Hs with
  | step_update_sun cfg ?s draws ≫= _ = _ =>
      destruct (step_update_sun cfg s draws) as [s'|] eqn:Hsun; [|done]
  end.
  simpl in Hs. injection Hs as <-.
  apply step_update_sun_agents in Hsun as (_ & _ & _ & _ & Hl).
  simpl. unfold set_channel in *. rewrite length_insert, Hl. simpl.
  by rewrite length_insert.
Qed.

Lemma step_inv cfg state actions draws out :
  step cfg state actions draws = Some out →
  ∃ s1 r,
    step_agents_interaction cfg state actions draws = Some s1 ∧
    step_reproduce_agents cfg s1 actions (noise_appearances draws) = Some r ∧
    n_steps_per_video cfg ≠ 0 ∧
    positions_agents (agents (step_state out)) = positions_agents (agents (repr_state r)) ∧
    are_existing_agents (agents (step_state out))
      = are_existing_agents (agents (repr_state r)) ∧
    energy_agents (agents (step_state out)) = energy_agents (agents (repr_state r)) ∧
    are_newborns_agents (step_eco_information out) = repr_are_newborns_agents r ∧
    timestep (step_state out) = timestep state + 1 ∧
    ∃ rgb_map,
      video (step_state out)
      = <[Z.to_nat (timestep state mod n_steps_per_video cfg) := rgb_map]>
          (video (repr_state r)).
Proof.
  unfold step. intros Hs.
  destruct (step_agents_interaction cfg state actions draws) as [s1|]; [|done].
  simpl in Hs.
  destruct (step_reproduce_agents cfg s1 actions (noise_appearances draws)) as [r|]
    eqn:Hr; [|done].
  simpl in Hs. case_guard; [|done]. simpl in Hs. injection Hs as <-.
  exists s1, r. simpl. split_and!; try done. by eexists.
Qed.

(** ** The reproduction phase within a step *)

(** C3 (amended). The number of newborns of a tick is [min(E, G)], where
    [E] counts the eligible reproducers after the collision rule and [G]
    counts the ghost slots of the state the action phase leaves (slots
    freed by a death in the same tick included); only the eligible agents
    whose cumulative count is at most [min(E, G)] reproduce, the
    reproduction cost is charged to exactly those, and every newborn slot
    was a ghost slot after the action phase. *)
Theorem births_are_min_of_eligible_and_ghosts cfg state actions draws out :
  wf_agents cfg (agents state) →
  length actions = n_agents_max cfg →
  length (uniform_action draws) = n_agents_max cfg →
  step cfg state actions draws = Some out →
  ∃ s1 r trying,
    step_agents_interaction cfg state actions draws = Some s1 ∧
    step_reproduce_agents cfg s1 actions (noise_appearances draws) = Some r ∧
    agents_trying_reprod cfg s1 actions = Some trying ∧
    let E := count_true trying in
    let G := count_true (negb <$> are_existing_agents (agents s1)) in
    let are_newborns := are_newborns_agents (step_eco_information out) in
    count_true are_newborns = Nat.min E G ∧
    (count_true are_newborns ≤ G)%nat ∧
    count_true (repr_agents_reprod r) = Nat.min E G ∧
    (∀ i, repr_agents_reprod r !! i = Some true ↔
          trying !! i = Some true ∧
          (count_true (take (S i) trying) ≤ Nat.min E G)%nat) ∧
    (∀ i e (ri : bool),
       energy_agents (agents s1) !! i = Some e →
       repr_agents_reprod r !! i = Some ri →
       are_newborns !! i = Some false →
       energy_agents (agents (step_state out)) !! i
       = Some (e - b2q ri * energy_cost_reprod cfg)%Q) ∧
    (∀ i, are_newborns !! i = Some true →
          are_existing_agents (agents s1) !! i = Some false).
Proof.
  intros Hwf Hact Hkey Hstep.
  apply step_inv in Hstep as (s1 & r & Hs1 & Hr & _ & _ & _ & Hen & Hnb & _).
  pose proof Hs1 as (s0 & Hs0 & ->)%step_agents_interaction_inv.
  destruct (step_action_agents_wf _ _ _ _ _ Hwf Hact Hkey Hs0) as [Hwf0 _].
  pose proof Hr as (trying & Htry & Hrep & Hnew & _ & Hen' & _)%step_reproduce_agents_inv.
  cbn zeta in *.
  change (agents (update_agent_map s0)) with (agents s0) in *.
  pose proof Hwf0 as (_ & _ & Hle0 & Hlen0 & _).
  exists (update_agent_map s0), r, trying. do 3 (split; [done|]).
  cbn zeta. change (agents (update_agent_map s0)) with (agents s0).
  set (n := n_newborns_of trying (are_existing_agents (agents s0))) in *.
  assert (Hn : n = Nat.min (count_true trying)
                 (count_true (negb <$> are_existing_agents (agents s0)))) by done.
  assert (Hcount : count_true (are_newborns_agents (step_eco_information out)) = n).
  { rewrite Hnb, Hnew. by apply count_true_are_newborns. }
  assert (Hnbeq : are_newborns_agents (step_eco_information out)
                  = agents_allowed_reprod (negb <$> are_existing_agents (agents s0)) n).
  { rewrite Hnb, Hnew. apply are_newborns_agents_eq; [done|lia]. }
  split_and!.
  - by rewrite Hcount.
  - rewrite Hcount. lia.
  - rewrite Hrep, count_true_agents_allowed_reprod. lia.
  - intros i. rewrite Hrep. split.
    + intros Hi.
      assert (is_Some (trying !! i)) as [b Hb].
      { apply lookup_lt_is_Some. rewrite <- (length_agents_allowed_reprod trying n).
        by eapply lookup_lt_Some. }
      rewrite (agents_allowed_reprod_lookup _ _ _ _ Hb) in Hi.
      injection Hi as Hi. apply andb_true_iff in Hi as [Hc ->].
      apply bool_decide_eq_true in Hc. split; [done|]. by rewrite <- Hn.
    + intros [Hb Hc]. rewrite (agents_allowed_reprod_lookup _ _ _ _ Hb).
      rewrite <- Hn in Hc. by rewrite bool_decide_true.
  - intros i e ri He Hri Hnbi. rewrite Hen, Hen'.
    assert (Hi : (i < n_agents_max cfg)%nat).
    { rewrite <- Hlen0. by eapply lookup_lt_Some. }
    erewrite vec_scatter_set_const; [| | |].
    2:{ rewrite length_indices_newborn, length_replicate. lia. }
    2:{ apply Forall_forall. by intros y [-> _]%elem_of_replicate. }
    2:{ rewrite lookup_zip_with, He. simpl. rewrite Hri. simpl. done. }
    rewrite bool_decide_false; [done|].
    intros Hin. rewrite Hnb, Hnew in Hnbi.
    erewrite vec_scatter_set_const in Hnbi; [| | |by apply lookup_replicate_2].
    2:{ rewrite length_indices_newborn, length_replicate. lia. }
    2:{ apply Forall_forall. by intros y [-> _]%elem_of_replicate. }
    by rewrite bool_decide_true in Hnbi.
  - intros i Hi. rewrite Hnbeq in Hi.
    assert (is_Some ((negb <$> are_existing_agents (agents s0)) !! i)) as [g Hg].
    { apply lookup_lt_is_Some.
      rewrite <- (length_agents_allowed_reprod _ n). by eapply lookup_lt_Some. }
    rewrite (agents_allowed_reprod_lookup _ _ _ _ Hg) in Hi.
    injection Hi as Hi. apply andb_true_iff in Hi as [_ ->].
    rewrite list_lookup_fmap in Hg.
    destruct (are_existing_agents (agents s0) !! i) as [[]|]; by simplify_eq.
Qed.

Lemma full_house_step_returns :
  is_Some (step cfg_single (example_state agents_full_house 0) [5; 5; 5] example_draws).
Proof. apply (bool_decide_unpack _). vm_compute. exact I. Qed.

Lemma births_are_min_of_eligible_and_ghosts_witness :
  ∃ out s1,
    step cfg_single (example_state agents_full_house 0) [5; 5; 5] example_draws
      = Some out ∧
    step_agents_interaction cfg_single (example_state agents_full_house 0) [5; 5; 5]
      example_draws = Some s1 ∧
    (count_true (are_newborns_agents (step_eco_information out))
     ≤ count_true (negb <$> are_existing_agents (agents s1)))%nat.
Proof.
  destruct full_house_step_returns as [out Hstep].
  destruct (births_are_min_of_eligible_and_ghosts cfg_single
              (example_state agents_full_house 0) [5; 5; 5] example_draws out
              ltac:(repeat split) eq_refl eq_refl Hstep)
    as (s1 & r & trying & Hs1 & _ & _ & _ & Hle & _).
  exists out, s1. split; [exact Hstep|]. split; [exact Hs1|exact Hle].
Defined.

(** C3, as stated, fails: no slot is a ghost when the tick starts, slot 0
    starves in the action phase, and slot 1 gives birth into slot 0 in the
    same tick: one birth against zero ghost slots at tick start. *)
Lemma birth_into_slot_freed_in_same_tick :
  let state := example_state agents_full_house 0 in
  count_true (negb <$> are_existing_agents (agents state)) = 0%nat ∧
  (are_newborns_agents ∘ step_eco_information)
    <$> step cfg_single state [5; 5; 5] example_draws
  = Some [true; false; false] ∧
  (indexes_parents ∘ step_eco_information)
    <$> step cfg_single state [5; 5; 5] example_draws
  = Some [1; 3; 3]%nat.
Proof. vm_compute. repeat split; reflexivity. Qed.

(** C2 (amended). In the reproduction phase of a step an agent reproduces
    only if it exists, has more energy than [energy_req_reprod], is at
    least [infancy_duration] old, and its facing cell is empty in the
    occupancy channel as refreshed after the action phase: facing cell,
    energy and occupancy are those of the state the action phase returns,
    after movement and deaths, not those of the start of the tick. *)
Theorem reproduction_reads_refreshed_occupancy cfg state actions draws out :
  0 < width cfg → 0 < height cfg →
  wf_agents cfg (agents state) →
  length actions = n_agents_max cfg →
  length (uniform_action draws) = n_agents_max cfg →
  (idx_agents < length (map state))%nat →
  step cfg state actions draws = Some out →
  ∃ s1 r,
    step_agents_interaction cfg state actions draws = Some s1 ∧
    step_reproduce_agents cfg s1 actions (noise_appearances draws) = Some r ∧
    ∀ i, repr_agents_reprod r !! i = Some true →
      ∃ e a f,
        are_existing_agents (agents s1) !! i = Some true ∧
        energy_agents (agents s1) !! i = Some e ∧ (energy_req_reprod cfg < e)%Q ∧
        age_agents (agents s1) !! i = Some a ∧ infancy_duration cfg ≤ a ∧
        facing_positions_of cfg (agents s1) !! i = Some f ∧
        (grid_at (channel (map s1) idx_agents) f == 0)%Q ∧
        occupancy (agents s1) f = 0%nat.
Proof.
  intros HW HH Hwf Hact Hkey Hmap Hstep.
  apply step_inv in Hstep as (s1 & r & Hs1 & Hr & _).
  exists s1, r. do 2 (split; [done|]).
  pose proof Hs1 as (s0 & Hs0 & ->)%step_agents_interaction_inv.
  destruct (step_action_agents_wf _ _ _ _ _ Hwf Hact Hkey Hs0) as [Hwf0 _].
  pose proof (step_action_agents_map_length _ _ _ _ _ Hs0) as Hlmap.
  pose proof Hr as (trying & Htry & Hrep & _)%step_reproduce_agents_inv.
  cbn zeta in Hrep.
  intros i Hi. rewrite Hrep in Hi.
  assert (trying !! i = Some true) as Hti.
  { assert (is_Some (trying !! i)) as [b Hb].
    { apply lookup_lt_is_Some. rewrite <- (length_agents_allowed_reprod trying
        (n_newborns_of trying (are_existing_agents (agents (update_agent_map s0))))).
      by eapply lookup_lt_Some. }
    rewrite (agents_allowed_reprod_lookup _ _ _ _ Hb) in Hi.
    injection Hi as Hi. by apply andb_true_iff in Hi as [_ ->]. }
  destruct (agents_trying_reprod_true cfg (update_agent_map s0) actions trying i
              HW HH Hwf0 Htry Hti)
    as (e & a & f & He & Hreq & Ha & Hage & Hex & Hf & Hempty & _).
  exists e, a, f. split_and!; try done.
  assert (occupancy_channel_ok cfg (update_agent_map s0)) as Hocc.
  { apply update_agent_map_occupancy_ok. lia. }
  assert (in_grid cfg f) as Hin.
  { apply facing_positions_lookup in Hf as (? & ? & _ & _ & ->).
    by apply get_facing_pos_in_grid. }
  specialize (Hocc f Hin). rewrite Hempty in Hocc.
  assert (inject_Z (Z.of_nat (occupancy (agents (update_agent_map s0)) f))
          == inject_Z 0)%Q as Hz by (by rewrite <- Hocc).
  apply (proj1 (inject_Z_injective _ _)) in Hz. lia.
Qed.

Lemma parent_behind_mover_step_returns :
  is_Some (step cfg_single (example_state agents_parent_behind_mover 0) [5; 0; 5]
             example_draws).
Proof. apply (bool_decide_unpack _). vm_compute. exact I. Qed.

Lemma reproduction_reads_refreshed_occupancy_witness :
  ∃ out s1 r,
    step cfg_single (example_state agents_parent_behind_mover 0) [5; 0; 5] example_draws
      = Some out ∧
    step_agents_interaction cfg_single (example_state agents_parent_behind_mover 0)
      [5; 0; 5] example_draws = Some s1 ∧
    step_reproduce_agents cfg_single s1 [5; 0; 5] (noise_appearances example_draws)
      = Some r ∧
    ∀ i, repr_agents_reprod r !! i = Some true →
      ∃ f, facing_positions_of cfg_single (agents s1) !! i = Some f ∧
           occupancy (agents s1) f = 0%nat.
Proof.
  destruct parent_behind_mover_step_returns as [out Hstep].
  destruct (reproduction_reads_refreshed_occupancy cfg_single
              (example_state agents_parent_behind_mover 0) [5; 0; 5] example_draws out
              eq_refl eq_refl ltac:(repeat split) eq_refl eq_refl
              ltac:(cbv; lia) Hstep)
    as (s1 & r & Hs1 & Hr & Hall).
  exists out, s1, r. split_and!; [done..|].
  intros i Hi. destruct (Hall i Hi) as (e & a & f & _ & _ & _ & _ & _ & Hf & _ & Hocc).
  by exists f.
Defined.

(** C2, as stated, fails: the cell slot 0 faces, (1, 0), is occupied by
    slot 1 in the occupancy channel at the start of the tick; slot 1 steps
    away in the movement phase, and slot 0 reproduces into (1, 0) in the
    same tick. *)
Lemma reproduction_into_cell_occupied_at_tick_start :
  let state := example_state agents_parent_behind_mover 0 in
  let actions := [5; 0; 5] in
  facing_positions_of cfg_single (agents state) !! 0%nat = Some (1, 0) ∧
  (grid_at (channel (map state) idx_agents) (1%Z, 0%Z) == 1)%Q ∧
  ((λ s1, facing_positions_of cfg_single (agents s1) !! 0%nat)
     <$> step_agents_interaction cfg_single state actions example_draws)
  = Some (Some (1, 0)) ∧
  ((λ s1, repr_agents_reprod
     <$> step_reproduce_agents cfg_single s1 actions (noise_appearances example_draws))
     <$> step_agents_interaction cfg_single state actions example_draws)
  = Some (Some [true; false; false]) ∧
  (are_newborns_agents ∘ step_eco_information)
    <$> step cfg_single state actions example_draws
  = Some [false; false; true] ∧
  (positions_agents ∘ agents ∘ step_state)
    <$> step cfg_single state actions example_draws
  = Some [(0, 0); (2, 0); (1, 0)].
Proof. vm_compute. repeat split; reflexivity. Qed.

(** ** Energy bounds *)





(** ** The sun *)

Lemma round_half_even_inject_Z z : round_half_even (inject_Z z) = z.
Proof.
  unfold round_half_even. rewrite Qfloor_Z.
  assert (Qltb (inject_Z z - inject_Z z) (1 # 2) = true) as ->; [|done].
  apply Qltb_lt. ring_simplify. reflexivity.
Qed.

Lemma astype_int32_small x : - 2 ^ 31 ≤ x < 2 ^ 31 → astype_int32 x = x.
Proof. intros Hx. unfold astype_int32. rewrite Z.mod_small; lia. Qed.

Lemma step_update_sun_linear cfg state draws state' :
  method_sun cfg = SunLinear →
  step_update_sun cfg state draws = Some state' →
  period_sun cfg ≠ 0 ∧
  latitude_sun state'
  = Some (astype_int32 (height cfg / 2 + height cfg * timestep state / period_sun cfg)
            mod height cfg).
Proof.
  unfold step_update_sun. intros -> Hs.
  case_bool_decide; [done|]. split; [done|].
  destruct (latitude_sun state); [|done]. simpl in Hs. injection Hs as <-. simpl.
  by rewrite round_half_even_inject_Z.
Qed.

Lemma step_latitude cfg state actions draws out :
  step cfg state actions draws = Some out →
  ∃ s s',
    timestep s = timestep state ∧
    step_update_sun cfg s draws = Some s' ∧
    latitude_sun (step_state out) = latitude_sun s'.
Proof.
  unfold step, step_agents_interaction. intros Hs.
  destruct (step_action_agents cfg state actions draws) as [s0|] eqn:Hs0; [|done].
  simpl in Hs.
  destruct (step_reproduce_agents cfg _ actions (noise_appearances draws)) as [r|]
    eqn:Hr; [|done].
  simpl in Hs. case_guard; [|done]. simpl in Hs. injection Hs as <-. simpl.
  apply step_reproduce_agents_inv in Hr as (_ & _ & _ & _ & _ & _ & _ & _ & _ & ->).
  simpl.
  unfold step_action_agents in Hs0.
  destruct (_ cfg (uniform_action draws) state actions) as [[[np no] fp]|]; [|done].
  simpl in Hs0. case_guard; [|done]. simpl in Hs0.
  destruct (action_to_idx cfg "eat"); [|done]. simpl in Hs0.
  destruct (if in_list_actions cfg "transfer" then _ else _); [|done]. simpl in Hs0.
  destruct (action_to_idx cfg "idle"); [|done]. simpl in Hs0.
  match type of Hs0 with
  | step_update_sun cfg ?s draws ≫= _ = _ =>
      destruct (step_update_sun cfg s draws) as [s'|] eqn:Hsun; [|done];
      exists s, s'
  end.
  simpl in Hs0. injection Hs0 as <-. done.
Qed.

(** C8. With the "linear" sun, the latitude a tick computes is the
    rounded value [H // 2 + H * t // P], cast to int32 and wrapped modulo
    the height [H], where [t] is the timestep the tick starts from; the
    latitude after the tick started at timestep [P] is the latitude after
    the tick started at timestep 0, namely [H // 2], which is also the
    latitude [reset] sets. *)
Theorem sun_linear_latitude_periodic cfg :
  method_sun cfg = SunLinear →
  0 < height cfg →
  height cfg / 2 + height cfg < 2 ^ 31 →
  (∀ state actions draws out,
     step cfg state actions draws = Some out →
     ∃ l, latitude_sun (step_state out) = Some l ∧
          0 ≤ l < height cfg ∧
          l = astype_int32
                (round_half_even
                   (inject_Z (height cfg / 2
                              + height cfg * timestep state / period_sun cfg)))
              mod height cfg) ∧
  (∀ state0 stateP actions0 actionsP draws0 drawsP out0 outP,
     timestep state0 = 0 →
     timestep stateP = period_sun cfg →
     step cfg state0 actions0 draws0 = Some out0 →
     step cfg stateP actionsP drawsP = Some outP →
     latitude_sun (step_state outP) = latitude_sun (step_state out0) ∧
     latitude_sun (step_state out0) = Some (height cfg / 2)) ∧
  (∀ draws state obs eco done,
     reset cfg draws = Some (state, obs, eco, done) →
     timestep state = 0 ∧ latitude_sun state = Some (height cfg / 2)).
Proof.
  intros Hlin HH Hrange.
  assert (Hhalf : 0 ≤ height cfg / 2 < height cfg).
  { split; [apply Z.div_pos; lia|apply Z.div_lt_upper_bound; lia]. }
  assert (Hlat : ∀ state actions draws out,
     step cfg state actions draws = Some out →
     period_sun cfg ≠ 0 ∧
     latitude_sun (step_state out)
     = Some (astype_int32 (height cfg / 2 + height cfg * timestep state / period_sun cfg)
               mod height cfg)).
  { intros state actions draws out (s & s' & Ht & Hsun & ->)%step_latitude.
    rewrite <- Ht. exact (step_update_sun_linear cfg s draws s' Hlin Hsun). }
  split_and!.
  - intros state actions draws out [_ Hl]%Hlat. eexists. split; [exact Hl|].
    split; [apply Z.mod_pos_bound; lia|]. by rewrite round_half_even_inject_Z.
  - intros state0 stateP actions0 actionsP draws0 drawsP out0 outP Ht0 HtP H0 HP.
    apply Hlat in H0 as [HPne ->]. apply Hlat in HP as [_ ->].
    rewrite Ht0, HtP, Z.mul_0_r, Z.div_0_l, Z.add_0_r by done.
    rewrite Z.div_mul by done.
    rewrite !astype_int32_small by lia.
    rewrite <- (Z.mul_1_l (height cfg)) at 2. rewrite Z.mod_add by lia.
    by rewrite Z.mod_small.
  - intros draws state obs eco done Hreset. unfold reset in Hreset.
    rewrite Hlin in Hreset.
    destruct (random_choice_no_replace _ _ _) as [pos_indices|]; [|done].
    simpl in Hreset. case_guard; [|done]. simpl in Hreset.
    by injection Hreset as <- _ _ _.
Qed.

Lemma tick_0_step_returns :
  is_Some (step cfg_single (example_state agents_idle_at_threshold 0) [5; 5; 5]
             example_draws).
Proof. apply (bool_decide_unpack _). vm_compute. exact I. Qed.

Lemma tick_10_step_returns :
  is_Some (step cfg_single (example_state agents_idle_at_threshold 10) [5; 5; 5]
             example_draws).
Proof. apply (bool_decide_unpack _). vm_compute. exact I. Qed.

Lemma sun_linear_latitude_periodic_witness :
  ∃ out0 outP,
    step cfg_single (example_state agents_idle_at_threshold 0) [5; 5; 5] example_draws
      = Some out0 ∧
    step cfg_single (example_state agents_idle_at_threshold (period_sun cfg_single))
      [5; 5; 5] example_draws = Some outP ∧
    latitude_sun (step_state outP) = latitude_sun (step_state out0) ∧
    latitude_sun (step_state out0) = Some 1.
Proof.
  destruct tick_0_step_returns as [out0 H0].
  destruct tick_10_step_returns as [outP HP].
  exists out0, outP. split; [exact H0|]. split; [exact HP|].
  exact (proj1 (proj2 (sun_linear_latitude_periodic cfg_single eq_refl eq_refl eq_refl))
           (example_state agents_idle_at_threshold 0)
           (example_state agents_idle_at_threshold 10)
           [5; 5; 5] [5; 5; 5] example_draws example_draws out0 outP
           eq_refl eq_refl H0 HP).
Defined.

(** ** The action table *)

Lemma index_last_None name l k : index_last name l k = None ↔ name ∉ l.
Proof.
  revert k. induction l as [|a l IH]; intros k; simpl.
  - split; [intros _; apply not_elem_of_nil|done].
  - destruct (index_last name l (k + 1)) as [j|] eqn:Hj.
    + split; [done|]. intros Hn. exfalso. apply Hn. right.
      destruct (decide (name ∈ l)) as [Hin|Hin]; [done|].
      apply (IH (k + 1)) in Hin. congruence.
    + apply (IH (k + 1)) in Hj. destruct (String.eqb a name) eqn:Ha.
      * apply String.eqb_eq in Ha. subst. split; [done|]. intros Hn. exfalso.
        apply Hn. left.
      * apply String.eqb_neq in Ha. split; [|done]. intros _.
        intros [->|Hin]%elem_of_cons; [done|]. by apply Hj.
Qed.

Lemma index_last_later name l k j i :
  index_last name l k = Some j → (Z.to_nat (j - k) < i)%nat → l !! i ≠ Some name.
Proof.
  revert k i. induction l as [|a l IH]; intros k i; simpl; [done|].
  destruct (index_last name l (k + 1)) as [j'|] eqn:Hj.
  - intros [= ->] Hi. destruct i as [|i]; [lia|]. simpl.
    apply index_last_Some in Hj as Hb.
    eapply IH; [exact Hj|]. lia.
  - destruct (String.eqb a name); [|done]. intros [= ->] Hi.
    destruct i as [|i]; [lia|]. simpl. apply index_last_None in Hj.
    intros Hl. apply Hj. by eapply list_elem_of_lookup_2.
Qed.

Lemma action_to_idx_None cfg name :
  action_to_idx cfg name = None ↔ name ∉ list_actions cfg.
Proof. apply index_last_None. Qed.

(** X1. [action_to_idx] is the dictionary built from [enumerate(list_actions)]:
    looking up a name that is not listed fails (the [KeyError] of the
    source); a listed name gives an index inside the list at which the
    name stands, and, for a name listed more than once, the index of its
    last occurrence. *)
Theorem action_to_idx_spec cfg name :
  (action_to_idx cfg name = None ↔ name ∉ list_actions cfg) ∧
  (∀ j, action_to_idx cfg name = Some j →
     0 ≤ j < Z.of_nat (length (list_actions cfg)) ∧
     list_actions cfg !! Z.to_nat j = Some name ∧
     ∀ i, (Z.to_nat j < i)%nat → list_actions cfg !! i ≠ Some name).
Proof.
  split; [apply action_to_idx_None|]. unfold action_to_idx.
  intros j Hj. pose proof (index_last_Some _ _ _ _ Hj) as [H0 Hl].
  rewrite Z.sub_0_r in Hl. split_and!; [done| |done|].
  - apply lookup_lt_Some in Hl. lia.
  - intros i Hi. eapply index_last_later; [exact Hj|]. by rewrite Z.sub_0_r.
Qed.

Lemma action_to_idx_is_Some cfg name :
  is_Some (action_to_idx cfg name) ↔ name ∈ list_actions cfg.
Proof.
  unfold action_to_idx. rewrite <-not_eq_None_Some, index_last_None.
  split; [apply dec_stable|]. by intros ? ?.
Qed.

(** ** Facing cells and turns *)

Lemma d_pos_opposite o : 0 ≤ o < 4 →
  (d_pos ((o + 2) mod 4)).1 = - (d_pos o).1 ∧ (d_pos ((o + 2) mod 4)).2 = - (d_pos o).2.
Proof.
  intros Ho. assert (o = 0 ∨ o = 1 ∨ o = 2 ∨ o = 3) as [-> | [-> | [-> | ->]]] by lia;
    by vm_compute.
Qed.

(** X2. The cell an agent faces lies inside the grid whatever its position
    (the map is a torus), and facing is reversible: from the faced cell,
    the opposite orientation faces the cell the agent stands on. *)
Theorem get_facing_pos_wraps_and_reverses cfg p o :
  0 < height cfg → 0 < width cfg → 0 ≤ o < 4 →
  in_grid cfg (get_facing_pos cfg p o) ∧
  (in_grid cfg p →
   get_facing_pos cfg (get_facing_pos cfg p o) ((o + 2) mod 4) = p).
Proof.
  intros HH HW Ho. split; [by apply get_facing_pos_in_grid|].
  intros [Hp1 Hp2]. destruct (d_pos_opposite o Ho) as [H1 H2].
  unfold get_facing_pos. cbn [fst snd]. rewrite H1, H2.
  destruct p as [r c]. cbn [fst snd] in *. f_equal.
  - rewrite Zplus_mod_idemp_l.
    replace (r + (d_pos o).1 + - (d_pos o).1) with r by lia.
    by apply Z.mod_small.
  - rewrite Zplus_mod_idemp_l.
    replace (c + (d_pos o).2 + - (d_pos o).2) with c by lia.
    by apply Z.mod_small.
Qed.

Lemma get_facing_pos_wraps_and_reverses_witness :
  in_grid cfg_single (get_facing_pos cfg_single (2, 0) 0) ∧
  get_facing_pos cfg_single (get_facing_pos cfg_single (2, 0) 0) ((0 + 2) mod 4) = (2, 0).
Proof.
  destruct (get_facing_pos_wraps_and_reverses cfg_single (2, 0) 0) as [H1 H2];
    [reflexivity|reflexivity|lia|].
  split; [exact H1|]. apply H2. vm_compute. repeat split; congruence.
Defined.

Lemma compute_new_orientations_Some cfg curr actions no :
  compute_new_orientations cfg curr actions = Some no →
  ∃ left right,
    action_to_idx cfg "left" = Some left ∧ action_to_idx cfg "right" = Some right ∧
    left ≠ right ∧
    ∀ i o a, curr !! i = Some o → actions !! i = Some a →
      no !! i = Some (if bool_decide (a = left) then (o + 1) mod 4
                      else if bool_decide (a = right) then (o + 3) mod 4
                      else o mod 4).
Proof.
  unfold compute_new_orientations. intros Hno.
  destruct (action_to_idx cfg "left") as [left|] eqn:Hl; [|done].
  destruct (action_to_idx cfg "right") as [right|] eqn:Hr; [|done].
  simpl in Hno. injection Hno as <-. exists left, right.
  assert (left ≠ right) as Hlr.
  { intros ->. by pose proof (action_to_idx_inj _ _ _ _ Hl Hr). }
  split_and!; [done..|]. intros i o a Ho Ha.
  rewrite lookup_zip_with, Ho. simpl.
  rewrite lookup_zip_with, !list_lookup_fmap, Ha. simpl. f_equal.
  repeat case_bool_decide; subst; try done; f_equal; lia.
Qed.

(** X3. [compute_new_orientations] fails exactly when "left" or "right" is
    missing from the action list.  Otherwise every new orientation lies in
    [0, 4); "left" adds a quarter turn, "right" adds three, any other
    action leaves the orientation (reduced modulo 4); and a "left" followed
    by a "right" gives the orientation back. *)
Theorem compute_new_orientations_turns cfg curr actions :
  length actions = length curr →
  (is_Some (compute_new_orientations cfg curr actions) ↔
   "left" ∈ list_actions cfg ∧ "right" ∈ list_actions cfg) ∧
  (∀ no, compute_new_orientations cfg curr actions = Some no →
     length no = length curr ∧
     ∃ left right,
       action_to_idx cfg "left" = Some left ∧ action_to_idx cfg "right" = Some right ∧
       (∀ i o a, curr !! i = Some o → actions !! i = Some a →
          ∃ o', no !! i = Some o' ∧ 0 ≤ o' < 4 ∧
                o' = if bool_decide (a = left) then (o + 1) mod 4
                     else if bool_decide (a = right) then (o + 3) mod 4
                     else o mod 4) ∧
       (∀ actions' no' i o,
          length actions' = length curr →
          compute_new_orientations cfg no actions' = Some no' →
          curr !! i = Some o → actions !! i = Some left → actions' !! i = Some right →
          no' !! i = Some (o mod 4))).
Proof.
  intros Hlen. split.
  - rewrite <- !action_to_idx_is_Some. unfold compute_new_orientations.
    destruct (action_to_idx cfg "left"), (action_to_idx cfg "right"); simpl;
      split; try done; try (intros [[] []]; done); try (intros []; done).
  - intros no Hno. split.
    { eapply length_compute_new_orientations; [reflexivity|exact Hlen|exact Hno]. }
    destruct (compute_new_orientations_Some _ _ _ _ Hno)
      as (left & right & Hl & Hr & Hlr & Hspec).
    exists left, right. split_and!; [done..| |].
    + intros i o a Ho Ha. eexists. split; [by apply Hspec|]. split; [|done].
      repeat case_bool_decide; apply Z.mod_pos_bound; lia.
    + intros actions' no' i o Hlen' Hno' Ho Ha Ha'.
      destruct (compute_new_orientations_Some _ _ _ _ Hno')
        as (left' & right' & Hl' & Hr' & _ & Hspec').
      simplify_eq.
      specialize (Hspec i o left Ho Ha). rewrite (bool_decide_eq_true_2 (left = left)) in Hspec by done.
      rewrite (Hspec' _ _ _ Hspec Ha').
      rewrite (bool_decide_eq_false_2 (right = left)) by done.
      rewrite (bool_decide_eq_true_2 (right = right)) by done. f_equal.
      rewrite Zplus_mod_idemp_l. replace (o + 1 + 3) with (o + 1 * 4) by lia.
      by rewrite Z_mod_plus_full.
Qed.

Lemma compute_new_orientations_turns_witness :
  ∃ no, compute_new_orientations cfg_single [0; 3; 2] [1; 2; 5] = Some no ∧
        length no = 3%nat ∧ no !! 1%nat = Some 2.
Proof.
  destruct (compute_new_orientations_turns cfg_single [0; 3; 2] [1; 2; 5] eq_refl)
    as [[_ Hsome] Hspec].
  destruct Hsome as [no Hno]; [split; apply (bool_decide_unpack _); vm_compute; exact I|].
  exists no. split; [exact Hno|].
  destruct (Hspec no Hno) as (Hlen & left & right & Hl & Hr & Hturn & _).
  split; [exact Hlen|].
  destruct (Hturn 1%nat 3 2 eq_refl eq_refl) as (o' & Ho' & _ & Heq).
  rewrite Ho'. f_equal. rewrite Heq.
  vm_compute in Hl, Hr. injection Hl as <-. injection Hr as <-. reflexivity.
Defined.

(** ** Movement, slot by slot *)

Lemma compute_new_positions_lookup_eq cfg key curr facing is_moving ages i p f
    (m : bool) age u :
  curr !! i = Some p → facing !! i = Some f → is_moving !! i = Some m →
  ages !! i = Some age → key !! i = Some u →
  compute_new_positions cfg key curr facing is_moving ages !! i
  = Some (if m && Qltb u (if bool_decide (age < infancy_duration cfg)
                          then infant_move_prob cfg else 1%Q)
          then f else p).
Proof.
  intros Hp Hf Hm Hage Hu. unfold compute_new_positions, bernoulli, is_infant_of.
  apply lookup_zip_with_Some.
  exists (m && Qltb u (if bool_decide (age < infancy_duration cfg)
                       then infant_move_prob cfg else 1%Q)), (f, p).
  split_and!; [done| |].
  - apply lookup_zip_with_Some. eexists _, _. split_and!; [done|exact Hm|].
    apply lookup_zip_with_Some. eexists _, _. split_and!; [done|exact Hu|].
    by rewrite !list_lookup_fmap, Hage.
  - apply lookup_zip_with_Some. by eexists _, _.
Qed.

(** X4. With several agents allowed per tile, a slot ends the movement on
    the cell it faces exactly when it chose "forward" and its draw
    succeeded (an adult's draw succeeds whenever the uniform sample is
    below 1); otherwise it stays.  Neither the occupancy of the target nor
    the existence flag of the slot is consulted. *)
Theorem move_agents_allow_multiple_occupancy_spec cfg key state actions np no fp :
  wf_agents cfg (agents state) →
  length actions = n_agents_max cfg →
  length key = n_agents_max cfg →
  move_agents_allow_multiple_occupancy cfg key state actions = Some (np, no, fp) →
  fp = facing_positions_of cfg (agents state) ∧
  length np = n_agents_max cfg ∧
  ∃ forward, action_to_idx cfg "forward" = Some forward ∧
    ∀ i p f a age u,
      positions_agents (agents state) !! i = Some p → fp !! i = Some f →
      actions !! i = Some a → age_agents (agents state) !! i = Some age →
      key !! i = Some u →
      np !! i = Some (if bool_decide (a = forward)
                         && Qltb u (if bool_decide (age < infancy_duration cfg)
                                    then infant_move_prob cfg else 1%Q)
                      then f else p) ∧
      (a = forward → infancy_duration cfg ≤ age → (u < 1)%Q → np !! i = Some f) ∧
      (a ≠ forward → np !! i = Some p).
Proof.
  intros Hwf Hla Hlk Hmove.
  pose proof (move_func_length cfg key state actions np no fp Hwf Hla Hlk) as Hlen.
  unfold move_agents_allow_multiple_occupancy in Hmove.
  destruct (action_to_idx cfg "forward") as [forward|] eqn:Hfwd; [|done].
  simpl in Hmove.
  destruct (compute_new_orientations _ _ _) as [no'|] eqn:Hno; [|done].
  simpl in Hmove. injection Hmove as <- <- <-.
  split; [done|]. split.
  { destruct Hwf as (Hlp & Hlo & _ & _ & Hlage & _).
    apply length_compute_new_positions; rewrite ?length_fmap, ?length_facing_positions;
      lia. }
  exists forward. split; [done|]. intros i p f a age u Hp Hf Ha Hage Hu.
  assert (Hnp : compute_new_positions cfg key (positions_agents (agents state))
                  (facing_positions_of cfg (agents state))
                  ((λ a, bool_decide (a = forward)) <$> actions)
                  (age_agents (agents state)) !! i
                = Some (if bool_decide (a = forward)
                           && Qltb u (if bool_decide (age < infancy_duration cfg)
                                      then infant_move_prob cfg else 1%Q)
                        then f else p)).
  { apply compute_new_positions_lookup_eq; try done.
    by rewrite list_lookup_fmap, Ha. }
  split; [done|]. split.
  - intros -> Hadult Hu1. rewrite Hnp.
    rewrite bool_decide_eq_true_2 by done.
    rewrite (bool_decide_eq_false_2 (age < _)) by lia.
    by rewrite (proj2 (Qltb_lt u 1) Hu1).
  - intros Hne. rewrite Hnp. by rewrite bool_decide_eq_false_2.
Qed.

Lemma move_agents_allow_multiple_occupancy_spec_witness :
  ∃ np no fp,
    move_agents_allow_multiple_occupancy cfg_multi (uniform_action example_draws)
      (example_state agents_facing_same_cell 0) [0; 0; 5] = Some (np, no, fp) ∧
    np !! 0%nat = Some (1, 1) ∧ np !! 1%nat = Some (1, 1).
Proof.
  assert (Hm : move_agents_allow_multiple_occupancy cfg_multi (uniform_action example_draws)
                 (example_state agents_facing_same_cell 0) [0; 0; 5]
               = Some ([(1, 1); (1, 1); (2, 2)], [0; 3; 0], [(1, 1); (1, 1); (0, 2)]))
    by (vm_compute; reflexivity).
  eexists _, _, _. split; [exact Hm|].
  destruct (move_agents_allow_multiple_occupancy_spec cfg_multi
              (uniform_action example_draws) (example_state agents_facing_same_cell 0)
              [0; 0; 5] _ _ _ ltac:(repeat split) eq_refl eq_refl Hm)
    as (_ & _ & forward & Hfwd & Hslot).
  vm_compute in Hfwd. injection Hfwd as <-.
  split.
  - apply (Hslot 0%nat (0, 1) (1, 1) 0 5 (1 # 4)%Q eq_refl eq_refl eq_refl eq_refl eq_refl);
      [reflexivity|vm_compute; congruence|reflexivity].
  - apply (Hslot 1%nat (1, 0) (1, 1) 0 5 (3 # 4)%Q eq_refl eq_refl eq_refl eq_refl eq_refl);
      [reflexivity|vm_compute; congruence|reflexivity].
Defined.

(** X5. In single-occupancy mode a slot ends the movement on the cell it
    faces exactly when it chose "forward", the occupancy channel shows the
    faced cell empty, no slot of lower index faces the same cell, and its
    draw succeeded; in every other case it stays where it is. *)
Theorem move_agents_enforce_single_occupancy_moves cfg key state actions np no fp
    forward i p f age u :
  0 < height cfg → 0 < width cfg →
  wf_agents cfg (agents state) →
  length actions = n_agents_max cfg →
  length key = n_agents_max cfg →
  move_agents_enforce_single_occupancy cfg key state actions = Some (np, no, fp) →
  action_to_idx cfg "forward" = Some forward →
  positions_agents (agents state) !! i = Some p →
  facing_positions_of cfg (agents state) !! i = Some f →
  age_agents (agents state) !! i = Some age →
  key !! i = Some u →
  let success :=
    Qltb u (if bool_decide (age < infancy_duration cfg)
            then infant_move_prob cfg else 1%Q) in
  (may_move cfg state actions forward i f → success = true → np !! i = Some f) ∧
  (¬ may_move cfg state actions forward i f ∨ success = false → np !! i = Some p).
Proof.
  intros HH HW Hwf Hla Hlk Hmove Hfwd Hp Hf Hage Hu success.
  pose proof (move_agents_enforce_single_occupancy_spec _ _ _ _ _ _ _ HH HW Hwf Hla Hmove)
    as (-> & forward' & Hfwd' & Hspec).
  assert (forward' = forward) as -> by congruence.
  destruct Hwf as (Hlp & Hlo & _ & _ & Hlage & _).
  unfold move_agents_enforce_single_occupancy in Hmove. rewrite Hfwd in Hmove.
  simpl in Hmove.
  destruct (compute_new_orientations _ _ _) as [no'|]; [|done].
  simpl in Hmove. injection Hmove as <- <-.
  set (tiles := facing_tiles_of cfg (facing_positions_of cfg (agents state))) in *.
  set (pre := zip_with _ _ (facing_positions_of cfg (agents state))) in *.
  assert (Hlf : length (facing_positions_of cfg (agents state)) = n_agents_max cfg).
  { rewrite length_facing_positions. lia. }
  assert (Hlt : length tiles = n_agents_max cfg).
  { unfold tiles, facing_tiles_of. by rewrite length_fmap. }
  assert (Hlpre : length pre = n_agents_max cfg).
  { unfold pre. rewrite length_zip_with, length_fmap. lia. }
  assert (tiles !! i = Some (f.1 * width cfg + f.2)) as Ht.
  { unfold tiles, facing_tiles_of. by rewrite list_lookup_fmap, Hf. }
  assert (is_Some (actions !! i)) as [a Ha].
  { apply lookup_lt_is_Some. rewrite Hla, <- Hlp. by eapply lookup_lt_Some. }
  assert (Hb : pre !! i = Some (bool_decide (a = forward)
                                && Qeq_bool (grid_at (channel (map state) idx_agents) f) 0)).
  { unfold pre. apply lookup_zip_with_Some. eexists _, _. split_and!; [done| |exact Hf].
    by rewrite list_lookup_fmap, Ha. }
  pose proof (keep_first_per_tile_lookup _ _ _ Hlt Hlpre _ _ _ Hb Ht) as Hkeep.
  pose proof (compute_new_positions_lookup_eq cfg key _ _ _ _ i p f _ age u
                Hp Hf Hkeep Hage Hu) as Hnp.
  fold success in Hnp. split.
  - intros (Hact & Hempty & Hfirst) Hsucc. rewrite Hnp, Hsucc.
    assert (a = forward) as -> by congruence.
    rewrite bool_decide_eq_true_2 by done.
    rewrite (proj2 (Qeq_bool_iff _ _) Hempty).
    rewrite bool_decide_eq_true_2; [done|].
    intros (j & Hj)%list_elem_of_lookup_1. apply lookup_take_Some in Hj as [Hj Hji].
    unfold tiles, facing_tiles_of in Hj. rewrite list_lookup_fmap in Hj.
    destruct (facing_positions_of cfg (agents state) !! j) as [f'|] eqn:Hf'; [|done].
    simpl in Hj. injection Hj as Hj. apply (Hfirst j f' Hji Hf').
    assert (in_grid cfg f').
    { apply facing_positions_lookup in Hf' as (? & ? & _ & _ & ->).
      by apply get_facing_pos_in_grid. }
    assert (in_grid cfg f).
    { apply facing_positions_lookup in Hf as (? & ? & _ & _ & ->).
      by apply get_facing_pos_in_grid. }
    by apply (facing_tiles_inj cfg).
  - intros Hcase.
    destruct (Hspec i _ Hnp) as (p' & f' & Hp' & Hf'' & Hq).
    assert (p' = p) as -> by congruence. assert (f' = f) as -> by congruence.
    destruct Hcase as [Hnot|Hfail].
    + destruct Hq as [Hq|[_ Hmay]]; [|done]. by rewrite Hnp, Hq.
    + rewrite Hnp, Hfail. by rewrite andb_false_r.
Qed.

Lemma move_agents_enforce_single_occupancy_moves_witness :
  ∃ np no fp,
    move_agents_enforce_single_occupancy cfg_single (uniform_action example_draws)
      (example_state agents_facing_same_cell 0) [0; 0; 5] = Some (np, no, fp) ∧
    np !! 0%nat = Some (1, 1) ∧ np !! 1%nat = Some (1, 0).
Proof.
  assert (Hm : move_agents_enforce_single_occupancy cfg_single (uniform_action example_draws)
                 (example_state agents_facing_same_cell 0) [0; 0; 5]
               = Some ([(1, 1); (1, 0); (2, 2)], [0; 3; 0], [(1, 1); (1, 1); (0, 2)]))
    by (vm_compute; reflexivity).
  eexists _, _, _. split; [exact Hm|]. split.
  - apply (move_agents_enforce_single_occupancy_moves cfg_single
             (uniform_action example_draws) (example_state agents_facing_same_cell 0)
             [0; 0; 5] _ _ _ 0 0%nat (0, 1) (1, 1) 5 (1 # 4)%Q
             eq_refl eq_refl ltac:(repeat split) eq_refl eq_refl Hm
             eq_refl eq_refl eq_refl eq_refl eq_refl); [|reflexivity].
    unfold may_move. split_and!; [reflexivity|reflexivity|intros j f' Hj; lia].
  - apply (move_agents_enforce_single_occupancy_moves cfg_single
             (uniform_action example_draws) (example_state agents_facing_same_cell 0)
             [0; 0; 5] _ _ _ 0 1%nat (1, 0) (1, 1) 5 (3 # 4)%Q
             eq_refl eq_refl ltac:(repeat split) eq_refl eq_refl Hm
             eq_refl eq_refl eq_refl eq_refl eq_refl).
    left. intros (_ & _ & Hfirst). apply (Hfirst 0%nat (1, 1)); [lia|reflexivity|reflexivity].
Defined.

(** ** The energy account of the action phase *)

Lemma clip_proper x y lo hi : (x == y)%Q → (clip x lo hi == clip y lo hi)%Q.
Proof. intros Hxy. unfold clip. by rewrite Hxy. Qed.

Lemma eating_agents_lookup cfg key a actions eat i (ex : bool) act age u :
  are_existing_agents a !! i = Some ex → actions !! i = Some act →
  age_agents a !! i = Some age → key !! i = Some u →
  eating_agents cfg key a actions eat !! i
  = Some (ex && bool_decide (act = eat)
          && Qltb u (if bool_decide (age < infancy_duration cfg)
                     then infant_eat_prob cfg else 1%Q)).
Proof.
  intros Hex Hact Hage Hu. unfold eating_agents, bernoulli, is_infant_of.
  apply lookup_zip_with_Some. eexists _, _. split_and!; [done| |].
  - apply lookup_zip_with_Some. by eexists _, _.
  - apply lookup_zip_with_Some. eexists _, _. split_and!; [done|exact Hu|].
    by rewrite !list_lookup_fmap, Hage.
Qed.

Lemma food_energy_bonus_not_eating cfg plants np eating ages i b :
  eating !! i = Some false →
  food_energy_bonus cfg plants np eating ages !! i = Some b → (b == 0)%Q.
Proof.
  unfold food_energy_bonus. intros He Hb.
  apply lookup_zip_with_Some in Hb as (x & inf & -> & Hx & _).
  apply lookup_zip_with_Some in Hx as (p & e' & -> & _ & He').
  rewrite He in He'. injection He' as <-. simpl. ring.
Qed.

(** The energy of a slot before the clamp: what it held, plus the food
    bonus, plus the transfers, minus the flat cost of its action. *)
Lemma energy_before_clamp_lookup cfg state actions draws np eat idle tr i e act
    (ex : bool) :
  wf_agents cfg (agents state) →
  length actions = n_agents_max cfg →
  length (uniform_action draws) = n_agents_max cfg →
  length np = n_agents_max cfg →
  (∀ t, tr = Some t → length t = n_agents_max cfg) →
  energy_agents (agents state) !! i = Some e →
  actions !! i = Some act →
  are_existing_agents (agents state) !! i = Some ex →
  ∃ b s (ti : bool) e0,
    food_energy_bonus cfg (channel (map state) idx_plants) np
      (eating_agents cfg (uniform_action draws) (agents state) actions eat)
      (age_agents (agents state)) !! i = Some b ∧
    match tr with
    | Some t => transfer_delta_energy_sum cfg (agents state) t !! i = Some s ∧
                t !! i = Some ti
    | None => s = 0%Q ∧ ti = false
    end ∧
    energy_before_clamp cfg state actions draws np eat idle tr !! i = Some e0 ∧
    (e0 == e + b + s
           - energy_loss_idle cfg * b2q (ex && bool_decide (act = idle))
           - energy_loss_action cfg
             * b2q (ex && negb (bool_decide (act = idle)) && negb ti))%Q.
Proof.
  intros (Hlp & Hlo & Hle & Hlen & Hla & _) Hact Hkey Hnp Htr Heni Hai Hei.
  assert (Hi : (i < n_agents_max cfg)%nat).
  { rewrite <- Hle. by eapply lookup_lt_Some. }
  set (a := agents state) in *.
  set (eating := eating_agents cfg (uniform_action draws) a actions eat).
  set (bonus := food_energy_bonus cfg (channel (map state) idx_plants) np eating
                  (age_agents a)).
  assert (is_Some (bonus !! i)) as [b Hb].
  { apply lookup_lt_is_Some. unfold bonus.
    rewrite (length_food_energy_bonus _ _ _ _ _ (n_agents_max cfg)); try done.
    apply length_eating_agents; done. }
  assert (∃ s ti, match tr with
                  | Some t => transfer_delta_energy_sum cfg a t !! i = Some s ∧
                              t !! i = Some ti
                  | None => s = 0%Q ∧ ti = false
                  end) as (s & ti & Hs).
  { destruct tr as [t|]; [|by exists 0%Q, false].
    assert (is_Some (transfer_delta_energy_sum cfg a t !! i)) as [s Hs].
    { apply lookup_lt_is_Some. rewrite length_transfer_delta_energy_sum; done. }
    assert (is_Some (t !! i)) as [ti Hti].
    { apply lookup_lt_is_Some. rewrite (Htr t eq_refl). done. }
    by exists s, ti. }
  exists b, s, ti.
  unfold energy_before_clamp. fold a. fold eating. fold bonus.
  set (E1 := zip_with Qplus (energy_agents a) bonus).
  assert (E1 !! i = Some (e + b)%Q) as HE1.
  { unfold E1. rewrite lookup_zip_with, Heni. simpl. by rewrite Hb. }
  set (E2 := match tr with Some t => _ | None => E1 end).
  assert (∃ e2, E2 !! i = Some e2 ∧ (e2 == e + b + s)%Q) as (e2 & HE2 & HE20).
  { unfold E2. destruct tr as [t|].
    - destruct Hs as [Hs _]. rewrite lookup_zip_with, HE1. simpl. rewrite Hs. simpl.
      eexists; split; [reflexivity|]. ring.
    - destruct Hs as [-> _]. eexists; split; [exact HE1|]. ring. }
  unfold energy_after_costs.
  set (idle_agents := zip_with _ (are_existing_agents a) actions).
  assert (idle_agents !! i = Some (ex && bool_decide (act = idle))) as Hidl.
  { unfold idle_agents. rewrite lookup_zip_with, Hei. simpl. by rewrite Hai. }
  set (not_idle := zip_with _ (are_existing_agents a) idle_agents).
  assert (not_idle !! i = Some (ex && negb (ex && bool_decide (act = idle)))) as Hnid.
  { unfold not_idle. rewrite lookup_zip_with, Hei. simpl. by rewrite Hidl. }
  set (not_idle' := match tr with Some t => _ | None => not_idle end).
  assert (not_idle' !! i
          = Some (ex && negb (bool_decide (act = idle)) && negb ti)) as Hnid'.
  { unfold not_idle'. destruct tr as [t|].
    - destruct Hs as [_ Hti]. rewrite lookup_zip_with, Hnid. simpl. rewrite Hti. simpl.
      f_equal. by destruct ex, (bool_decide (act = idle)), ti.
    - destruct Hs as [_ ->]. rewrite Hnid. f_equal.
      by destruct ex, (bool_decide (act = idle)). }
  assert (zip idle_agents not_idle' !! i
          = Some (ex && bool_decide (act = idle),
                  ex && negb (bool_decide (act = idle)) && negb ti)) as Hzip.
  { by apply lookup_zip_Some. }
  eexists. split_and!; [done|exact Hs| |].
  - rewrite lookup_zip_with, HE2. simpl. rewrite Hzip. simpl. reflexivity.
  - simpl. rewrite HE20. ring.
Qed.

Lemma transferring_agents_lookup a actions transfer i (ex : bool) act :
  are_existing_agents a !! i = Some ex → actions !! i = Some act →
  transferring_agents a actions transfer !! i = Some (ex && bool_decide (act = transfer)).
Proof.
  intros Hex Hact. unfold transferring_agents. rewrite lookup_zip_with, Hex. simpl.
  by rewrite Hact.
Qed.

Lemma are_receiving_from_ghost cfg a j i :
  are_existing_agents a !! i = Some false →
  (i < length (positions_agents a))%nat →
  are_receiving_from cfg a j !! i = Some false.
Proof.
  intros Hex Hi. unfold are_receiving_from.
  destruct (lookup_lt_is_Some_2 _ _ Hi) as [p Hp].
  rewrite lookup_zip_with, Hex. simpl. by rewrite Hp.
Qed.

Lemma step_action_agents_tr_length cfg state actions
    (tr : option (list bool)) :
  wf_agents cfg (agents state) →
  length actions = n_agents_max cfg →
  (if in_list_actions cfg "transfer"
   then ∃ transfer, action_to_idx cfg "transfer" = Some transfer ∧
                    tr = Some (transferring_agents (agents state) actions transfer)
   else tr = None) →
  ∀ t, tr = Some t → length t = n_agents_max cfg.
Proof.
  intros (_ & _ & Hle & _) Hla Htr t ->.
  destruct (in_list_actions cfg "transfer"); [|done].
  destruct Htr as (transfer & _ & [= ->]).
  by apply length_transferring_agents.
Qed.

(** X6. A slot that does not exist is inert in the action phase: it gets
    no food, takes part in no transfer and pays no cost, so its energy is
    only clamped to [0, energy_max]; it stays non-existing and its
    appearance vector is zero afterwards. *)
Theorem ghost_slot_inert_in_action_phase cfg state actions draws state' i e :
  wf_agents cfg (agents state) →
  length actions = n_agents_max cfg →
  length (uniform_action draws) = n_agents_max cfg →
  step_action_agents cfg state actions draws = Some state' →
  are_existing_agents (agents state) !! i = Some false →
  energy_agents (agents state) !! i = Some e →
  are_existing_agents (agents state') !! i = Some false ∧
  (∃ e', energy_agents (agents state') !! i = Some e' ∧
         (e' == clip e 0 (energy_max cfg))%Q) ∧
  (∃ app, appearance_agents (agents state') !! i = Some app ∧
          Forall (λ x, (x == 0)%Q) app).
Proof.
  intros Hwf Hla Hlk Hstep Hghost He.
  pose proof Hwf as (Hlp & Hlo & Hle & Hlen & Hlage & Hlapp & _).
  assert (Hi : (i < n_agents_max cfg)%nat).
  { rewrite <- Hle. by eapply lookup_lt_Some. }
  apply step_action_agents_inv in Hstep
    as (np & no & fp & eat & idle & tr & Hmove & Heat & Hidle & Htr & Hres).
  cbv zeta in Hres.
  destruct Hres as (_ & _ & Hen & Hex & _ & _ & _ & _ & Happ).
  pose proof (move_func_length _ _ _ _ _ _ _ Hwf Hla Hlk Hmove) as Hlnp.
  pose proof (step_action_agents_tr_length _ _ _ _ Hwf Hla Htr) as Hltr.
  destruct (lookup_lt_is_Some_2 actions i ltac:(lia)) as [act Hact].
  destruct (lookup_lt_is_Some_2 (age_agents (agents state)) i ltac:(lia)) as [age Hage].
  destruct (lookup_lt_is_Some_2 (uniform_action draws) i ltac:(lia)) as [u Hu].
  destruct (energy_before_clamp_lookup cfg state actions draws np eat idle tr i e act
              false Hwf Hla Hlk Hlnp Hltr He Hact Hghost)
    as (b & s & ti & e0 & Hb & Hs & He0 & Heq).
  assert (b == 0)%Q as Hb0.
  { eapply food_energy_bonus_not_eating; [|exact Hb].
    by rewrite (eating_agents_lookup _ _ _ _ _ _ _ _ _ _ Hghost Hact Hage Hu). }
  assert (s == 0)%Q as Hs0.
  { destruct tr as [t|]; [|by destruct Hs as [-> _]].
    destruct Hs as [Hs _].
    destruct (in_list_actions cfg "transfer"); [|done].
    destruct Htr as (transfer & _ & [= ->]).
    destruct (transfer_delta_energy_sum_zero cfg (agents state)
                (transferring_agents (agents state) actions transfer) i)
      as (s' & Hs' & Hs'0); try done.
    - by apply length_transferring_agents.
    - by rewrite (transferring_agents_lookup _ _ _ _ _ _ Hghost Hact).
    - intros j _. apply are_receiving_from_ghost; [done|lia].
    - congruence. }
  assert (He' : energy_agents (agents state') !! i
                = Some (clip e0 0 (energy_max cfg))).
  { rewrite Hen, list_lookup_fmap, He0. done. }
  assert (Hex' : are_existing_agents (agents state') !! i = Some false).
  { rewrite Hex. apply lookup_zip_with_Some.
    exists (clip e0 0 (energy_max cfg)), (false, age). split_and!.
    - simpl. by rewrite andb_false_r.
    - by rewrite <- Hen.
    - by apply lookup_zip_Some. }
  split; [done|]. split.
  - eexists. split; [exact He'|]. apply clip_proper. rewrite Heq, Hb0, Hs0.
    simpl. ring.
  - destruct (lookup_lt_is_Some_2 (appearance_agents (agents state)) i ltac:(lia))
      as [app Happ0].
    eexists. split.
    + rewrite Happ. apply lookup_zip_with_Some. by eexists _, _.
    + apply Forall_fmap, Forall_forall. intros x _. simpl. ring.
Qed.

Lemma ghost_slot_inert_in_action_phase_witness :
  ∃ state',
    step_action_agents cfg_single (example_state agents_idle_at_threshold 0)
      [5; 5; 0] example_draws = Some state' ∧
    are_existing_agents (agents state') !! 2%nat = Some false ∧
    ∃ e', energy_agents (agents state') !! 2%nat = Some e' ∧
          (e' == clip 0 0 (energy_max cfg_single))%Q.
Proof.
  assert (is_Some (step_action_agents cfg_single
                     (example_state agents_idle_at_threshold 0) [5; 5; 0] example_draws))
    as [state' Hs] by (apply (bool_decide_unpack _); vm_compute; exact I).
  exists state'. split; [exact Hs|].
  destruct (ghost_slot_inert_in_action_phase cfg_single
              (example_state agents_idle_at_threshold 0) [5; 5; 0] example_draws
              state' 2%nat 0%Q ltac:(repeat split) eq_refl eq_refl Hs eq_refl eq_refl)
    as (Hex & He & _).
  split; [exact Hex|exact He].
Defined.

(** X7. The energy account of an existing agent in the action phase: its
    energy becomes [clip(e + b + s - cost, 0, energy_max)], where [b] is its
    food bonus (zero unless it chose "eat"), [s] is the sum of the energy
    transfers that involve it (zero when the action list has no
    "transfer"), and the flat cost is [energy_loss_idle] for "idle",
    nothing for "transfer" when that action is listed, and
    [energy_loss_action] for every other action. *)
Theorem action_phase_energy_account cfg state actions draws state' i e act :
  wf_agents cfg (agents state) →
  length actions = n_agents_max cfg →
  length (uniform_action draws) = n_agents_max cfg →
  step_action_agents cfg state actions draws = Some state' →
  are_existing_agents (agents state) !! i = Some true →
  energy_agents (agents state) !! i = Some e →
  actions !! i = Some act →
  ∃ np no fp eat idle b s e',
    move_func cfg cfg (uniform_action draws) state actions = Some (np, no, fp) ∧
    action_to_idx cfg "eat" = Some eat ∧
    action_to_idx cfg "idle" = Some idle ∧
    food_energy_bonus cfg (channel (map state) idx_plants) np
      (eating_agents cfg (uniform_action draws) (agents state) actions eat)
      (age_agents (agents state)) !! i = Some b ∧
    (act ≠ eat → (b == 0)%Q) ∧
    match action_to_idx cfg "transfer" with
    | Some transfer =>
        transfer_delta_energy_sum cfg (agents state)
          (transferring_agents (agents state) actions transfer) !! i = Some s
    | None => s = 0%Q
    end ∧
    energy_agents (agents state') !! i = Some e' ∧
    let cost :=
      if bool_decide (act = idle) then energy_loss_idle cfg
      else if bool_decide (action_to_idx cfg "transfer" = Some act) then 0%Q
      else energy_loss_action cfg in
    (e' == clip (e + b + s - cost) 0 (energy_max cfg))%Q.
Proof.
  intros Hwf Hla Hlk Hstep Hex He Hact.
  pose proof Hwf as (Hlp & Hlo & Hle & Hlen & Hlage & Hlapp & _).
  assert (Hi : (i < n_agents_max cfg)%nat).
  { rewrite <- Hle. by eapply lookup_lt_Some. }
  apply step_action_agents_inv in Hstep
    as (np & no & fp & eat & idle & tr & Hmove & Heat & Hidle & Htr & Hres).
  cbv zeta in Hres. destruct Hres as (_ & _ & Hen & _).
  pose proof (move_func_length _ _ _ _ _ _ _ Hwf Hla Hlk Hmove) as Hlnp.
  pose proof (step_action_agents_tr_length _ _ _ _ Hwf Hla Htr) as Hltr.
  destruct (lookup_lt_is_Some_2 (age_agents (agents state)) i ltac:(lia)) as [age Hage].
  destruct (lookup_lt_is_Some_2 (uniform_action draws) i ltac:(lia)) as [u Hu].
  destruct (energy_before_clamp_lookup cfg state actions draws np eat idle tr i e act
              true Hwf Hla Hlk Hlnp Hltr He Hact Hex)
    as (b & s & ti & e0 & Hb & Hs & He0 & Heq).
  exists np, no, fp, eat, idle, b, s, (clip e0 0 (energy_max cfg)).
  split_and!; [done..| | | |].
  - intros Hne. eapply food_energy_bonus_not_eating; [|exact Hb].
    rewrite (eating_agents_lookup _ _ _ _ _ _ _ _ _ _ Hex Hact Hage Hu).
    by rewrite (bool_decide_eq_false_2 (act = eat)).
  - destruct (in_list_actions cfg "transfer") eqn:Hin.
    + destruct Htr as (transfer & Htransfer & ->). rewrite Htransfer. by destruct Hs.
    + subst tr. destruct Hs as [-> _]. apply bool_decide_eq_false in Hin.
      by rewrite (proj2 (action_to_idx_None cfg "transfer") Hin).
  - rewrite Hen, list_lookup_fmap, He0. done.
  - cbv zeta. apply clip_proper. rewrite Heq. simpl.
    assert (ti = bool_decide (action_to_idx cfg "transfer" = Some act)) as ->.
    { destruct (in_list_actions cfg "transfer") eqn:Hin.
      - destruct Htr as (transfer & Htransfer & ->). destruct Hs as [_ Hti].
        rewrite (transferring_agents_lookup _ _ _ _ _ _ Hex Hact) in Hti.
        injection Hti as <-. simpl. rewrite Htransfer.
        apply bool_decide_ext. split; [by intros ->|congruence].
      - subst tr. destruct Hs as [_ ->]. apply bool_decide_eq_false in Hin.
        rewrite (proj2 (action_to_idx_None cfg "transfer") Hin).
        by rewrite bool_decide_eq_false_2. }
    case_bool_decide as Hidl; simpl; [ring|].
    case_bool_decide; simpl; ring.
Qed.

Lemma action_phase_energy_account_witness :
  ∃ state' np no fp eat idle b s e',
    step_action_agents cfg_single (example_state agents_with_donor 0) [5; 4; 5]
      example_draws = Some state' ∧
    move_func cfg_single cfg_single (uniform_action example_draws)
      (example_state agents_with_donor 0) [5; 4; 5] = Some (np, no, fp) ∧
    action_to_idx cfg_single "eat" = Some eat ∧
    action_to_idx cfg_single "idle" = Some idle ∧
    (b == 0)%Q ∧
    energy_agents (agents state') !! 1%nat = Some e' ∧
    (e' == clip (10 + b + s
                 - (if bool_decide (4%Z = idle) then energy_loss_idle cfg_single
                    else if bool_decide (action_to_idx cfg_single "transfer" = Some 4%Z)
                         then 0
                         else energy_loss_action cfg_single))
             0 (energy_max cfg_single))%Q.
Proof.
  assert (is_Some (step_action_agents cfg_single (example_state agents_with_donor 0)
                     [5; 4; 5] example_draws))
    as [state' Hs] by (apply (bool_decide_unpack _); vm_compute; exact I).
  destruct (action_phase_energy_account cfg_single (example_state agents_with_donor 0)
              [5; 4; 5] example_draws state' 1%nat 10%Q 4
              ltac:(repeat split) eq_refl eq_refl Hs eq_refl eq_refl eq_refl)
    as (np & no & fp & eat & idle & b & s & e' & Hmove & Heat & Hidle & Hb & Hb0 & _
        & He' & Heq).
  exists state', np, no, fp, eat, idle, b, s, e'.
  split_and!; [exact Hs|exact Hmove|exact Heat|exact Hidle| |exact He'|exact Heq].
  apply Hb0. vm_compute in Heat. injection Heat as <-. lia.
Defined.

(** ** One energy transfer *)

Lemma existsb_id_count_true l : existsb id l = bool_decide (0 < count_true l)%nat.
Proof.
  induction l as [|b l IH]; [done|]. rewrite count_true_cons. simpl. rewrite IH.
  destruct b; simpl; done.
Qed.

Lemma count_q_count_true l : (count_q l == inject_Z (Z.of_nat (count_true l)))%Q.
Proof.
  unfold count_q. induction l as [|b l IH]; [reflexivity|].
  rewrite count_true_cons. cbn [fmap list_fmap Qsum foldr].
  change (foldr Qplus 0%Q (b2q <$> l)) with (Qsum (b2q <$> l)). rewrite IH.
  rewrite Nat2Z.inj_add, inject_Z_plus. by destruct b.
Qed.

Lemma Qsum_cons x l : Qsum (x :: l) = (x + Qsum l)%Q.
Proof. done. Qed.

Lemma Qsum_zip_with_Qplus l1 l2 :
  length l1 = length l2 →
  (Qsum (zip_with Qplus l1 l2) == Qsum l1 + Qsum l2)%Q.
Proof.
  revert l2. induction l1 as [|x l1 IH]; intros [|y l2] Hlen; try discriminate Hlen.
  - reflexivity.
  - injection Hlen as Hlen. cbn [zip_with]. rewrite !Qsum_cons, IH by done. ring.
Qed.

Lemma Qsum_replicate_0 n : (Qsum (replicate n 0%Q) == 0)%Q.
Proof.
  induction n as [|n IH]; [reflexivity|]. cbn [replicate]. rewrite Qsum_cons, IH. ring.
Qed.

Lemma Qsum_alter_replicate n i c :
  (i < n)%nat → (Qsum (alter (λ x, x + c)%Q i (replicate n 0%Q)) == c)%Q.
Proof.
  revert i. induction n as [|n IH]; intros i Hi; [lia|].
  destruct i as [|i]; cbn [replicate alter list_alter].
  - rewrite Qsum_cons, Qsum_replicate_0. ring.
  - rewrite Qsum_cons. setoid_rewrite (IH i ltac:(lia)). ring.
Qed.

Lemma Qsum_scale_mask g l :
  (Qsum ((λ r : bool, g * b2q r)%Q <$> l) == g * count_q l)%Q.
Proof.
  unfold count_q. induction l as [|b l IH]; cbn [fmap list_fmap].
  - unfold Qsum. simpl. ring.
  - rewrite !Qsum_cons, IH. ring.
Qed.

Lemma length_are_receiving_from cfg a i :
  length (are_receiving_from cfg a i)
  = Nat.min (length (are_existing_agents a)) (length (positions_agents a)).
Proof. unfold are_receiving_from. by rewrite length_zip_with. Qed.

(** X8. One donor's energy transfer.  A transfer takes place exactly when
    the donor is flagged as transferring and at least one existing agent
    stands on the cell it faces.  Without a transfer no slot's energy
    changes.  With one, every receiver gets an equal share
    [energy_transfer_gain / k] of the gain, [k] being the number of
    receivers, and the donor pays [energy_transfer_loss]: in total the
    population's energy changes by [energy_transfer_gain -
    energy_transfer_loss]. *)
Theorem per_agent_helper_fn_balance cfg a tr i (ti : bool) :
  length (positions_agents a) = n_agents_max cfg →
  length (are_existing_agents a) = n_agents_max cfg →
  length (energy_agents a) = n_agents_max cfg →
  (i < n_agents_max cfg)%nat →
  tr !! i = Some ti →
  let out := per_agent_helper_fn cfg a tr i in
  let receiving := are_receiving_from cfg a i in
  let k := count_true receiving in
  out.2 = ti && bool_decide (0 < k)%nat ∧
  length out.1 = n_agents_max cfg ∧
  (out.2 = false → ∀ j x, out.1 !! j = Some x → (x == 0)%Q) ∧
  (out.2 = true →
   (∀ j x (rj : bool), out.1 !! j = Some x → receiving !! j = Some rj →
      (x == (if rj then energy_transfer_gain cfg / inject_Z (Z.of_nat k) else 0)
            - (if bool_decide (j = i) then energy_transfer_loss cfg else 0))%Q) ∧
   (Qsum out.1 == energy_transfer_gain cfg - energy_transfer_loss cfg)%Q).
Proof.
  intros Hlp Hle Hlen Hi Hti out receiving k.
  assert (Hout2 : out.2 = ti && bool_decide (0 < k)%nat).
  { unfold out, per_agent_helper_fn. cbn [snd].
    by rewrite (gather_lookup _ _ _ Hti), existsb_id_count_true. }
  assert (Hlr : length receiving = n_agents_max cfg).
  { unfold receiving. rewrite length_are_receiving_from. lia. }
  assert (Hlout : length out.1 = n_agents_max cfg).
  { by apply length_per_agent_helper_fn. }
  assert (Hlook : ∀ j x (rj : bool), out.1 !! j = Some x → receiving !! j = Some rj →
            (x == b2q out.2 * energy_transfer_gain cfg / Qmax 1 (count_q receiving)
                  * b2q rj
                  - (if bool_decide (j = i) then b2q out.2 * energy_transfer_loss cfg
                     else 0))%Q).
  { intros j x rj Hx Hrj. unfold out, per_agent_helper_fn in Hx |- *. cbn [fst snd] in *.
    fold receiving in Hx |- *.
    apply lookup_zip_with_Some in Hx as (y & z & -> & Hy & Hz).
    rewrite list_lookup_fmap, Hrj in Hz. injection Hz as <-.
    assert (j < n_agents_max cfg)%nat as Hj.
    { rewrite <- Hlr. by eapply lookup_lt_Some. }
    destruct (decide (j = i)) as [->|Hne].
    - rewrite list_lookup_alter, decide_True, lookup_replicate_2 in Hy by (done || lia).
      injection Hy as <-. rewrite bool_decide_eq_true_2 by done. ring.
    - rewrite list_lookup_alter_ne, lookup_replicate_2 in Hy by (done || lia).
      injection Hy as <-. rewrite bool_decide_eq_false_2 by done. ring. }
  split; [done|]. split; [done|]. split.
  - intros Hfalse j x Hx.
    destruct (lookup_lt_is_Some_2 receiving j) as [rj Hrj].
    { rewrite Hlr, <- Hlout. by eapply lookup_lt_Some. }
    rewrite (Hlook j x rj Hx Hrj), Hfalse. cbn [b2q].
    destruct (bool_decide (j = i)); unfold Qdiv; ring.
  - intros Htrue.
    assert (0 < k)%nat as Hk.
    { rewrite Htrue in Hout2. symmetry in Hout2.
      apply andb_true_iff in Hout2 as [_ Hk]. by apply bool_decide_eq_true in Hk. }
    assert (Hmax : (Qmax 1 (count_q receiving) == inject_Z (Z.of_nat k))%Q).
    { rewrite count_q_count_true. fold k. apply Q.max_r.
      change 1%Q with (inject_Z 1). rewrite <- Zle_Qle. lia. }
    assert (Hk0 : ¬ (inject_Z (Z.of_nat k) == 0)%Q).
    { change 0%Q with (inject_Z 0). rewrite inject_Z_injective. lia. }
    split.
    + intros j x rj Hx Hrj. rewrite (Hlook j x rj Hx Hrj), Htrue, Hmax.
      destruct rj, (bool_decide (j = i)); cbn [b2q]; field; done.
    + unfold out, per_agent_helper_fn. cbn [fst].
      fold receiving. fold out.
      change (gather tr i && existsb id receiving) with out.2.
      rewrite Htrue. rewrite Qsum_zip_with_Qplus.
      2:{ rewrite length_alter, length_replicate, length_fmap. lia. }
      rewrite Qsum_alter_replicate by lia.
      rewrite Qsum_scale_mask, Hmax, count_q_count_true. fold k. cbn [b2q]. field. done.
Qed.

Lemma per_agent_helper_fn_balance_witness :
  (per_agent_helper_fn cfg_single agents_with_donor [false; true; false] 1).2 = true ∧
  (Qsum (per_agent_helper_fn cfg_single agents_with_donor [false; true; false] 1).1
   == energy_transfer_gain cfg_single - energy_transfer_loss cfg_single)%Q.
Proof.
  destruct (per_agent_helper_fn_balance cfg_single agents_with_donor
              [false; true; false] 1%nat true eq_refl eq_refl eq_refl
              ltac:(vm_compute; lia) eq_refl)
    as (_ & _ & _ & Htransfer).
  split; [reflexivity|]. apply Htransfer. reflexivity.
Defined.

(** ** Plants after the meal *)

(** X9. After the eating step the plant mass of every cell lies in
    [0, 1]; a cell on which nobody eats keeps its plant mass (if that was
    within [0, 1]), and a cell with at least one eating agent is left
    without plants, however many agents share it. *)
Theorem map_plants_eaten_bounds plants np eating p :
  let k := count_at np eating p in
  let v := grid_at plants p in
  let v' := grid_at (map_plants_eaten plants np eating) p in
  ((0 <= v')%Q ∧ (v' <= 1)%Q) ∧
  (k = 0%nat → (0 <= v)%Q → (v <= 1)%Q → (v' == v)%Q) ∧
  ((0 < k)%nat → (0 <= v)%Q → (v' == 0)%Q).
Proof.
  intros k v v'.
  assert (Hv' : (v' == clip (v - inject_Z (Z.of_nat k) * v) 0 1)%Q).
  { unfold v', v, k, grid_at, map_plants_eaten, clip. destruct p as [r c]. cbn [fst snd].
    by rewrite map_agents_try_eating_count. }
  split; [|split].
  - rewrite Hv'. by apply clip_bounds.
  - intros Hk H0 H1. rewrite Hv', Hk. unfold clip.
    assert (v - inject_Z (Z.of_nat 0) * v == v)%Q as -> by (simpl; ring).
    rewrite (Q.max_l v 0) by done. by apply Q.min_l.
  - intros Hk H0. rewrite Hv'. unfold clip.
    assert (v - inject_Z (Z.of_nat k) * v <= 0)%Q as Hle.
    { assert (0 <= (inject_Z (Z.of_nat k) - 1) * v)%Q as Hge.
      { apply Qmult_le_0_compat; [|done].
        assert (1 <= inject_Z (Z.of_nat k))%Q; [|lra].
        change 1%Q with (inject_Z 1). rewrite <- Zle_Qle. lia. }
      lra. }
    rewrite (Q.max_r _ 0) by done. by apply Q.min_l.
Qed.

(** ** Reproduction: pairing parents with free slots *)

Lemma where_from_lookup mask k0 k i :
  where_from k0 mask !! k = Some i ↔
  ∃ j, i = (k0 + j)%nat ∧ mask !! j = Some true ∧ count_true (take j mask) = k.
Proof.
  revert k0 k. induction mask as [|b m IH]; intros k0 k.
  - simpl. split; [done|]. by intros (j & _ & ? & _).
  - destruct b; simpl.
    + destruct k as [|k]; simpl.
      * split.
        -- intros [= <-]. exists 0%nat. split_and!; [lia|done|done].
        -- intros (j & -> & Hj & Hc). destruct j as [|j]; [f_equal; lia|].
           simpl in Hc. rewrite count_true_cons in Hc. lia.
      * rewrite IH. split.
        -- intros (j & -> & Hj & Hc). exists (S j). split_and!; [lia|done|].
           simpl. rewrite count_true_cons. lia.
        -- intros (j & -> & Hj & Hc). destruct j as [|j]; [done|].
           simpl in Hc. rewrite count_true_cons in Hc.
           exists j. split_and!; [lia|done|lia].
    + rewrite IH. split.
      * intros (j & -> & Hj & Hc). exists (S j). split_and!; [lia|done|].
        simpl. by rewrite count_true_cons.
      * intros (j & -> & Hj & Hc). destruct j as [|j]; [done|].
        simpl in Hc. rewrite count_true_cons in Hc.
        exists j. split_and!; [lia|done|done].
Qed.

Lemma where_filled_lookup_lt mask n fill k :
  (k < n)%nat → (k < count_true mask)%nat →
  where_filled mask n fill !! k = where_from 0 mask !! k.
Proof.
  intros Hkn Hk. unfold where_filled.
  rewrite lookup_take_lt, lookup_app_l by (rewrite ?length_where_from; lia). done.
Qed.

Lemma vec_scatter_set_lookup_miss {A} (l : list A) idx vs i :
  i ∉ idx → vec_scatter_set l idx vs !! i = l !! i.
Proof.
  unfold vec_scatter_set. revert l vs. induction idx as [|k idx IH]; intros l vs Hi.
  - done.
  - destruct vs as [|v vs]; [done|]. cbn [zip_with foldl fst snd].
    apply not_elem_of_cons in Hi as [Hik Hi].
    rewrite IH by done. by rewrite list_lookup_insert_ne.
Qed.

Lemma vec_scatter_set_lookup_hit {A} (l : list A) idx vs i k v :
  idx !! k = Some i → vs !! k = Some v → (i < length l)%nat →
  (∀ k', idx !! k' = Some i → k' = k) →
  vec_scatter_set l idx vs !! i = Some v.
Proof.
  revert l vs k. induction idx as [|i0 idx IH]; intros l vs k Hk Hv Hi Huniq; [done|].
  destruct vs as [|v0 vs]; [done|].
  unfold vec_scatter_set. cbn [zip_with foldl fst snd].
  change (foldl _ ?l0 (zip_with pair idx vs)) with (vec_scatter_set l0 idx vs).
  destruct k as [|k]; simpl in Hk, Hv.
  - simplify_eq. rewrite vec_scatter_set_lookup_miss.
    + by apply list_lookup_insert_eq.
    + intros (k' & Hk')%list_elem_of_lookup_1. by specialize (Huniq (S k') Hk').
  - apply (IH _ _ k); [done|done|by rewrite length_insert|].
    intros k' Hk'. specialize (Huniq (S k') Hk'). lia.
Qed.

Lemma indices_newborn_lookup cfg (existing : list bool) n k i :
  length existing = n_agents_max cfg →
  (n ≤ count_true (negb <$> existing))%nat →
  (i < n_agents_max cfg)%nat →
  indices_newborn_agents_FILLED cfg existing n !! k = Some i ↔
  (k < n)%nat ∧ where_from 0 (negb <$> existing) !! k = Some i.
Proof.
  intros Hlen Hn Hi. unfold indices_newborn_agents_FILLED.
  set (ghosts := negb <$> existing) in *.
  pose proof (count_true_le_length ghosts) as Hcl.
  assert (length ghosts = n_agents_max cfg) as Hlg by (unfold ghosts; by rewrite length_fmap).
  rewrite lookup_zip_with_Some. split.
  - intros (x & g & Heq & Hx & Hg). apply lookup_seq in Hx as [-> Hk]. simpl in *.
    case_bool_decide as Hkn; [|lia]. subst g.
    split; [done|]. by rewrite where_filled_lookup_lt in Hg by lia.
  - intros [Hkn Hk]. exists k, i. split_and!.
    + by rewrite bool_decide_eq_true_2.
    + apply lookup_seq. split; [done|]. lia.
    + rewrite where_filled_lookup_lt by lia. done.
Qed.

Lemma step_reproduce_agents_fields cfg state actions noise r :
  step_reproduce_agents cfg state actions noise = Some r →
  ∃ trying,
    agents_trying_reprod cfg state actions = Some trying ∧
    let a := agents state in
    let N := n_agents_max cfg in
    let n := n_newborns_of trying (are_existing_agents a) in
    let idx := indices_newborn_agents_FILLED cfg (are_existing_agents a) n in
    let par := where_filled (repr_agents_reprod r) N (fill_value cfg) in
    repr_agents_reprod r = agents_allowed_reprod trying n ∧
    repr_agents_parents r = vec_scatter_set (replicate N (fill_value cfg)) idx par ∧
    parent_agents (agents (repr_state r)) = vec_scatter_set (parent_agents a) idx par ∧
    age_agents (agents (repr_state r))
      = vec_scatter_set (age_agents a) idx (replicate N 0) ∧
    positions_agents (agents (repr_state r))
      = vec_scatter_set (positions_agents a) idx
          (@gather Pos Pos_inhabited (facing_positions_of cfg a) <$> par) ∧
    appearance_agents (agents (repr_state r))
      = vec_scatter_set (appearance_agents a) idx
          (zip_with (zip_with Qplus) (gather (appearance_agents a) <$> par) noise) ∧
    orientation_agents (agents (repr_state r)) = orientation_agents a.
Proof.
  unfold step_reproduce_agents. intros Hr.
  destruct (agents_trying_reprod cfg state actions) as [trying|]; [|done].
  simpl in Hr. injection Hr as <-. exists trying. split; [done|]. simpl.
  split_and!; reflexivity.
Qed.

(** What a newborn slot [i] is made of: [i] was a ghost, of rank [k] among
    the ghosts, and is paired with the reproducing slot [p] of the same
    rank among the reproducers. *)
Lemma newborn_slot_pairing cfg state actions noise r trying i :
  wf_agents cfg (agents state) →
  length actions = n_agents_max cfg →
  step_reproduce_agents cfg state actions noise = Some r →
  agents_trying_reprod cfg state actions = Some trying →
  repr_are_newborns_agents r !! i = Some true →
  let a := agents state in
  let n := n_newborns_of trying (are_existing_agents a) in
  let idx := indices_newborn_agents_FILLED cfg (are_existing_agents a) n in
  let par := where_filled (repr_agents_reprod r) (n_agents_max cfg) (fill_value cfg) in
  ∃ p k,
    (i < n_agents_max cfg)%nat ∧ (p < n_agents_max cfg)%nat ∧
    (k < n_agents_max cfg)%nat ∧
    are_existing_agents a !! i = Some false ∧
    count_true (take i (negb <$> are_existing_agents a)) = k ∧
    repr_agents_reprod r !! p = Some true ∧
    trying !! p = Some true ∧
    count_true (take p (repr_agents_reprod r)) = k ∧
    idx !! k = Some i ∧ par !! k = Some p ∧
    (∀ k', idx !! k' = Some i → k' = k).
Proof.
  intros Hwf Hla Hr Htry Hnew a n idx par.
  pose proof Hwf as (Hlp & Hlo & Hle & Hlen & Hlage & Hlapp & Hlpar).
  pose proof (length_agents_trying_reprod _ _ _ _ Hwf Hla Htry) as Hltry.
  apply step_reproduce_agents_inv in Hr as (trying' & Htry' & Hinv).
  assert (trying' = trying) as -> by congruence.
  cbv zeta in Hinv. destruct Hinv as (Hallowed & Hnewborns & _).
  fold a in Hallowed, Hnewborns. fold n in Hallowed, Hnewborns. fold idx in Hnewborns.
  set (ghosts := negb <$> are_existing_agents a).
  assert (Hn : (n ≤ count_true ghosts)%nat) by (unfold n, n_newborns_of, ghosts; lia).
  assert (Hn' : (n ≤ count_true trying)%nat) by (unfold n, n_newborns_of; lia).
  assert (Hi : (i < n_agents_max cfg)%nat).
  { apply lookup_lt_Some in Hnew.
    by rewrite Hnewborns, length_vec_scatter_set, length_replicate in Hnew. }
  assert (Hidx : ∀ k, idx !! k = Some i ↔ (k < n)%nat ∧ where_from 0 ghosts !! k = Some i).
  { intros k. by apply indices_newborn_lookup. }
  assert (i ∈ idx) as (k & Hk)%list_elem_of_lookup_1.
  { rewrite Hnewborns in Hnew.
    rewrite (vec_scatter_set_const _ _ _ true i false) in Hnew.
    - injection Hnew as Hnew. by case_bool_decide.
    - unfold idx. rewrite length_indices_newborn, length_replicate. lia.
    - apply Forall_forall. by intros y [-> _]%elem_of_replicate.
    - by apply lookup_replicate_2. }
  pose proof (proj1 (Hidx k) Hk) as [Hkn Hwk].
  apply where_from_lookup in Hwk as (j & Hj & Hgj & Hcj). simpl in Hj. subst j.
  assert (Hcount : count_true (repr_agents_reprod r) = n).
  { rewrite Hallowed, count_true_agents_allowed_reprod. lia. }
  assert (Hlallowed : length (repr_agents_reprod r) = n_agents_max cfg).
  { by rewrite Hallowed, length_agents_allowed_reprod. }
  assert (is_Some (where_from 0 (repr_agents_reprod r) !! k)) as [p Hp].
  { apply lookup_lt_is_Some. rewrite length_where_from. lia. }
  pose proof Hp as Hp'.
  apply where_from_lookup in Hp' as (j & Hj & Hpj & Hcp). simpl in Hj. subst j.
  assert (Hpn : (p < n_agents_max cfg)%nat).
  { rewrite <- Hlallowed. by eapply lookup_lt_Some. }
  assert (HkN : (k < n_agents_max cfg)%nat).
  { pose proof (count_true_le_length trying). lia. }
  exists p, k. split_and!; try done.
  - unfold ghosts in Hgj. rewrite list_lookup_fmap in Hgj.
    destruct (are_existing_agents a !! i) as [[]|]; simplify_eq/=; done.
  - destruct (lookup_lt_is_Some_2 trying p ltac:(lia)) as [b Hb].
    rewrite Hallowed, (agents_allowed_reprod_lookup _ _ _ _ Hb) in Hpj.
    injection Hpj as Hpj. apply andb_true_iff in Hpj as [_ ->]. done.
  - unfold par. rewrite where_filled_lookup_lt by lia. done.
  - intros k' Hk'. apply Hidx in Hk' as [_ Hk'].
    apply where_from_lookup in Hk' as (j & Hj & _ & Hcj'). simpl in Hj. subst j.
    by rewrite Hcj in Hcj'.
Qed.

(** The fields of a newborn slot, in terms of the parent it is paired
    with. *)
Lemma newborn_slot_fields cfg state actions noise r trying i :
  wf_agents cfg (agents state) →
  length actions = n_agents_max cfg →
  step_reproduce_agents cfg state actions noise = Some r →
  agents_trying_reprod cfg state actions = Some trying →
  repr_are_newborns_agents r !! i = Some true →
  ∃ p k f,
    (i < n_agents_max cfg)%nat ∧ (p < n_agents_max cfg)%nat ∧
    (k < n_agents_max cfg)%nat ∧
    are_existing_agents (agents state) !! i = Some false ∧
    count_true (take i (negb <$> are_existing_agents (agents state))) = k ∧
    repr_agents_reprod r !! p = Some true ∧
    trying !! p = Some true ∧
    count_true (take p (repr_agents_reprod r)) = k ∧
    facing_positions_of cfg (agents state) !! p = Some f ∧
    are_existing_agents (agents (repr_state r)) !! i = Some true ∧
    parent_agents (agents (repr_state r)) !! i = Some p ∧
    repr_agents_parents r !! i = Some p ∧
    positions_agents (agents (repr_state r)) !! i = Some f ∧
    energy_agents (agents (repr_state r)) !! i = Some (energy_initial cfg) ∧
    age_agents (agents (repr_state r)) !! i = Some 0 ∧
    let idx :=
      indices_newborn_agents_FILLED cfg (are_existing_agents (agents state))
        (n_newborns_of trying (are_existing_agents (agents state))) in
    idx !! k = Some i ∧
    where_filled (repr_agents_reprod r) (n_agents_max cfg) (fill_value cfg) !! k = Some p ∧
    (∀ k', idx !! k' = Some i → k' = k).
Proof.
  intros Hwf Hla Hr Htry Hnew.
  pose proof Hwf as (Hlp & Hlo & Hle & Hlen & Hlage & Hlapp & Hlpar).
  pose proof (step_reproduce_agents_fields _ _ _ _ _ Hr) as (trying' & Htry' & Hf).
  assert (trying' = trying) as -> by congruence.
  cbv zeta in Hf.
  destruct Hf as (Hallowed & Hparents & Hparent & Hage & Hpos & Happ & _).
  assert (Hlallowed : length (repr_agents_reprod r) = n_agents_max cfg).
  { rewrite Hallowed, length_agents_allowed_reprod.
    exact (length_agents_trying_reprod _ _ _ _ Hwf Hla Htry). }
  pose proof (step_reproduce_agents_inv _ _ _ _ _ Hr) as (trying' & Htry'' & Hinv).
  assert (trying' = trying) as -> by congruence.
  cbv zeta in Hinv. destruct Hinv as (_ & _ & Hex & Hen & _).
  destruct (newborn_slot_pairing _ _ _ _ _ _ _ Hwf Hla Hr Htry Hnew)
    as (p & k & Hi & Hp & Hk & Hghost & Hrank & Hrep & Htp & Hrankp & Hidx & Hpar & Huniq).
  set (idx := indices_newborn_agents_FILLED _ _ _) in *.
  set (par := where_filled _ _ _) in *.
  assert (Hlfp : length (facing_positions_of cfg (agents state)) = n_agents_max cfg).
  { rewrite length_facing_positions. lia. }
  destruct (lookup_lt_is_Some_2 (facing_positions_of cfg (agents state)) p ltac:(lia))
    as [f Hfp].
  exists p, k, f. split_and!; try done.
  - rewrite Hex. apply lookup_zip_with_Some. by exists false, true.
  - rewrite Hparent. by apply (vec_scatter_set_lookup_hit _ _ _ _ k); [..|lia|].
  - rewrite Hparents.
    apply (vec_scatter_set_lookup_hit _ _ _ _ k); [done|done| |done].
    rewrite length_replicate. lia.
  - rewrite Hpos. apply (vec_scatter_set_lookup_hit _ _ _ _ k); [done| |lia|done].
    rewrite list_lookup_fmap, Hpar. simpl. by rewrite (gather_lookup _ _ _ Hfp).
  - rewrite Hen. apply (vec_scatter_set_lookup_hit _ _ _ _ k); [done| | |done].
    + by apply lookup_replicate_2.
    + rewrite length_zip_with. lia.
  - rewrite Hage. apply (vec_scatter_set_lookup_hit _ _ _ _ k); [done| |lia|done].
    by apply lookup_replicate_2.
Qed.

(** X10. Every newborn is paired with one parent.  A newborn slot was a
    ghost; if it is the [k]-th ghost slot (counting from 0, in slot order)
    its parent is the [k]-th reproducing agent.  The newborn exists, has
    the parent's index in [parent_agents] and in the returned
    [agents_parents], stands on the cell its parent faces, holds
    [energy_initial], has age 0, and its appearance is the parent's plus
    the [k]-th row of the appearance noise. *)
Theorem newborn_takes_after_parent cfg state actions noise r i :
  wf_agents cfg (agents state) →
  length actions = n_agents_max cfg →
  length noise = n_agents_max cfg →
  step_reproduce_agents cfg state actions noise = Some r →
  repr_are_newborns_agents r !! i = Some true →
  ∃ p k f app nz,
    are_existing_agents (agents state) !! i = Some false ∧
    count_true (take i (negb <$> are_existing_agents (agents state))) = k ∧
    repr_agents_reprod r !! p = Some true ∧
    count_true (take p (repr_agents_reprod r)) = k ∧
    facing_positions_of cfg (agents state) !! p = Some f ∧
    appearance_agents (agents state) !! p = Some app ∧
    noise !! k = Some nz ∧
    are_existing_agents (agents (repr_state r)) !! i = Some true ∧
    parent_agents (agents (repr_state r)) !! i = Some p ∧
    repr_agents_parents r !! i = Some p ∧
    positions_agents (agents (repr_state r)) !! i = Some f ∧
    energy_agents (agents (repr_state r)) !! i = Some (energy_initial cfg) ∧
    age_agents (agents (repr_state r)) !! i = Some 0 ∧
    appearance_agents (agents (repr_state r)) !! i = Some (zip_with Qplus app nz).
Proof.
  intros Hwf Hla Hlnoise Hr Hnew.
  pose proof Hwf as (Hlp & Hlo & Hle & Hlen & Hlage & Hlapp & Hlpar).
  pose proof (step_reproduce_agents_fields _ _ _ _ _ Hr) as (trying & Htry & Hf).
  cbv zeta in Hf. destruct Hf as (_ & _ & _ & _ & _ & Happ & _).
  destruct (newborn_slot_fields _ _ _ _ _ _ _ Hwf Hla Hr Htry Hnew)
    as (p & k & f & Hi & Hp & Hk & Hghost & Hrank & Hrep & _ & Hrankp & Hfp & Hex
        & Hparent & Hparents & Hpos & Hen & Hage & Hidx & Hpar & Huniq).
  destruct (lookup_lt_is_Some_2 (appearance_agents (agents state)) p ltac:(lia))
    as [app Happp].
  destruct (lookup_lt_is_Some_2 noise k ltac:(lia)) as [nz Hnz].
  exists p, k, f, app, nz. split_and!; try done.
  rewrite Happ. apply (vec_scatter_set_lookup_hit _ _ _ _ k); [done| |lia|done].
  apply lookup_zip_with_Some. exists app, nz. split_and!; [done| |done].
  rewrite list_lookup_fmap, Hpar. simpl. by rewrite (gather_lookup _ _ _ Happp).
Qed.

Lemma poor_parent_reproduces :
  is_Some (step_reproduce_agents cfg_costly (example_state agents_poor_parent 0)
             [5; 5; 5] (noise_appearances example_draws)) ∧
  repr_are_newborns_agents
    <$> step_reproduce_agents cfg_costly (example_state agents_poor_parent 0)
          [5; 5; 5] (noise_appearances example_draws)
  = Some [false; true; false].
Proof.
  split; [apply (bool_decide_unpack _); vm_compute; exact I|].
  vm_compute. reflexivity.
Qed.

Lemma newborn_takes_after_parent_witness :
  ∃ r p f,
    step_reproduce_agents cfg_costly (example_state agents_poor_parent 0)
      [5; 5; 5] (noise_appearances example_draws) = Some r ∧
    repr_agents_reprod r !! p = Some true ∧
    facing_positions_of cfg_costly (agents (example_state agents_poor_parent 0)) !! p
      = Some f ∧
    parent_agents (agents (repr_state r)) !! 1%nat = Some p ∧
    positions_agents (agents (repr_state r)) !! 1%nat = Some f ∧
    energy_agents (agents (repr_state r)) !! 1%nat = Some (energy_initial cfg_costly) ∧
    age_agents (agents (repr_state r)) !! 1%nat = Some 0.
Proof.
  destruct poor_parent_reproduces as [[r Hr] Hnew].
  rewrite Hr in Hnew. injection Hnew as Hnew.
  destruct (newborn_takes_after_parent cfg_costly (example_state agents_poor_parent 0)
              [5; 5; 5] (noise_appearances example_draws) r 1%nat
              ltac:(repeat split) eq_refl eq_refl Hr)
    as (p & k & f & app & nz & _ & _ & Hrep & _ & Hf & _ & _ & _ & Hpar & _ & Hpos
        & Hen & Hage & _).
  { by rewrite Hnew. }
  exists r, p, f. split_and!; [exact Hr|exact Hrep|exact Hf|exact Hpar|exact Hpos|
                               exact Hen|exact Hage].
Defined.

Lemma not_newborn_not_in_indices cfg state actions noise r trying i :
  step_reproduce_agents cfg state actions noise = Some r →
  agents_trying_reprod cfg state actions = Some trying →
  repr_are_newborns_agents r !! i = Some false →
  (i < n_agents_max cfg)%nat ∧
  i ∉ indices_newborn_agents_FILLED cfg (are_existing_agents (agents state))
        (n_newborns_of trying (are_existing_agents (agents state))).
Proof.
  intros Hr Htry Hnew.
  apply step_reproduce_agents_inv in Hr as (trying' & Htry' & Hinv).
  assert (trying' = trying) as -> by congruence.
  cbv zeta in Hinv. destruct Hinv as (_ & Hnewborns & _).
  assert (Hi : (i < n_agents_max cfg)%nat).
  { apply lookup_lt_Some in Hnew.
    by rewrite Hnewborns, length_vec_scatter_set, length_replicate in Hnew. }
  split; [done|]. rewrite Hnewborns in Hnew.
  rewrite (vec_scatter_set_const _ _ _ true i false) in Hnew.
  - injection Hnew as Hnew. by case_bool_decide.
  - rewrite length_indices_newborn, length_replicate. lia.
  - apply Forall_forall. by intros y [-> _]%elem_of_replicate.
  - by apply lookup_replicate_2.
Qed.

(** The fields of a slot that is not a newborn. *)
Lemma other_slot_fields cfg state actions noise r i :
  wf_agents cfg (agents state) →
  length actions = n_agents_max cfg →
  step_reproduce_agents cfg state actions noise = Some r →
  repr_are_newborns_agents r !! i = Some false →
  are_existing_agents (agents (repr_state r)) !! i = are_existing_agents (agents state) !! i ∧
  positions_agents (agents (repr_state r)) !! i = positions_agents (agents state) !! i ∧
  age_agents (agents (repr_state r)) !! i = age_agents (agents state) !! i ∧
  parent_agents (agents (repr_state r)) !! i = parent_agents (agents state) !! i ∧
  appearance_agents (agents (repr_state r)) !! i
    = appearance_agents (agents state) !! i ∧
  repr_agents_parents r !! i = Some (fill_value cfg) ∧
  (∀ e (ri : bool),
     energy_agents (agents state) !! i = Some e →
     repr_agents_reprod r !! i = Some ri →
     energy_agents (agents (repr_state r)) !! i
     = Some (e - b2q ri * energy_cost_reprod cfg)%Q).
Proof.
  intros Hwf Hla Hr Hnew.
  pose proof Hwf as (Hlp & Hlo & Hle & Hlen & Hlage & Hlapp & Hlpar).
  pose proof (step_reproduce_agents_fields _ _ _ _ _ Hr) as (trying & Htry & Hf).
  cbv zeta in Hf.
  destruct Hf as (Hallowed & Hparents & Hparent & Hage & Hpos & Happ & _).
  pose proof (step_reproduce_agents_inv _ _ _ _ _ Hr) as (trying' & Htry' & Hinv).
  assert (trying' = trying) as -> by congruence.
  cbv zeta in Hinv. destruct Hinv as (_ & _ & Hex & Hen & _).
  destruct (not_newborn_not_in_indices _ _ _ _ _ _ _ Hr Htry Hnew) as [Hi Hnot].
  split_and!.
  - rewrite Hex, lookup_zip_with, Hnew.
    destruct (are_existing_agents (agents state) !! i) as [[]|]; done.
  - by rewrite Hpos, vec_scatter_set_lookup_miss.
  - by rewrite Hage, vec_scatter_set_lookup_miss.
  - by rewrite Hparent, vec_scatter_set_lookup_miss.
  - by rewrite Happ, vec_scatter_set_lookup_miss.
  - rewrite Hparents, vec_scatter_set_lookup_miss by done. by apply lookup_replicate_2.
  - intros e ri He Hri. rewrite Hen, vec_scatter_set_lookup_miss by done.
    rewrite lookup_zip_with, He. simpl. by rewrite Hri.
Qed.

(** X11. Reproduction leaves every slot that is not a newborn where it
    was: existence flag, position, age, parent pointer and appearance are
    unchanged, the slot is given the fill value in the returned
    [agents_parents], and its energy changes only by the reproduction cost,
    charged if and only if the slot reproduced.  No orientation and no map
    channel changes. *)
Theorem reproduction_leaves_other_slots cfg state actions noise r i :
  wf_agents cfg (agents state) →
  length actions = n_agents_max cfg →
  step_reproduce_agents cfg state actions noise = Some r →
  repr_are_newborns_agents r !! i = Some false →
  (are_existing_agents (agents (repr_state r)) !! i
     = are_existing_agents (agents state) !! i ∧
   positions_agents (agents (repr_state r)) !! i = positions_agents (agents state) !! i ∧
   age_agents (agents (repr_state r)) !! i = age_agents (agents state) !! i ∧
   parent_agents (agents (repr_state r)) !! i = parent_agents (agents state) !! i ∧
   appearance_agents (agents (repr_state r)) !! i
     = appearance_agents (agents state) !! i ∧
   repr_agents_parents r !! i = Some (fill_value cfg)) ∧
  (∀ e (ri : bool),
     energy_agents (agents state) !! i = Some e →
     repr_agents_reprod r !! i = Some ri →
     energy_agents (agents (repr_state r)) !! i
     = Some (e - b2q ri * energy_cost_reprod cfg)%Q) ∧
  orientation_agents (agents (repr_state r)) = orientation_agents (agents state) ∧
  map (repr_state r) = map state.
Proof.
  intros Hwf Hla Hr Hnew.
  destruct (other_slot_fields _ _ _ _ _ _ Hwf Hla Hr Hnew)
    as (H1 & H2 & H3 & H4 & H5 & H6 & H7).
  split; [by split_and!|]. split; [done|].
  pose proof (step_reproduce_agents_fields _ _ _ _ _ Hr) as (trying & _ & Hf).
  cbv zeta in Hf. destruct Hf as (_ & _ & _ & _ & _ & _ & Hori).
  split; [done|].
  by apply step_reproduce_agents_inv in Hr as (? & _ & _ & _ & _ & _ & ? & _).
Qed.

Lemma reproduction_leaves_other_slots_witness :
  ∃ r,
    step_reproduce_agents cfg_costly (example_state agents_poor_parent 0)
      [5; 5; 5] (noise_appearances example_draws) = Some r ∧
    positions_agents (agents (repr_state r)) !! 0%nat = Some (0, 0) ∧
    (∀ ri : bool, repr_agents_reprod r !! 0%nat = Some ri →
       energy_agents (agents (repr_state r)) !! 0%nat
       = Some (8 - b2q ri * energy_cost_reprod cfg_costly)%Q).
Proof.
  destruct poor_parent_reproduces as [[r Hr] Hnew].
  rewrite Hr in Hnew. injection Hnew as Hnew.
  destruct (reproduction_leaves_other_slots cfg_costly
              (example_state agents_poor_parent 0)
              [5; 5; 5] (noise_appearances example_draws) r 0%nat
              ltac:(repeat split) eq_refl Hr)
    as ((_ & Hpos & _) & Hen & _).
  { by rewrite Hnew. }
  exists r. split; [exact Hr|]. split; [exact Hpos|].
  intros ri. by apply Hen.
Defined.

(** ** Invariants of the reproduction phase *)

Lemma step_reproduce_agents_wf cfg state actions noise r :
  wf_agents cfg (agents state) →
  length actions = n_agents_max cfg →
  step_reproduce_agents cfg state actions noise = Some r →
  wf_agents cfg (agents (repr_state r)) ∧
  length (repr_are_newborns_agents r) = n_agents_max cfg ∧
  length (repr_agents_reprod r) = n_agents_max cfg.
Proof.
  intros Hwf Hla Hr.
  pose proof Hwf as (Hlp & Hlo & Hle & Hlen & Hlage & Hlapp & Hlpar).
  pose proof (step_reproduce_agents_fields _ _ _ _ _ Hr) as (trying & Htry & Hf).
  cbv zeta in Hf.
  destruct Hf as (Hallowed & Hparents & Hparent & Hage & Hpos & Happ & Hori).
  pose proof (step_reproduce_agents_inv _ _ _ _ _ Hr) as (trying' & Htry' & Hinv).
  assert (trying' = trying) as -> by congruence.
  cbv zeta in Hinv. destruct Hinv as (_ & Hnewborns & Hex & Hen & _).
  assert (Hlallowed : length (repr_agents_reprod r) = n_agents_max cfg).
  { rewrite Hallowed, length_agents_allowed_reprod.
    exact (length_agents_trying_reprod _ _ _ _ Hwf Hla Htry). }
  assert (Hlnew : length (repr_are_newborns_agents r) = n_agents_max cfg).
  { by rewrite Hnewborns, length_vec_scatter_set, length_replicate. }
  split; [|done]. unfold wf_agents.
  rewrite Hpos, Hori, Hex, Hen, Hage, Happ, Hparent.
  rewrite !length_vec_scatter_set, !length_zip_with. split_and!; lia.
Qed.

Lemma occupancy_zero cfg state f :
  occupancy_channel_ok cfg state → in_grid cfg f →
  (grid_at (channel (map state) idx_agents) f == 0)%Q →
  occupancy (agents state) f = 0%nat.
Proof.
  intros Hocc Hin Hempty. specialize (Hocc f Hin). rewrite Hempty in Hocc.
  assert (inject_Z (Z.of_nat (occupancy (agents state) f)) == inject_Z 0)%Q as Hz
    by (by rewrite <- Hocc).
  apply (proj1 (inject_Z_injective _ _)) in Hz. lia.
Qed.

Lemma facing_positions_in_grid cfg a i f :
  0 < height cfg → 0 < width cfg →
  facing_positions_of cfg a !! i = Some f → in_grid cfg f.
Proof.
  intros HH HW (? & ? & _ & _ & ->)%facing_positions_lookup.
  by apply get_facing_pos_in_grid.
Qed.

(** Newborns are placed on free cells, one per cell: reproduction keeps
    existing agents on pairwise distinct cells. *)
Lemma step_reproduce_agents_single_occupancy cfg state actions noise r :
  0 < width cfg → 0 < height cfg →
  wf_agents cfg (agents state) →
  length actions = n_agents_max cfg →
  occupancy_channel_ok cfg state →
  single_occupancy (positions_agents (agents state))
    (are_existing_agents (agents state)) →
  step_reproduce_agents cfg state actions noise = Some r →
  single_occupancy (positions_agents (agents (repr_state r)))
    (are_existing_agents (agents (repr_state r))).
Proof.
  intros HW HH Hwf Hla Hocc Hsingle Hr.
  pose proof (step_reproduce_agents_fields _ _ _ _ _ Hr) as (trying & Htry & _).
  destruct (step_reproduce_agents_wf _ _ _ _ _ Hwf Hla Hr) as (Hwf' & Hlnew & _).
  pose proof Hwf' as (Hlp' & _ & Hle' & _).
  (* a newborn never shares its cell with a slot that existed before *)
  assert (Hnew_old : ∀ i j q,
    repr_are_newborns_agents r !! i = Some true →
    repr_are_newborns_agents r !! j = Some false →
    are_existing_agents (agents (repr_state r)) !! j = Some true →
    positions_agents (agents (repr_state r)) !! i = Some q →
    positions_agents (agents (repr_state r)) !! j = Some q → False).
  { intros i j q Hni Hnj Hej Hqi Hqj.
    destruct (newborn_slot_fields _ _ _ _ _ _ _ Hwf Hla Hr Htry Hni)
      as (p & k & f & _ & _ & _ & _ & _ & _ & Htp & _ & Hfp & _ & _ & _ & Hpos & _).
    destruct (other_slot_fields _ _ _ _ _ _ Hwf Hla Hr Hnj) as (Hex & Hpo & _).
    rewrite Hex in Hej. rewrite Hpo in Hqj.
    assert (f = q) as -> by congruence.
    destruct (agents_trying_reprod_true _ _ _ _ _ HW HH Hwf Htry Htp)
      as (e & a & f' & _ & _ & _ & _ & _ & Hf' & Hempty & _).
    assert (f' = q) as -> by congruence.
    pose proof (occupancy_zero _ _ _ Hocc
                  (facing_positions_in_grid _ _ _ _ HH HW Hfp) Hempty) as Hz.
    pose proof (count_at_pos _ _ _ _ Hej Hqj) as Hpos0.
    unfold occupancy in Hz. lia. }
  intros i j q Hij Hei Hej Hqi Hqj.
  destruct (lookup_lt_is_Some_2 (repr_are_newborns_agents r) i) as [bi Hbi].
  { rewrite Hlnew, <- Hlp'. by eapply lookup_lt_Some. }
  destruct (lookup_lt_is_Some_2 (repr_are_newborns_agents r) j) as [bj Hbj].
  { rewrite Hlnew, <- Hlp'. by eapply lookup_lt_Some. }
  destruct bi, bj.
  - destruct (newborn_slot_fields _ _ _ _ _ _ _ Hwf Hla Hr Htry Hbi)
      as (p & k & f & _ & _ & _ & _ & _ & _ & Htp & Hrk & Hfp & _ & _ & _ & Hpos & _ & _
          & Hidx & _ & _).
    destruct (newborn_slot_fields _ _ _ _ _ _ _ Hwf Hla Hr Htry Hbj)
      as (p' & k' & f' & _ & _ & _ & _ & _ & _ & Htp' & Hrk' & Hfp' & _ & _ & _ & Hpos'
          & _ & _ & Hidx' & _ & _).
    cbv zeta in Hidx, Hidx'.
    assert (f = q) as -> by congruence. assert (f' = q) as -> by congruence.
    assert (p ≠ p') as Hpp.
    { intros ->. assert (k = k') as -> by congruence. congruence. }
    destruct (agents_trying_reprod_true _ _ _ _ _ HW HH Hwf Htry Htp)
      as (_ & _ & f1 & _ & _ & _ & _ & _ & Hf1 & _ & Hfirst & _).
    destruct (agents_trying_reprod_true _ _ _ _ _ HW HH Hwf Htry Htp')
      as (_ & _ & f2 & _ & _ & _ & _ & _ & Hf2 & _ & Hfirst' & _).
    assert (f1 = q) as -> by congruence. assert (f2 = q) as -> by congruence.
    destruct (decide (p < p')%nat).
    + by eapply (Hfirst' p).
    + eapply (Hfirst p'); [lia|done..].
  - by eapply (Hnew_old i j).
  - by eapply (Hnew_old j i).
  - destruct (other_slot_fields _ _ _ _ _ _ Hwf Hla Hr Hbi) as (Hex & Hpo & _).
    destruct (other_slot_fields _ _ _ _ _ _ Hwf Hla Hr Hbj) as (Hex' & Hpo' & _).
    rewrite Hex in Hei. rewrite Hex' in Hej. rewrite Hpo in Hqi. rewrite Hpo' in Hqj.
    by eapply Hsingle.
Qed.

Lemma step_reproduce_agents_in_grid cfg state actions noise r :
  0 < width cfg → 0 < height cfg →
  wf_agents cfg (agents state) →
  length actions = n_agents_max cfg →
  (∀ i p, positions_agents (agents state) !! i = Some p → in_grid cfg p) →
  step_reproduce_agents cfg state actions noise = Some r →
  ∀ i p, positions_agents (agents (repr_state r)) !! i = Some p → in_grid cfg p.
Proof.
  intros HW HH Hwf Hla Hin Hr i p Hp.
  pose proof (step_reproduce_agents_fields _ _ _ _ _ Hr) as (trying & Htry & _).
  destruct (step_reproduce_agents_wf _ _ _ _ _ Hwf Hla Hr) as (Hwf' & Hlnew & _).
  pose proof Hwf' as (Hlp' & _).
  destruct (lookup_lt_is_Some_2 (repr_are_newborns_agents r) i) as [[] Hbi].
  { rewrite Hlnew, <- Hlp'. by eapply lookup_lt_Some. }
  - destruct (newborn_slot_fields _ _ _ _ _ _ _ Hwf Hla Hr Htry Hbi)
      as (p' & k & f & _ & _ & _ & _ & _ & _ & _ & _ & Hfp & _ & _ & _ & Hpos & _).
    assert (f = p) as -> by congruence.
    by eapply facing_positions_in_grid.
  - destruct (other_slot_fields _ _ _ _ _ _ Hwf Hla Hr Hbi) as (_ & Hpo & _).
    rewrite Hpo in Hp. by eapply Hin.
Qed.
